(** * K8sCodeReviewer: the unified-diff model, parser, serializer, chunker
    and token-budget optimizer of [llm-service/app/utils].

    The development embeds [diff_parser.py] and [token_counter.py] as Rocq
    functions and proves the properties the specification states about them.

    Modelling conventions.
    - A Python [str] is a [string] of 8-bit characters, read as the code
      points 0..255.  In that range [\d] is exactly [0-9] and the line
      boundaries of [str.splitlines] are the eight characters of
      [is_linebreak].
    - A Python [int] is a [Z]; [int(...)] of a digit string and the decimal
      formatting of an f-string are [int_of_digits] and [str_of_int].  The
      interpreter's configurable limit on the length of a digit string is
      not modelled.
    - [parse_unified_diff] mutates objects it also holds through other
      references ([current_file], [current_hunk], the [files] list), so the
      parser runs on an explicit store of [DiffFile] objects addressed by
      reference.
    - A function reads its global names when it runs.  [optimize_diff_context]
      is embedded in an error monad over the names its module binds: reading
      a name the module does not bind raises [NameError], and a call that
      comes to the end of the function returns [None]. *)

From Stdlib Require Import ZArith Ascii DecimalString DecimalPos.
From Stdlib Require String.
From stdpp Require Import base option list sorting strings.

Local Open Scope Z_scope.

(** ** Python string operations *)

Module PyStr.

(** [s[len(p):]] when [s.startswith(p)], nothing otherwise. *)
Fixpoint strip_prefix (p s : string) : option string :=
  match p with
  | EmptyString => Some s
  | String a p' =>
      match s with
      | String b s' => if Ascii.eqb a b then strip_prefix p' s' else None
      | EmptyString => None
      end
  end.

(** [s.startswith(p)] *)
Definition startswith (s p : string) : bool :=
  match strip_prefix p s with Some _ => true | None => false end.

(** [sub in s] *)
Fixpoint contains (sub s : string) : bool :=
  if startswith s sub then true
  else match s with
       | EmptyString => false
       | String _ s' => contains sub s'
       end.

(** [s[1:]] *)
Definition tail (s : string) : string :=
  match s with EmptyString => EmptyString | String _ s' => s' end.

(** The line boundaries of [str.splitlines] among the code points 0..255:
    LF, VT, FF, CR, FS, GS, RS and NEL. *)
Definition is_linebreak (c : ascii) : bool :=
  match c with
  | "010" | "011" | "012" | "013" | "028" | "029" | "030" | "133" => true
  | _ => false
  end%char.

(** [s.splitlines()]: the lines of [s] without their terminators; CR LF is
    one terminator; a terminator at the very end opens no further line. *)
Fixpoint splitlines (s : string) : list string :=
  match s with
  | EmptyString => []
  | String c s' =>
      if is_linebreak c then
        match c, s' with
        | "013"%char, String "010"%char s'' => EmptyString :: splitlines s''
        | _, _ => EmptyString :: splitlines s'
        end
      else
        match splitlines s' with
        | [] => [String c EmptyString]
        | l :: ls => String c l :: ls
        end
  end.

(** [sep.join(ls)] *)
Definition join (sep : string) (ls : list string) : string :=
  String.concat sep ls.

(** The text before the first occurrence of the character [c] (all of [s]
    when there is none). *)
Fixpoint before_char (c : ascii) (s : string) : string :=
  match s with
  | EmptyString => EmptyString
  | String a s' => if Ascii.eqb a c then EmptyString else String a (before_char c s')
  end.

(** The text after the last occurrence of [c]: [s.rsplit(c, 1)[1]] for a
    string that contains [c]. *)
Fixpoint after_last_char (c : ascii) (s : string) : string :=
  match s with
  | EmptyString => EmptyString
  | String a s' =>
      if contains (String c EmptyString) s' then after_last_char c s'
      else if Ascii.eqb a c then s' else after_last_char c s'
  end.

(** [c.lower()] on the code points 0..255: A-Z and the capital letters
    U+00C0..U+00DE other than the multiplication sign move by 32. *)
Definition lower_char (c : ascii) : ascii :=
  let n := N_of_ascii c in
  if ((65 <=? n) && (n <=? 90))%N then ascii_of_N (n + 32)
  else if ((192 <=? n) && (n <=? 222) && negb (n =? 215))%N then ascii_of_N (n + 32)
  else c.

(** [s.lower()] *)
Fixpoint lower (s : string) : string :=
  match s with
  | EmptyString => EmptyString
  | String c s' => String (lower_char c) (lower s')
  end.

(** A decimal digit, the characters [\d] matches. *)
Definition is_digit (c : ascii) : bool :=
  let n := N_of_ascii c in ((48 <=? n) && (n <=? 57))%N.

(** The longest prefix of digits and what follows it. *)
Fixpoint span_digits (s : string) : string * string :=
  match s with
  | EmptyString => (EmptyString, EmptyString)
  | String c s' =>
      if is_digit c then
        let '(d, r) := span_digits s' in (String c d, r)
      else (EmptyString, s)
  end.

(** [int(s)] for a string of decimal digits, read left to right. *)
Fixpoint int_of_digits_from (acc : Z) (s : string) : Z :=
  match s with
  | EmptyString => acc
  | String c s' => int_of_digits_from (10 * acc + (Z.of_N (N_of_ascii c) - 48)) s'
  end.

Definition int_of_digits (s : string) : Z := int_of_digits_from 0 s.

(** [str(z)], the decimal form an f-string gives an [int]. *)
Definition str_of_int (z : Z) : string :=
  NilZero.string_of_int (Z.to_int z).

End PyStr.

(** ** The diff model ([DiffLine], [DiffHunk], [DiffFile]) *)

(** The three values [line_type] takes: ['context'], ['addition'],
    ['deletion']. *)
Inductive LineType := context | addition | deletion.

Global Instance LineType_eq_dec : EqDecision LineType.
Proof. solve_decision. Defined.

Record DiffLine := mkDiffLine {
  content : string;
  line_type : LineType;
  old_line_num : option Z;
  new_line_num : option Z
}.

Record DiffHunk := mkDiffHunk {
  old_start : Z;
  old_count : Z;
  new_start : Z;
  new_count : Z;
  lines : list DiffLine
}.

Record DiffFile := mkDiffFile {
  old_path : string;
  new_path : string;
  hunks : list DiffHunk
}.

(** [DiffFile.get_path] *)
Definition get_path (f : DiffFile) : string :=
  if String.eqb (new_path f) "/dev/null" then old_path f else new_path f.

(** [hunk.lines.append(l)] *)
Definition hunk_append (l : DiffLine) (h : DiffHunk) : DiffHunk :=
  mkDiffHunk (old_start h) (old_count h) (new_start h) (new_count h) (lines h ++ [l]).

(** [file.hunks.append(h)] *)
Definition file_append (h : DiffHunk) (f : DiffFile) : DiffFile :=
  mkDiffFile (old_path f) (new_path f) (hunks f ++ [h]).

(** The file with its [i]-th hunk changed by [g]. *)
Definition file_alter_hunk (g : DiffHunk -> DiffHunk) (i : nat) (f : DiffFile) : DiffFile :=
  mkDiffFile (old_path f) (new_path f) (alter g i (hunks f)).

(** ** The parser, [parse_unified_diff] *)

Module Parser.
Import PyStr.

(** [file_header_pattern]: the line starts with [diff --git a/] and what
    follows contains [ b/] (each group takes any text).  The two groups are
    never read, so only the fact of a match is kept. *)
Definition file_header_match (line : string) : bool :=
  match strip_prefix "diff --git a/" line with
  | Some rest => contains " b/" rest
  | None => false
  end.

(** The group of [old_file_pattern] and of its [+++] twin: after the
    marker and the optional prefix [a/] (or [b/]), which is taken whenever
    it is there, the lazy group stops at the first tab, the rest of the
    line being metadata. *)
Definition path_match (marker pre line : string) : option string :=
  rest ← strip_prefix marker line;
  Some (before_char "009" (default rest (strip_prefix pre rest))).

(** [old_file_pattern] *)
Definition old_file_match (line : string) : option string :=
  path_match "--- " "a/" line.

(** [new_file_pattern] *)
Definition new_file_match (line : string) : option string :=
  path_match "+++ " "b/" line.

(** One or more digits, as many as there are. *)
Definition match_number (s : string) : option (string * string) :=
  let '(d, r) := span_digits s in
  match d with EmptyString => None | _ => Some (d, r) end.

(** The optional comma and number. *)
Definition match_opt_count (s : string) : option string * string :=
  match strip_prefix "," s with
  | Some r =>
      match match_number r with
      | Some (d, r') => (Some d, r')
      | None => (None, s)
      end
  | None => (None, s)
  end.

(** [hunk_header_pattern]: [@@ -], a number, an optional comma and
    number, [ +], a number, an optional comma and number, [ @@]; anything
    may follow.  The result is the four groups. *)
Definition hunk_header_match (line : string)
  : option (string * option string * string * option string) :=
  r0 ← strip_prefix "@@ -" line;
  '(g1, r1) ← match_number r0;
  let '(g2, r2) := match_opt_count r1 in
  r3 ← strip_prefix " +" r2;
  '(g3, r4) ← match_number r3;
  let '(g4, r5) := match_opt_count r4 in
  _ ← strip_prefix " @@" r5;
  Some (g1, g2, g3, g4).

(** [int(group or 1)] *)
Definition int_or_1 (g : option string) : Z :=
  match g with Some d => int_of_digits d | None => 1 end.

(** The local variables of the loop.  [heap] holds every [DiffFile] object
    created so far, in creation order; [files] and [current_file] hold
    references into it.  [current_hunk] is the hunk object last created,
    named by the file it was appended to and its index there: that file
    need not be [current_file] any more.  The two cursors are unbound in
    Python until the first hunk header; they are read only under a current
    hunk, and stand at 0 before. *)
Record state := mkState {
  heap : list DiffFile;
  files : list nat;
  current_file : option nat;
  current_hunk : option (nat * nat);
  old_path : option string;
  new_path : option string;
  old_line_num : Z;
  new_line_num : Z
}.

Definition init : state := mkState [] [] None None None None 0 0.

(** [files.append(current_file)] when there is a current file *)
Definition flush (fs : list nat) (cur : option nat) : list nat :=
  match cur with Some r => fs ++ [r] | None => fs end.

(** [current_hunk.lines.append(l)] on the store *)
Definition heap_append_line (l : DiffLine) (fr hi : nat) (hp : list DiffFile) : list DiffFile :=
  alter (file_alter_hunk (hunk_append l) hi) fr hp.

(** The last part of an iteration, "process content lines": a line that
    starts with [+], [-] or a space is appended to the current hunk with the
    numbers of its kind; any other line, and any line outside a hunk, is
    ignored. *)
Definition content_step (st : state) (line : string) : state :=
  match current_hunk st with
  | Some (fr, hi) =>
    if startswith line "+" then
      mkState (heap_append_line (mkDiffLine (tail line) addition None (Some (new_line_num st))) fr hi (heap st))
              (files st) (current_file st) (current_hunk st) (old_path st) (new_path st)
              (old_line_num st) (new_line_num st + 1)
    else if startswith line "-" then
      mkState (heap_append_line (mkDiffLine (tail line) deletion (Some (old_line_num st)) None) fr hi (heap st))
              (files st) (current_file st) (current_hunk st) (old_path st) (new_path st)
              (old_line_num st + 1) (new_line_num st)
    else if startswith line " " then
      mkState (heap_append_line (mkDiffLine (tail line) context (Some (old_line_num st)) (Some (new_line_num st))) fr hi (heap st))
              (files st) (current_file st) (current_hunk st) (old_path st) (new_path st)
              (old_line_num st + 1) (new_line_num st + 1)
    else st
  | None => st
  end.

(** One iteration of [for line in lines]. *)
Definition step (st : state) (line : string) : state :=
  if file_header_match line then
    mkState (heap st) (flush (files st) (current_file st)) None None None None
            (old_line_num st) (new_line_num st)
  else match old_file_match line with
  | Some p =>
    mkState (heap st) (files st) (current_file st) (current_hunk st) (Some p) (new_path st)
            (old_line_num st) (new_line_num st)
  | None =>
  match new_file_match line with
  | Some q =>
    match old_path st with
    | Some p =>
      mkState (heap st ++ [mkDiffFile p q []]) (files st) (Some (length (heap st)))
              (current_hunk st) (old_path st) (Some q) (old_line_num st) (new_line_num st)
    | None =>
      mkState (heap st) (files st) (current_file st) (current_hunk st) (old_path st) (Some q)
              (old_line_num st) (new_line_num st)
    end
  | None =>
  match hunk_header_match line, current_file st with
  | Some (g1, g2, g3, g4), Some fr =>
    let old_start := int_of_digits g1 in
    let old_count := int_or_1 g2 in
    let new_start := int_of_digits g3 in
    let new_count := int_or_1 g4 in
    let hi := match heap st !! fr with Some f => length (hunks f) | None => 0%nat end in
    mkState (alter (file_append (mkDiffHunk old_start old_count new_start new_count [])) fr (heap st))
            (files st) (current_file st) (Some (fr, hi)) (old_path st) (new_path st)
            old_start new_start
  | _, _ => content_step st line
  end end end.

(** The loop over the lines. *)
Definition run (st : state) (ls : list string) : state := foldl step st ls.

(** The references returned: [files] after the last file is added. *)
Definition result_refs (st : state) : list nat := flush (files st) (current_file st).

(** The objects behind a list of references. *)
Definition deref (hp : list DiffFile) (rs : list nat) : list DiffFile :=
  omap (fun r => hp !! r) rs.

Definition result (st : state) : list DiffFile := deref (heap st) (result_refs st).

End Parser.

(** [parse_unified_diff].  The early return for an empty text is kept. *)
Definition parse_unified_diff (diff_text : string) : list DiffFile :=
  match diff_text with
  | EmptyString => []
  | _ => Parser.result (Parser.run Parser.init (PyStr.splitlines diff_text))
  end.

Definition nl : string := String "010" EmptyString.

(** ** The serializer, [generate_file_diff] *)

(** The marker a line is rendered with. *)
Definition line_prefix (t : LineType) : string :=
  match t with
  | addition => "+"
  | deletion => "-"
  | context => " "
  end.

Definition render_line (l : DiffLine) : string :=
  line_prefix (line_type l) +:+ content l.

(** The [@@] line of a hunk. *)
Definition render_hunk_header (h : DiffHunk) : string :=
  "@@ -" +:+ PyStr.str_of_int (old_start h) +:+ "," +:+ PyStr.str_of_int (old_count h) +:+
  " +" +:+ PyStr.str_of_int (new_start h) +:+ "," +:+ PyStr.str_of_int (new_count h) +:+ " @@".

Definition render_hunk (h : DiffHunk) : list string :=
  render_hunk_header h :: map render_line (lines h).

(** The list [lines] that [generate_file_diff] builds. *)
Definition render_file_lines (f : DiffFile) : list string :=
  ["--- " +:+ old_path f; "+++ " +:+ new_path f] ++ concat (map render_hunk (hunks f)).

Definition generate_file_diff (f : DiffFile) : string :=
  PyStr.join nl (render_file_lines f).

(** The text of several files, each render followed by a newline, as
    [optimize_diff_context] and [chunk_diff_by_files] put it together. *)
Definition render_all (fs : list DiffFile) : string :=
  String.concat "" (map (fun f => generate_file_diff f +:+ nl) fs).

(** ** Language detection *)

Definition ext_map : list (string * string) :=
  [ (".py", "python"); (".js", "javascript"); (".ts", "typescript");
    (".jsx", "javascript (react)"); (".tsx", "typescript (react)");
    (".java", "java"); (".c", "c"); (".cpp", "c++"); (".h", "c/c++ header");
    (".cs", "c#"); (".go", "go"); (".rb", "ruby"); (".php", "php");
    (".swift", "swift"); (".kt", "kotlin"); (".rs", "rust"); (".sh", "shell");
    (".html", "html"); (".css", "css"); (".scss", "scss"); (".json", "json");
    (".md", "markdown"); (".xml", "xml"); (".yaml", "yaml"); (".yml", "yaml");
    (".sql", "sql"); (".tf", "terraform"); (".dockerfile", "dockerfile") ].

(** [d.get(k)] on a dict literal kept as its list of items. *)
Fixpoint dict_get {V} (k : string) (d : list (string * V)) : option V :=
  match d with
  | [] => None
  | (k', v) :: d' => if String.eqb k' k then Some v else dict_get k d'
  end.

Definition get_language_from_path (file_path : string) : option string :=
  let ext :=
    if PyStr.contains "." file_path
    then PyStr.after_last_char "." (PyStr.lower file_path)
    else "" in
  let ext := "." +:+ ext in
  if String.eqb (PyStr.lower file_path) "dockerfile" then Some "dockerfile"
  else dict_get ext ext_map.

(** [languages[lang] = languages.get(lang, 0) + 1] on a dict kept in
    insertion order: a key already there keeps its place, a new key goes
    last. *)
Fixpoint dict_incr (lang : string) (d : list (string * Z)) : list (string * Z) :=
  match d with
  | [] => [(lang, 1)]
  | (k, v) :: d' =>
      if String.eqb k lang then (k, v + 1) :: d' else (k, v) :: dict_incr lang d'
  end.

(** The truth value of an optional string: [None] and [""] are false. *)
Definition truthy (o : option string) : bool :=
  match o with
  | Some (String _ _) => true
  | _ => false
  end.

(** The counting loop of [detect_common_language]. *)
Definition count_language (languages : list (string * Z)) (path : string) : list (string * Z) :=
  let lang := get_language_from_path path in
  if truthy lang then dict_incr (default "" lang) languages else languages.

(** [max(items, key=lambda x: x[1])]: the first item whose value no other
    exceeds. *)
Definition max_item (x : string * Z) (xs : list (string * Z)) : string * Z :=
  foldl (fun best it => if snd best <? snd it then it else best) x xs.

Definition detect_common_language (file_paths : list string) : option string :=
  match file_paths with
  | [] => None
  | _ =>
      match foldl count_language [] file_paths with
      | [] => None
      | x :: xs => Some (fst (max_item x xs))
      end
  end.

(** ** The chunker, [chunk_diff_by_files] *)

(** [len(s)] *)
Definition len (s : string) : Z := Z.of_nat (String.length s).

(** A chunk: the dict with the keys ["diff"], ["files"], ["language"]. *)
Record Chunk := mkChunk {
  diff : string;
  files : list string;
  language : option string
}.

(** The state of the loop: [chunks], [current_chunk], [current_files]. *)
Definition chunk_state : Type := list Chunk * string * list string.

Definition close_chunk (current_chunk : string) (current_files : list string) : Chunk :=
  mkChunk current_chunk current_files (detect_common_language current_files).

Definition chunk_step (max_chunk_size : Z) (st : chunk_state) (file : DiffFile) : chunk_state :=
  let '(chunks, current_chunk, current_files) := st in
  let file_diff := generate_file_diff file in
  let '(chunks, current_chunk, current_files) :=
    if (max_chunk_size <? len current_chunk + len file_diff)
       && negb (String.eqb current_chunk "")
    then (chunks ++ [close_chunk current_chunk current_files], "", [])
    else (chunks, current_chunk, current_files) in
  (chunks, current_chunk +:+ file_diff +:+ nl, current_files ++ [get_path file]).

Definition chunk_files (max_chunk_size : Z) (fs : list DiffFile) : list Chunk :=
  let '(chunks, current_chunk, current_files) :=
    foldl (chunk_step max_chunk_size) ([], "", []) fs in
  if String.eqb current_chunk "" then chunks
  else chunks ++ [close_chunk current_chunk current_files].

Definition chunk_diff_by_files (diff_text : string) (max_chunk_size : Z) : list Chunk :=
  chunk_files max_chunk_size (parse_unified_diff diff_text).

(** ** The token optimizer, [optimize_diff_context] *)

(** A block of the Strategy-1 loop: the dict with the keys ["type"] and
    ["lines"]; the type is [None] only in the initial, empty block. *)
Record Block := mkBlock {
  block_type : option LineType;
  block_lines : list DiffLine
}.

(** [context_blocks.append(current_block)] when the block has lines *)
Definition push_block (context_blocks : list Block) (current_block : Block) : list Block :=
  match block_lines current_block with
  | [] => context_blocks
  | _ => context_blocks ++ [current_block]
  end.

(** One iteration of the loop that tracks the blocks of a hunk. *)
Definition block_step (st : list Block * Block) (line : DiffLine) : list Block * Block :=
  let '(context_blocks, current_block) := st in
  if decide (Some (line_type line) <> block_type current_block) then
    (push_block context_blocks current_block, mkBlock (Some (line_type line)) [line])
  else
    (context_blocks, mkBlock (block_type current_block) (block_lines current_block ++ [line])).

(** [context_blocks] after the loop and the last block. *)
Definition split_blocks (ls : list DiffLine) : list Block :=
  let '(context_blocks, current_block) := foldl block_step ([], mkBlock None []) ls in
  push_block context_blocks current_block.

(** What the block at index [i] of [n] blocks adds to [essential_lines].
    The first and last element are read only of a block with more than two
    lines. *)
Definition keep_block (n : nat) (i : nat) (block : Block) : list DiffLine :=
  match block_type block with
  | Some addition | Some deletion => block_lines block
  | Some context =>
      if (Z.of_nat i =? 0) || (Z.of_nat i =? Z.of_nat n - 1) then
        take (Nat.min 2 (length (block_lines block))) (block_lines block)
      else if (length (block_lines block) <=? 2)%nat then block_lines block
      else
        match block_lines block, last (block_lines block) with
        | first :: _, Some final => [first; final]
        | _, _ => []
        end
  | None => []
  end.

Definition essential_lines (ls : list DiffLine) : list DiffLine :=
  let context_blocks := split_blocks ls in
  concat (imap (keep_block (length context_blocks)) context_blocks).

Definition reduce_hunk (hunk : DiffHunk) : DiffHunk :=
  mkDiffHunk (old_start hunk) (old_count hunk) (new_start hunk) (new_count hunk)
             (essential_lines (lines hunk)).

Definition reduce_file (file : DiffFile) : DiffFile :=
  mkDiffFile (old_path file) (new_path file) (map reduce_hunk (hunks file)).

(** Strategy 1 on a parsed diff: [reduced_context_files]. *)
Definition reduce_context (fs : list DiffFile) : list DiffFile := map reduce_file fs.

Definition is_change (l : DiffLine) : bool :=
  match line_type l with
  | addition | deletion => true
  | context => false
  end.

(** The number of addition and deletion lines of a file. *)
Definition change_count (file : DiffFile) : Z :=
  Z.of_nat (length (filter (fun l => is_change l = true) (concat (map lines (hunks file))))).

(** [file_relevance.sort(key=lambda x: x[1], reverse=True)]: a stable sort,
    most changes first; equal counts keep the order they came in. *)
Fixpoint insert_by_relevance (x : DiffFile * Z) (sorted : list (DiffFile * Z)) : list (DiffFile * Z) :=
  match sorted with
  | [] => [x]
  | y :: rest =>
      if snd x <? snd y then y :: insert_by_relevance x rest else x :: sorted
  end.

Definition sort_by_relevance (l : list (DiffFile * Z)) : list (DiffFile * Z) :=
  foldr insert_by_relevance [] l.

(** [file_relevance] after the sort. *)
Definition rank_files (fs : list DiffFile) : list (DiffFile * Z) :=
  sort_by_relevance (map (fun f => (f, change_count f)) fs).

(** *** Names and exceptions *)

(** The exception a call can end in. *)
Inductive Exception :=
  | NameError (name : string).

(** What a call gives: the value it returns or the exception it raises. *)
Inductive Outcome (A : Type) :=
  | Returns (value : A)
  | Raises (e : Exception).

Arguments Returns {A} value.
Arguments Raises {A} e.

#[global] Instance Outcome_ret : MRet Outcome := fun A value => Returns value.

#[global] Instance Outcome_bind : MBind Outcome := fun A B f m =>
  match m with
  | Returns value => f value
  | Raises e => Raises e
  end.

(** The names the module [token_counter.py] binds: those of its two import
    statements (lines 1 and 2), its two tables (lines 5 and 11) and its two
    functions (lines 17 and 42).  It imports nothing from
    [diff_parser.py]. *)
Definition token_counter_names : list string :=
  [ "tiktoken"; "Dict"; "List"; "Optional"; "Tuple";
    "DEFAULT_MODELS"; "MODEL_TO_ENCODING"; "count_tokens"; "optimize_diff_context" ].

(** The names of [diff_parser.py] that [optimize_diff_context] refers to. *)
Definition diff_parser_names : list string :=
  [ "parse_unified_diff"; "DiffFile"; "DiffHunk"; "generate_file_diff" ].

(** Reading a global name: it is there, or the read raises [NameError]. *)
Definition load_global (names : list string) (name : string) : Outcome unit :=
  if existsb (String.eqb name) names then Returns tt else Raises (NameError name).

Section Optimizer.

(** The global names of the module the function runs in; the names of
    [diff_parser.py], where bound, are bound to its definitions. *)
Variable names : list string.

(** The token counter: [count_tokens(text, model)] for the model of the
    call.  It runs an external tokenizer, so it is a parameter here. *)
Variable count_tokens : string -> Z.
Variable max_tokens : Z.

(** The body of the loop over the hunks of a file (lines 69 to 108). *)
Definition reduce_hunk_step (hunk : DiffHunk) : Outcome DiffHunk :=
  load_global names "DiffHunk" ;;
  mret (reduce_hunk hunk).

(** The body of the loop over the files (lines 66 to 110). *)
Definition reduce_file_step (file : DiffFile) : Outcome DiffFile :=
  load_global names "DiffFile" ;;
  reduced_hunks ← mapM reduce_hunk_step (hunks file) ;
  mret (mkDiffFile (old_path file) (new_path file) reduced_hunks).

(** The generator of line 113 reads [generate_file_diff] once per file. *)
Definition render_step (file : DiffFile) : Outcome string :=
  load_global names "generate_file_diff" ;;
  mret (generate_file_diff file +:+ nl).

(** The body of the last loop (lines 138 to 140): it renders the file and
    counts its tokens; [final_files] and [current_tokens] stay as they
    are. *)
Definition final_step (entry : DiffFile * Z) : Outcome unit :=
  load_global names "generate_file_diff" ;;
  let file_diff := generate_file_diff (fst entry) in
  load_global names "count_tokens" ;;
  let file_tokens := count_tokens file_diff in
  mret tt.

(** [optimize_diff_context]: the text returned, [None] where the function
    ends without a [return], or the exception raised. *)
Definition optimize_diff_context (diff_text : string) : Outcome (option string) :=
  load_global names "parse_unified_diff" ;;
  let files := parse_unified_diff diff_text in
  load_global names "count_tokens" ;;
  let current_tokens := count_tokens diff_text in
  if current_tokens <=? max_tokens then mret (Some diff_text)
  else
    reduced_context_files ← mapM reduce_file_step files ;
    renders ← mapM render_step reduced_context_files ;
    let reduced_diff := String.concat "" renders in
    load_global names "count_tokens" ;;
    let reduced_tokens := count_tokens reduced_diff in
    if reduced_tokens <=? max_tokens then mret (Some reduced_diff)
    else
      let file_relevance := rank_files reduced_context_files in
      let final_files : list DiffFile := [] in
      let current_tokens := 0 in
      mapM final_step file_relevance ;;
      mret None.

End Optimizer.

(** ** Predicates of the statements *)

(** A block as the loop leaves it: not empty, typed, and every line of
    that type. *)
Definition block_ok (b : Block) : Prop :=
  block_lines b <> [] /\
  exists k, block_type b = Some k /\ Forall (fun l => line_type l = k) (block_lines b).

(** Neighbouring blocks differ in type. *)
Definition alternating (bs : list Block) : Prop :=
  forall i b b', bs !! i = Some b -> bs !! S i = Some b' -> block_type b <> block_type b'.

(** [bs] cuts [ls] into its maximal runs of one kind. *)
Definition maximal_runs (bs : list Block) (ls : list DiffLine) : Prop :=
  concat (map block_lines bs) = ls /\ Forall block_ok bs /\ alternating bs.

(** The state of the block loop after the lines [ls]. *)
Definition blocks_inv (ls : list DiffLine) (st : list Block * Block) : Prop :=
  let '(bs, cur) := st in
  maximal_runs bs (take (length ls - length (block_lines cur)) ls) /\
  drop (length ls - length (block_lines cur)) ls = block_lines cur /\
  (block_lines cur = [] -> bs = [] /\ block_type cur = None) /\
  (block_lines cur <> [] -> block_ok cur /\
     forall b, last bs = Some b -> block_type b <> block_type cur).

(** The addition and deletion lines of a hunk, in order. *)
Definition change_lines (h : DiffHunk) : list DiffLine :=
  filter (fun l => is_change l = true) (lines h).

(** The four numbers of a hunk's [@@] line. *)
Definition hunk_header (h : DiffHunk) : Z * Z * Z * Z :=
  (old_start h, old_count h, new_start h, new_count h).

(** The two paths of a file and the headers of its hunks. *)
Definition file_headers (f : DiffFile) : string * string * list (Z * Z * Z * Z) :=
  (old_path f, new_path f, map hunk_header (hunks f)).

(** How many of the paths are detected as [lang]. *)
Definition occurrences (lang : string) (paths : list string) : nat :=
  length (filter (fun p => get_language_from_path p = Some lang) paths).

(** Scanning [paths] in order, [lang] is met before [other] is: some path
    is detected as [lang] and none before it as [other]. *)
Definition seen_before (lang other : string) (paths : list string) : Prop :=
  exists pre p post,
    paths = pre ++ p :: post /\
    get_language_from_path p = Some lang /\
    forall q, q ∈ pre -> get_language_from_path q <> Some other.

(** The dict [languages] after the paths [ps]: one item per language met,
    with its number of occurrences, in the order the languages were first
    met. *)
Definition languages_inv (ps : list string) (d : list (string * Z)) : Prop :=
  NoDup (map fst d) /\
  (forall k v, (k, v) ∈ d -> v = Z.of_nat (occurrences k ps) /\ 0 < v) /\
  (forall k, (0 < occurrences k ps)%nat -> k ∈ map fst d) /\
  (forall i j k1 v1 k2 v2, (i < j)%nat ->
     d !! i = Some (k1, v1) -> d !! j = Some (k2, v2) -> seen_before k1 k2 ps).

(** The chunk made of a group of whole files: their renders, their paths
    and the language most of the paths have. *)
Definition chunk_of (g : list DiffFile) : Chunk :=
  mkChunk (render_all g) (map get_path g) (detect_common_language (map get_path g)).

(** The state of the chunking loop after the files [ps]: the chunks closed
    so far are whole groups of files, the buffer holds the group in
    progress. *)
Definition chunk_inv (max_chunk_size : Z) (ps : list DiffFile) (st : chunk_state) : Prop :=
  let '(chunks, current_chunk, current_files) := st in
  exists (groups : list (list DiffFile)) (g : list DiffFile),
    ps = concat groups ++ g /\
    Forall (fun g => g <> []) groups /\
    chunks = map chunk_of groups /\
    current_chunk = render_all g /\
    current_files = map get_path g /\
    (forall g' f, g' ∈ g :: groups -> f ∈ g' ->
       max_chunk_size < len (generate_file_diff f) -> g' = [f]).

(** No character of the string ends a line. *)
Fixpoint no_linebreak (s : string) : bool :=
  match s with
  | EmptyString => true
  | String c s' => negb (PyStr.is_linebreak c) && no_linebreak s'
  end.

(** Every character of the string is a decimal digit. *)
Fixpoint all_digits (s : string) : bool :=
  match s with
  | EmptyString => true
  | String c s' => PyStr.is_digit c && all_digits s'
  end.

(** The string does not start with a digit. *)
Definition no_digit_ahead (s : string) : bool :=
  match s with
  | EmptyString => true
  | String c _ => negb (PyStr.is_digit c)
  end.

(** The two line numbers a line records. *)
Definition line_numbers (l : DiffLine) : option Z * option Z :=
  (old_line_num l, new_line_num l).

(** The numbers a line of kind [k] gets under the cursors [c] (old, new):
    an addition has no old number, a deletion no new number. *)
Definition stamp (c : Z * Z) (k : LineType) : option Z * option Z :=
  match k with
  | context => (Some c.1, Some c.2)
  | addition => (None, Some c.2)
  | deletion => (Some c.1, None)
  end.

(** The cursors after a line of kind [k]: the old cursor moves on context
    and deletion, the new cursor on context and addition. *)
Definition advance (c : Z * Z) (k : LineType) : Z * Z :=
  match k with
  | context => (c.1 + 1, c.2 + 1)
  | addition => (c.1, c.2 + 1)
  | deletion => (c.1 + 1, c.2)
  end.

(** Replaying lines of the given kinds from the cursors [c]: the numbers
    each line gets. *)
Fixpoint replay (c : Z * Z) (kinds : list LineType) : list (option Z * option Z) :=
  match kinds with
  | [] => []
  | k :: ks => stamp c k :: replay (advance c k) ks
  end.

(** The recorded numbers of a hunk are those of the replay from its
    [old_start] and [new_start]. *)
Definition hunk_numbered (h : DiffHunk) : Prop :=
  map line_numbers (lines h) = replay (old_start h, new_start h) (map line_type (lines h)).

(** A path as the parser records it: within one line and without a tab. *)
Definition path_ok (p : string) : Prop :=
  no_linebreak p = true /\ PyStr.before_char "009" p = p.

(** A line as the parser records it: within one line of text, and its
    render is not taken for a path header. *)
Definition line_ok (l : DiffLine) : Prop :=
  no_linebreak (content l) = true /\
  Parser.old_file_match (render_line l) = None /\
  Parser.new_file_match (render_line l) = None.

Definition hunk_ok (h : DiffHunk) : Prop :=
  0 <= old_start h /\ 0 <= old_count h /\ 0 <= new_start h /\ 0 <= new_count h /\
  Forall line_ok (lines h) /\ hunk_numbered h.

Definition file_ok (f : DiffFile) : Prop :=
  path_ok (old_path f) /\ path_ok (new_path f) /\ Forall hunk_ok (hunks f).

(** The invariant of the parser loop: every object of the store is well
    formed, the references are in the store, the current file is not yet in
    [files], and the cursors are those of the replay of the current hunk. *)
Definition state_ok (st : Parser.state) : Prop :=
  Forall file_ok (Parser.heap st) /\
  (forall p, Parser.old_path st = Some p -> path_ok p) /\
  (forall r, r ∈ Parser.files st -> (r < length (Parser.heap st))%nat) /\
  (forall r, Parser.current_file st = Some r ->
     (r < length (Parser.heap st))%nat /\ (r ∉ Parser.files st) /\
     is_Some (Parser.old_path st)) /\
  (forall fr hi, Parser.current_hunk st = Some (fr, hi) ->
     exists f h,
       Parser.heap st !! fr = Some f /\ hunks f !! hi = Some h /\
       (Parser.old_line_num st, Parser.new_line_num st)
       = foldl advance (old_start h, new_start h) (map line_type (lines h))).

(** What its kind says of a line's two numbers: an addition has no old
    number, a deletion no new number, and the numbers not excluded are
    there. *)
Definition numbers_by_kind (l : DiffLine) : Prop :=
  match line_type l with
  | addition => old_line_num l = None /\ is_Some (new_line_num l)
  | deletion => is_Some (old_line_num l) /\ new_line_num l = None
  | context => is_Some (old_line_num l) /\ is_Some (new_line_num l)
  end.

(** Exactly one of the two numbers of the line is absent. *)
Definition exactly_one_absent (l : DiffLine) : bool :=
  xorb (bool_decide (old_line_num l = None)) (bool_decide (new_line_num l = None)).

(** The diff of the specification's parsing scenario. *)
Definition scenario_diff : string :=
  "diff --git a/x.py b/x.py" +:+ nl +:+ "--- a/x.py" +:+ nl +:+ "+++ b/x.py" +:+ nl +:+
  "@@ -1,2 +1,3 @@" +:+ nl +:+ " a" +:+ nl +:+ "+b" +:+ nl +:+ " c" +:+ nl.

(** The number of [diff --git] header lines among the lines. *)
Definition git_headers (ls : list string) : nat :=
  length (filter (fun l => Parser.file_header_match l = true) ls).

(** The object behind [r] exists but will not be returned: it is neither in
    [files] nor the current file. *)
Definition dropped (r : nat) (st : Parser.state) : Prop :=
  (r < length (Parser.heap st))%nat /\
  (r ∉ Parser.files st) /\
  Parser.current_file st <> Some r.

(** [a] ranks no lower than [b]: it has at least as many changes. *)
Definition by_relevance (a b : DiffFile) : Prop :=
  change_count b <= change_count a.

(** The paths of the file do not start with the prefixes the parser
    strips: [a/] for the old path, [b/] for the new one. *)
Definition plain_paths (f : DiffFile) : Prop :=
  PyStr.strip_prefix "a/" (old_path f) = None /\
  PyStr.strip_prefix "b/" (new_path f) = None.

(** What the round trip is to keep of a file: its paths and, hunk by hunk,
    the header numbers and the kind and content of every line. *)
Definition model_view (f : DiffFile)
  : string * string * list (Z * Z * Z * Z * list (LineType * string)) :=
  (old_path f, new_path f,
   map (fun h => (hunk_header h, map (fun l => (line_type l, content l)) (lines h)))
       (hunks f)).

(** A git diff of two files, each with one hunk. *)
Definition two_file_diff : string :=
  "diff --git a/x.py b/x.py" +:+ nl +:+ "--- a/x.py" +:+ nl +:+ "+++ b/x.py" +:+ nl +:+
  "@@ -1,2 +1,3 @@" +:+ nl +:+ " a" +:+ nl +:+ "+b" +:+ nl +:+ " c" +:+ nl +:+
  "diff --git a/y.py b/y.py" +:+ nl +:+ "--- a/y.py" +:+ nl +:+ "+++ b/y.py" +:+ nl +:+
  "@@ -1,1 +1,1 @@" +:+ nl +:+ "-old" +:+ nl +:+ "+new" +:+ nl.

(** The state of the parser while it reads the render of one file: the
    store holds that file alone, and it is current. *)
Definition one_file_state (p q : string) (hs : list DiffHunk)
    (cur : option (nat * nat)) (c : Z * Z) : Parser.state :=
  Parser.mkState [mkDiffFile p q hs] [] (Some 0%nat) cur (Some p) (Some q) c.1 c.2.

(** Between two groups that follow each other, the first file of the second
    did not fit the buffer the first had become. *)
Definition greedy (max_chunk_size : Z) (gs : list (list DiffFile)) : Prop :=
  forall i g1 f g2,
    gs !! i = Some g1 -> gs !! S i = Some (f :: g2) ->
    max_chunk_size < len (render_all g1) + len (generate_file_diff f).

(** The sizes of the groups of the chunking loop after the files [ps]: a
    group of several files went into the buffer one file at a time, each
    time within the limit. *)
Definition chunk_sizes_inv (max_chunk_size : Z) (ps : list DiffFile) (st : chunk_state) : Prop :=
  let '(chunks, current_chunk, current_files) := st in
  exists (groups : list (list DiffFile)) (g : list DiffFile),
    ps = concat groups ++ g /\
    Forall (fun g => g <> []) groups /\
    chunks = map chunk_of groups /\
    current_chunk = render_all g /\
    current_files = map get_path g /\
    (g = [] -> groups = []) /\
    (forall g', g' ∈ g :: groups -> (2 <= length g')%nat ->
       len (render_all g') <= max_chunk_size + 1) /\
    greedy max_chunk_size (groups ++ [g]).

(** The block with the lines thinning keeps of it. *)
Definition kept_block (n i : nat) (b : Block) : Block :=
  mkBlock (block_type b) (keep_block n i b).

(** The string holds a tab. *)
Definition has_tab (s : string) : bool := PyStr.contains (String "009" "") s.

(** The state of the parser while it reads the render of a file that came
    after others: the store holds the earlier files [pre] and then the file
    being read, which is current; nothing has been added to [files]. *)
Definition reading_state (pre : list DiffFile) (p q : string) (hs : list DiffHunk)
    (cur : option (nat * nat)) (c : Z * Z) : Parser.state :=
  Parser.mkState (pre ++ [mkDiffFile p q hs]) [] (Some (length pre)) cur
                 (Some p) (Some q) c.1 c.2.

(** The list of the last element, if there is one. *)
Definition last_only {A} (l : list A) : list A :=
  match last l with
  | Some x => [x]
  | None => []
  end.

(** Some line is an old-path line and no [diff --git] line comes after it:
    the parser has a pending old path. *)
Definition old_pending (ls : list string) : Prop :=
  exists i l1,
    ls !! i = Some l1 /\ is_Some (Parser.old_file_match l1) /\
    forall k l, (i < k)%nat -> ls !! k = Some l -> Parser.file_header_match l = false.

(** An old-path line is followed by a new-path line with no [diff --git]
    line between the two. *)
Definition has_path_pair (ls : list string) : Prop :=
  exists i j l1 l2,
    (i < j)%nat /\ ls !! i = Some l1 /\ ls !! j = Some l2 /\
    is_Some (Parser.old_file_match l1) /\ is_Some (Parser.new_file_match l2) /\
    forall k l, (i < k < j)%nat -> ls !! k = Some l -> Parser.file_header_match l = false.

(** The parser has something to return: a file in [files] or a current
    file. *)
Definition created (st : Parser.state) : Prop :=
  Parser.files st <> [] \/ is_Some (Parser.current_file st).

(** ** The encoding of [count_tokens] *)

(** [MODEL_TO_ENCODING] *)
Definition MODEL_TO_ENCODING : list (string * string) :=
  [ ("gpt-3.5-turbo", "cl100k_base"); ("gpt-4", "cl100k_base");
    ("gpt-4-turbo", "cl100k_base") ].

(** [MODEL_TO_ENCODING.get(model, "cl100k_base")], the name [count_tokens]
    hands to the tokenizer library. *)
Definition encoding_name (model : string) : string :=
  default "cl100k_base" (dict_get model MODEL_TO_ENCODING).

(** ** The system prompt ([prompt_manager.py]) *)

(** The double quote. *)
Definition dq : string := String "034" EmptyString.

(** The first element of [prompt]. *)
Definition prompt_intro : string :=
  "You are an expert code reviewer with deep knowledge of software development best practices, security, and performance optimization.".

(** The second element of [prompt]. *)
Definition prompt_task : string :=
  nl +:+
  "Your task is to review the provided code diff and provide specific, actionable feedback.".

(** The response format, appended to [prompt]. *)
Definition prompt_format : string :=
  nl +:+
  "Your response MUST be in the following JSON format:" +:+ nl +:+
  "{" +:+ nl +:+
  "  " +:+ dq +:+ "comments" +:+ dq +:+ ": [" +:+ nl +:+
  "    {" +:+ nl +:+
  "      " +:+ dq +:+ "file" +:+ dq +:+ ": " +:+ dq +:+ "path/to/file.ext" +:+ dq +:+ "," +:+ nl +:+
  "      " +:+ dq +:+ "line" +:+ dq +:+ ": 123," +:+ nl +:+
  "      " +:+ dq +:+ "content" +:+ dq +:+ ": " +:+ dq +:+ "Your detailed feedback here. Be specific and actionable." +:+ dq +:+ "," +:+ nl +:+
  "      " +:+ dq +:+ "severity" +:+ dq +:+ ": " +:+ dq +:+ "critical|major|minor|suggestion" +:+ dq +:+ "," +:+ nl +:+
  "      " +:+ dq +:+ "rule" +:+ dq +:+ ": " +:+ dq +:+ "security|performance|maintainability|etc" +:+ dq +:+ nl +:+
  "    }" +:+ nl +:+
  "  ]," +:+ nl +:+
  "  " +:+ dq +:+ "summary" +:+ dq +:+ ": " +:+ dq +:+ "A concise summary of your findings and overall assessment." +:+ dq +:+ nl +:+
  "}".

(** The severity levels, appended to [prompt]. *)
Definition prompt_severity : string :=
  nl +:+
  "Severity levels:" +:+ nl +:+
  "- critical: Issues that must be fixed immediately (security vulnerabilities, data corruption risks)" +:+ nl +:+
  "- major: Significant issues that should be addressed (bugs, performance problems)" +:+ nl +:+
  "- minor: Less important issues (style problems, minor inefficiencies)" +:+ nl +:+
  "- suggestion: Optional improvements".

(** The truth value of an optional list: [None] and [[]] are false. *)
Definition truthy_list {A} (o : option (list A)) : bool :=
  match o with
  | Some (_ :: _) => true
  | _ => false
  end.

(** The sentence on the language of the code. *)
Definition language_sentence (language : string) : string :=
  nl +:+ "The code is written in " +:+ language +:+ ".".

(** The sentence that names the severity levels to report. *)
Definition severity_sentence (severity_levels : list string) : string :=
  nl +:+ "Only include issues with these severity levels: " +:+
  PyStr.join ", " severity_levels.

(** The sentence that names the rules to check. *)
Definition rules_sentence (rules : list string) : string :=
  nl +:+ "Focus on these specific areas: " +:+ PyStr.join ", " rules.

(** The list [prompt] at the end of [build_system_prompt]. *)
Definition system_prompt_parts (language : option string)
    (severity_levels rules : option (list string)) : list string :=
  let prompt := [prompt_intro; prompt_task] in
  let prompt :=
    if truthy language then prompt ++ [language_sentence (default "" language)]
    else prompt in
  let prompt := prompt ++ [prompt_format] in
  let prompt := prompt ++ [prompt_severity] in
  let prompt :=
    if truthy_list severity_levels
    then prompt ++ [severity_sentence (default [] severity_levels)]
    else prompt in
  let prompt :=
    if truthy_list rules then prompt ++ [rules_sentence (default [] rules)]
    else prompt in
  prompt.

Definition build_system_prompt (language : option string)
    (severity_levels rules : option (list string)) : string :=
  PyStr.join nl (system_prompt_parts language severity_levels rules).

(** ** The review options ([llm_client.py]), the request ([api/models.py])
    and the router ([api/router.py]) *)

Module Review.

Section Float.

(** A Python [float]: temperatures are stored and passed on, never
    computed with. *)
Variable float : Type.

(** [ReviewOptions] of [llm_client.py], after [__init__]. *)
Record ReviewOptions := mkReviewOptions {
  max_tokens : Z;
  temperature : float;
  language : option string;
  severity_levels : list string;
  rules : list string;
  context : list (string * string)
}.

(** [ReviewOptions.__init__]: an absent or empty list of severity levels
    becomes the four levels, absent rules and context become empty. *)
Definition init_options (max_tokens : Z) (temperature : float)
    (language : option string) (severity_levels rules : option (list string))
    (context : option (list (string * string))) : ReviewOptions :=
  mkReviewOptions max_tokens temperature language
    (if truthy_list severity_levels then default [] severity_levels
     else ["critical"; "major"; "minor"; "suggestion"])
    (if truthy_list rules then default [] rules else [])
    (if truthy_list context then default [] context else []).

(** [ReviewOptions] of [api/models.py], the options of a request. *)
Record ApiOptions := mkApiOptions {
  api_max_tokens : Z;
  api_temperature : float;
  api_language : option string;
  api_severity_levels : option (list string);
  api_rules : option (list string);
  api_context : option (list (string * string))
}.

(** [ReviewRequest] *)
Record ReviewRequest := mkReviewRequest {
  diff : string;
  options : option ApiOptions
}.

(** The fields of [Settings] the router reads. *)
Record Settings := mkSettings {
  DEFAULT_LLM_PROVIDER : string;
  OPENAI_API_KEY : string;
  OPENAI_MODEL : string;
  ANTHROPIC_API_KEY : string;
  ANTHROPIC_MODEL : string;
  DEFAULT_MAX_TOKENS : Z;
  DEFAULT_TEMPERATURE : float
}.

(** "Convert API options to core options" in [review_code] of the router. *)
Definition core_options (settings : Settings) (request : ReviewRequest) : ReviewOptions :=
  init_options
    (match options request with Some o => api_max_tokens o | None => DEFAULT_MAX_TOKENS settings end)
    (match options request with Some o => api_temperature o | None => DEFAULT_TEMPERATURE settings end)
    (match options request with Some o => api_language o | None => None end)
    (match options request with Some o => api_severity_levels o | None => None end)
    (match options request with Some o => api_rules o | None => None end)
    (match options request with Some o => api_context o | None => Some [] end).

(** The system prompt [review_code] of both providers builds. *)
Definition system_prompt (o : ReviewOptions) : string :=
  build_system_prompt (language o) (Some (severity_levels o)) (Some (rules o)).

(** A client: the provider's class with its API key and model. *)
Inductive LLMClient :=
  | OpenAIClient (api_key model : string)
  | AnthropicClient (api_key model : string).

Definition get_provider_name (c : LLMClient) : string :=
  match c with
  | OpenAIClient _ _ => "openai"
  | AnthropicClient _ _ => "anthropic"
  end.

Definition get_model_name (c : LLMClient) : string :=
  match c with
  | OpenAIClient _ model => model
  | AnthropicClient _ model => model
  end.

Definition client_api_key (c : LLMClient) : string :=
  match c with
  | OpenAIClient api_key _ => api_key
  | AnthropicClient api_key _ => api_key
  end.

(** [HTTPException(status_code, detail)] *)
Record HTTPException := mkHTTPException {
  status_code : Z;
  detail : string
}.

(** [provider or settings.DEFAULT_LLM_PROVIDER] *)
Definition resolve_provider (settings : Settings) (provider : option string) : string :=
  if truthy provider then default "" provider else DEFAULT_LLM_PROVIDER settings.

(** [get_llm_client]: the client, or the exception raised. *)
Definition get_llm_client (settings : Settings) (provider : option string)
  : HTTPException + LLMClient :=
  let provider := resolve_provider settings provider in
  if String.eqb provider "openai" then
    if String.eqb (OPENAI_API_KEY settings) ""
    then inl (mkHTTPException 500 "OpenAI API key not configured")
    else inr (OpenAIClient (OPENAI_API_KEY settings) (OPENAI_MODEL settings))
  else if String.eqb provider "anthropic" then
    if String.eqb (ANTHROPIC_API_KEY settings) ""
    then inl (mkHTTPException 500 "Anthropic API key not configured")
    else inr (AnthropicClient (ANTHROPIC_API_KEY settings) (ANTHROPIC_MODEL settings))
  else inl (mkHTTPException 400 ("Unsupported provider: " +:+ provider)).

End Float.

End Review.

(** ** The JSON text in a response ([providers/anthropic.py]) *)

(** [s.find(c)] for a character [c]: the index of the first [c], or -1. *)
Fixpoint find_char (c : ascii) (s : string) : Z :=
  match s with
  | EmptyString => -1
  | String a s' =>
      if Ascii.eqb a c then 0
      else let i := find_char c s' in if i <? 0 then -1 else i + 1
  end.

(** [s.rfind(c)]: the index of the last [c], or -1. *)
Fixpoint rfind_char (c : ascii) (s : string) : Z :=
  match s with
  | EmptyString => -1
  | String a s' =>
      let i := rfind_char c s' in
      if 0 <=? i then i + 1 else if Ascii.eqb a c then 0 else -1
  end.

(** [s[a:b]] for indices that are not negative. *)
Definition slice (s : string) (a b : Z) : string :=
  String.substring (Z.to_nat a) (Z.to_nat (b - a)) s.

(** "Find JSON in the response" in [review_code] of the Anthropic client:
    the text handed to [json.loads], or nothing where the code falls back to
    the whole response as the summary. *)
Definition json_content (content : string) : option string :=
  let json_start := find_char "{" content in
  let json_end := rfind_char "}" content + 1 in
  if (0 <=? json_start) && (json_start <? json_end)
  then Some (slice content json_start json_end)
  else None.

(** The character [c] occurs in the string. *)
Fixpoint has_char (c : ascii) (s : string) : bool :=
  match s with
  | EmptyString => false
  | String a s' => Ascii.eqb a c || has_char c s'
  end.

(** The line is an old-path line ([--- ]). *)
Definition old_line (l : string) : bool :=
  match Parser.old_file_match l with Some _ => true | None => false end.

(** The line is a new-path line ([+++ ]). *)
Definition new_line (l : string) : bool :=
  match Parser.new_file_match l with Some _ => true | None => false end.

(** Some old-path line of the lines has a new-path line after it. *)
Fixpoint path_pair (ls : list string) : bool :=
  match ls with
  | [] => false
  | l :: rest => (old_line l && existsb new_line rest) || path_pair rest
  end.

(** The lines cut at the [diff --git] lines: the lines before the first of
    them, and the runs of lines after each. *)
Fixpoint cut_at_git_headers (ls : list string) : list string * list (list string) :=
  match ls with
  | [] => ([], [])
  | l :: rest =>
      let '(seg, segs) := cut_at_git_headers rest in
      if Parser.file_header_match l then ([], seg :: segs) else (l :: seg, segs)
  end.

Definition segments (ls : list string) : list (list string) :=
  let '(seg, segs) := cut_at_git_headers ls in seg :: segs.

(** The number of runs of lines between [diff --git] lines (or the ends of
    the text) that hold a pair of path lines. *)
Definition segments_with_pair (ls : list string) : nat :=
  length (filter (fun seg => path_pair seg = true) (segments ls)).

(** The parser has a pending old path, a current file. *)
Definition pending (st : Parser.state) : bool :=
  match Parser.old_path st with Some _ => true | None => false end.

Definition has_current (st : Parser.state) : bool :=
  match Parser.current_file st with Some _ => true | None => false end.

(** A text with two pairs of path lines and no [diff --git] line. *)
Definition two_pair_diff : string :=
  "--- a/x.py" +:+ nl +:+ "+++ b/x.py" +:+ nl +:+
  "@@ -1,1 +1,1 @@" +:+ nl +:+ "-a" +:+ nl +:+ "+b" +:+ nl +:+
  "--- a/y.py" +:+ nl +:+ "+++ b/y.py" +:+ nl.

(** * Properties *)

(** ** Strings *)

Section Strings.

Implicit Types (s t u : string) (a c : ascii).

Lemma str_app_cons a s t : String a s +:+ t = String a (s +:+ t).
Proof. reflexivity. Qed.

Lemma str_app_nil_l s : "" +:+ s = s.
Proof. reflexivity. Qed.

Lemma str_app_nil_r s : s +:+ "" = s.
Proof. induction s as [|a s IH]; [done|]. by rewrite str_app_cons, IH. Qed.

Lemma str_app_assoc s t u : (s +:+ t) +:+ u = s +:+ t +:+ u.
Proof. induction s as [|a s IH]; [done|]. by rewrite !str_app_cons, IH. Qed.

Lemma str_length_app s t :
  String.length (s +:+ t) = (String.length s + String.length t)%nat.
Proof. induction s as [|a s IH]; [done|]. rewrite str_app_cons. simpl. by rewrite IH. Qed.

Lemma len_app s t : len (s +:+ t) = len s + len t.
Proof. unfold len. rewrite str_length_app. lia. Qed.

Lemma len_nonneg s : 0 <= len s.
Proof. unfold len. lia. Qed.

Lemma concat_empty_cons s (l : list string) :
  String.concat "" (s :: l) = s +:+ String.concat "" l.
Proof. destruct l; simpl; [by rewrite str_app_nil_r|done]. Qed.

Lemma concat_empty_app (l k : list string) :
  String.concat "" (l ++ k) = String.concat "" l +:+ String.concat "" k.
Proof.
  induction l as [|s l IH]; [done|].
  rewrite <- app_comm_cons, !concat_empty_cons, IH. by rewrite str_app_assoc.
Qed.

(** *** Numbers in decimal *)

Lemma string_of_uint_digits (d : Decimal.uint) :
  all_digits (NilEmpty.string_of_uint d) = true.
Proof. induction d; simpl; auto. Qed.

Lemma int_of_digits_from_uint (d a : Decimal.uint) :
  PyStr.int_of_digits_from (Z.of_N (Unsigned.of_lu a)) (NilEmpty.string_of_uint d)
  = Z.of_N (Unsigned.of_lu (Decimal.revapp d a)).
Proof.
  revert a. induction d; intros a; simpl; [done|..];
    rewrite <- IHd; f_equal; simpl Unsigned.of_lu; lia.
Qed.

Lemma str_of_int_pos (p : positive) :
  PyStr.str_of_int (Z.pos p) = NilEmpty.string_of_uint (Pos.to_uint p).
Proof.
  unfold PyStr.str_of_int. simpl.
  pose proof (Unsigned.to_uint_nonnil p) as Hnn.
  by destruct (Pos.to_uint p).
Qed.

(** Reading back what was printed. *)
Lemma int_of_str_of_int (z : Z) :
  0 <= z -> PyStr.int_of_digits (PyStr.str_of_int z) = z.
Proof.
  intros Hz. destruct z as [|p|p]; [done| |lia].
  rewrite str_of_int_pos. unfold PyStr.int_of_digits.
  change 0 with (Z.of_N (Unsigned.of_lu Decimal.Nil)).
  rewrite int_of_digits_from_uint.
  change (Decimal.revapp (Pos.to_uint p) Decimal.Nil) with (Decimal.rev (Pos.to_uint p)).
  rewrite <- Unsigned.of_uint_alt, Unsigned.of_to. done.
Qed.

Lemma str_of_int_digits (z : Z) :
  0 <= z -> all_digits (PyStr.str_of_int z) = true /\ PyStr.str_of_int z <> "".
Proof.
  intros Hz. destruct z as [|p|p]; [done| |lia].
  rewrite str_of_int_pos. split; [apply string_of_uint_digits|].
  pose proof (Unsigned.to_uint_nonnil p) as Hnn.
  by destruct (Pos.to_uint p).
Qed.

Lemma int_of_digits_from_nonneg (s : string) : forall acc,
  all_digits s = true -> 0 <= acc -> 0 <= PyStr.int_of_digits_from acc s.
Proof.
  induction s as [|c s IH]; intros acc Hd Hacc; simpl; [done|].
  simpl in Hd. apply andb_true_iff in Hd as [Hc Hs].
  apply IH; [done|]. unfold PyStr.is_digit in Hc.
  apply andb_true_iff in Hc as [Hc _]. apply N.leb_le in Hc. lia.
Qed.

Lemma span_digits_app (ds rest : string) :
  all_digits ds = true -> no_digit_ahead rest = true ->
  PyStr.span_digits (ds +:+ rest) = (ds, rest).
Proof.
  intros Hds Hrest. induction ds as [|c ds IH].
  - rewrite str_app_nil_l. destruct rest as [|c rest]; [done|].
    simpl in *. by destruct (PyStr.is_digit c).
  - simpl in Hds. apply andb_true_iff in Hds as [Hc Hds].
    rewrite str_app_cons. simpl. rewrite Hc, IH by done. done.
Qed.

Lemma span_digits_spec (s : string) :
  all_digits (PyStr.span_digits s).1 = true /\
  s = (PyStr.span_digits s).1 +:+ (PyStr.span_digits s).2.
Proof.
  induction s as [|c s [IH1 IH2]]; simpl; [done|].
  destruct (PyStr.is_digit c) eqn:Hc; [|done].
  destruct (PyStr.span_digits s) as [d r]. simpl in *.
  rewrite Hc, IH1. split; [done|]. by rewrite str_app_cons, <- IH2.
Qed.

End Strings.

(** ** Strategy 1: context thinning *)

Section Thinning.

Implicit Types (ls : list DiffLine) (b : Block) (bs : list Block).

Lemma alternating_snoc bs b :
  alternating bs ->
  (forall b', last bs = Some b' -> block_type b' <> block_type b) ->
  alternating (bs ++ [b]).
Proof.
  intros Halt Hlast i b1 b2 H1 H2.
  destruct (decide (S i < length bs)%nat) as [Hlt|Hge].
  - rewrite lookup_app_l in H1 by lia. rewrite lookup_app_l in H2 by lia. eauto.
  - assert (S i = length bs) as Hi.
    { apply lookup_lt_Some in H2. rewrite length_app in H2. simpl in H2. lia. }
    rewrite lookup_app_l in H1 by lia.
    rewrite lookup_app_r in H2 by lia.
    replace (S i - length bs)%nat with 0%nat in H2 by lia. simpl in H2.
    injection H2 as <-. apply Hlast.
    rewrite last_lookup. rewrite <- Hi. simpl. exact H1.
Qed.

Lemma block_step_inv ls st l :
  blocks_inv ls st -> blocks_inv (ls ++ [l]) (block_step st l).
Proof.
  destruct st as [bs cur]. unfold blocks_inv, block_step.
  intros (Hruns & Hdrop & Hempty & Hne).
  assert (length (block_lines cur) <= length ls)%nat as Hlen.
  { rewrite <- Hdrop. rewrite length_drop. lia. }
  destruct (decide (Some (line_type l) <> block_type cur)) as [Hdiff|Hsame]; simpl.
  - (* a new block starts *)
    replace (length (ls ++ [l]) - 1)%nat with (length ls) by (rewrite length_app; simpl; lia).
    rewrite take_app_length, drop_app_length.
    split; [|split; [done|split; [done|]]].
    + unfold push_block.
      destruct (block_lines cur) as [|x xs] eqn:Hcur.
      * destruct (Hempty eq_refl) as [-> _].
        destruct Hruns as (Hcat & _ & _). simpl in Hcat.
        rewrite Nat.sub_0_r, firstn_all in Hcat. subst ls.
        split; [done|]. split; [constructor|]. intros i b b' H; done.
      * destruct Hne as [Hok Hlast]; [done|].
        destruct Hruns as (Hcat & Hall & Halt).
        split; [|split].
        -- rewrite map_app, concat_app. simpl. rewrite app_nil_r.
           rewrite Hcat, Hcur.
           pose proof (take_drop (length ls - length (x :: xs)) ls) as Htd.
           by rewrite Hdrop in Htd.
        -- apply Forall_app. split; [done|]. constructor; [|constructor].
           exact Hok.
        -- apply alternating_snoc; done.
    + intros _. split.
      * split; [done|]. exists (line_type l). split; [done|]. constructor; [done|constructor].
      * intros b Hb. simpl. unfold push_block in Hb.
        destruct (block_lines cur) as [|x xs] eqn:Hcur.
        -- destruct (Hempty eq_refl) as [-> _]. done.
        -- rewrite last_snoc in Hb. injection Hb as <-. congruence.
  - (* the line joins the current block *)
    apply dec_stable in Hsame.
    assert (block_lines cur <> []) as Hcne.
    { intros Hnil. destruct (Hempty Hnil) as [_ Hty]. congruence. }
    destruct (Hne Hcne) as [Hok Hlast].
    rewrite !length_app. simpl.
    replace (length ls + 1 - (length (block_lines cur) + 1))%nat
      with (length ls - length (block_lines cur))%nat by lia.
    rewrite take_app_le by lia. rewrite drop_app_le by lia.
    split; [done|]. split; [by rewrite Hdrop|].
    split; [by intros H; destruct (block_lines cur)|].
    intros _. split; [|done].
    split; [by destruct (block_lines cur)|].
    destruct Hok as [_ (k & Hk & Hall)]. exists k. split; [done|].
    apply Forall_app. split; [done|]. constructor; [congruence|constructor].
Qed.

Lemma blocks_inv_foldl ls2 : forall ls1 st,
  blocks_inv ls1 st -> blocks_inv (ls1 ++ ls2) (foldl block_step st ls2).
Proof.
  induction ls2 as [|l ls2 IH]; intros ls1 st Hinv; simpl.
  - by rewrite app_nil_r.
  - replace (ls1 ++ l :: ls2) with ((ls1 ++ [l]) ++ ls2) by (rewrite <- app_assoc; done).
    apply IH. by apply block_step_inv.
Qed.

(** The blocks of the loop are the maximal runs of the hunk's lines. *)
Lemma split_blocks_runs ls : maximal_runs (split_blocks ls) ls.
Proof.
  unfold split_blocks.
  pose proof (blocks_inv_foldl ls [] ([], mkBlock None [])) as Hinv.
  simpl in Hinv.
  destruct (foldl block_step ([], mkBlock None []) ls) as [bs cur].
  destruct Hinv as (Hruns & Hdrop & Hempty & Hne).
  { split; [|done]. split; [done|]. split; [constructor|]. intros i b b' H; done. }
  assert (length (block_lines cur) <= length ls)%nat as Hlen.
  { rewrite <- Hdrop. rewrite length_drop. lia. }
  unfold push_block. destruct (block_lines cur) as [|x xs] eqn:Hcur.
  - simpl in Hruns. rewrite Nat.sub_0_r, firstn_all in Hruns. done.
  - destruct Hne as [Hok Hlast]; [done|].
    destruct Hruns as (Hcat & Hall & Halt).
    split; [|split].
    + rewrite map_app, concat_app. simpl. rewrite app_nil_r.
      rewrite Hcat, Hcur.
      pose proof (take_drop (length ls - length (x :: xs)) ls) as Htd.
      by rewrite Hdrop in Htd.
    + apply Forall_app. split; [done|]. constructor; [|constructor]. done.
    + by apply alternating_snoc.
Qed.

Lemma keep_block_changes n i b :
  block_ok b ->
  filter (fun l => is_change l = true) (keep_block n i b)
  = filter (fun l => is_change l = true) (block_lines b).
Proof.
  intros [Hne (k & Hk & Hall)]. unfold keep_block. rewrite Hk.
  destruct k; [|done|done].
  assert (forall ks, ks ⊆ block_lines b -> filter (fun l => is_change l = true) ks = []) as Hsub.
  { intros ks Hks. induction ks as [|x ks IH]; [done|].
    rewrite filter_cons. rewrite decide_False.
    - apply IH. intros y Hy. apply Hks. by right.
    - rewrite Forall_forall in Hall. unfold is_change. rewrite (Hall x); [done|].
      apply Hks. by left. }
  rewrite (Hsub (block_lines b)) by done.
  destruct ((Z.of_nat i =? 0) || (Z.of_nat i =? Z.of_nat n - 1)).
  { apply Hsub, subseteq_take. }
  destruct (length (block_lines b) <=? 2)%nat.
  { by apply Hsub. }
  destruct (block_lines b) as [|first rest] eqn:Hb; [done|].
  destruct (last (first :: rest)) as [final|] eqn:Hlast; [|done].
  apply Hsub. intros y Hy.
  inversion Hy as [|? ? ? Hy']; subst; [by left|].
  inversion Hy' as [|? ? ? Hy'']; subst; [|inversion Hy''].
  by apply last_Some_elem_of.
Qed.

Lemma concat_imap_changes (f : nat -> Block -> list DiffLine) bs :
  (forall i b, bs !! i = Some b ->
     filter (fun l => is_change l = true) (f i b)
     = filter (fun l => is_change l = true) (block_lines b)) ->
  filter (fun l => is_change l = true) (concat (imap f bs))
  = filter (fun l => is_change l = true) (concat (map block_lines bs)).
Proof.
  revert f. induction bs as [|b bs IH]; intros f Hf; [done|].
  rewrite imap_cons. simpl. rewrite !filter_app.
  rewrite (Hf 0%nat b) by done. f_equal.
  apply IH. intros i b' Hb'. apply (Hf (S i)). done.
Qed.

Lemma essential_lines_changes ls :
  filter (fun l => is_change l = true) (essential_lines ls)
  = filter (fun l => is_change l = true) ls.
Proof.
  destruct (split_blocks_runs ls) as (Hcat & Hall & _).
  unfold essential_lines. rewrite concat_imap_changes.
  - by rewrite Hcat.
  - intros i b Hb. apply keep_block_changes.
    rewrite Forall_forall in Hall. apply Hall. by eapply list_elem_of_lookup_2.
Qed.

End Thinning.

(** C5.  Context thinning keeps every addition and deletion line: in every
    file and every hunk, the sequence of addition and deletion lines of the
    thinned hunk (kind, content and line numbers, in order) is that of the
    original hunk, so no change line is dropped and none is added.  This
    holds of every list of files, those a parse returns among them. *)
Theorem thinning_preserves_changes (fs : list DiffFile) :
  map (fun f => map change_lines (hunks f)) (reduce_context fs)
  = map (fun f => map change_lines (hunks f)) fs.
Proof.
  unfold reduce_context. rewrite map_map. apply map_ext. intros f.
  simpl. rewrite map_map. apply map_ext. intros h.
  unfold change_lines. simpl. apply essential_lines_changes.
Qed.

(** C6.  Thinning cuts a hunk's lines into the maximal runs of one kind
    and treats each run by its place among them: a run of changes is kept
    whole; a context run that comes first or last keeps its first two
    lines at most; a context run inside keeps its first and its last line
    when it has more than two, and is kept as it is otherwise. *)
Theorem thinning_by_position (hunk : DiffHunk) :
  let blocks := split_blocks (lines hunk) in
  let n := length blocks in
  maximal_runs blocks (lines hunk) /\
  exists kept : list (list DiffLine),
    lines (reduce_hunk hunk) = concat kept /\
    length kept = n /\
    forall i b k, blocks !! i = Some b -> kept !! i = Some k ->
      (block_type b <> Some context -> k = block_lines b) /\
      (block_type b = Some context -> (i = 0 \/ i = n - 1)%nat ->
         k = take 2 (block_lines b)) /\
      (block_type b = Some context -> (0 < i < n - 1)%nat ->
         (2 < length (block_lines b))%nat ->
         exists first final,
           head (block_lines b) = Some first /\ last (block_lines b) = Some final /\
           k = [first; final]) /\
      (block_type b = Some context -> (0 < i < n - 1)%nat ->
         (length (block_lines b) <= 2)%nat -> k = block_lines b).
Proof.
  intros blocks n. split; [apply split_blocks_runs|].
  exists (imap (keep_block n) blocks).
  split; [done|]. split; [apply length_imap|].
  intros i b k Hb Hk.
  rewrite list_lookup_imap, Hb in Hk. simpl in Hk. injection Hk as <-.
  pose proof (lookup_lt_Some _ _ _ Hb) as Hi. fold n in Hi.
  destruct (split_blocks_runs (lines hunk)) as (_ & Hall & _).
  rewrite Forall_forall in Hall.
  destruct (Hall b) as [Hne (ty & Hty & _)]; [by eapply list_elem_of_lookup_2|].
  unfold keep_block. rewrite Hty.
  split; [|split; [|split]].
  - intros Hc. destruct ty; congruence.
  - intros Hc Hpos. injection Hc as ->.
    replace ((Z.of_nat i =? 0) || (Z.of_nat i =? Z.of_nat n - 1)) with true.
    + by destruct (block_lines b) as [|x [|y l]].
    + symmetry. apply orb_true_iff. destruct Hpos; [left|right]; lia.
  - intros Hc Hpos Hlen. injection Hc as ->.
    replace ((Z.of_nat i =? 0) || (Z.of_nat i =? Z.of_nat n - 1)) with false
      by (symmetry; apply orb_false_iff; lia).
    replace (length (block_lines b) <=? 2)%nat with false
      by (symmetry; apply Nat.leb_gt; lia).
    destruct (block_lines b) as [|x l] eqn:Hl; [done|].
    destruct (last (x :: l)) as [y|] eqn:Hlast.
    + by exists x, y.
    + by apply last_None in Hlast.
  - intros Hc Hpos Hlen. injection Hc as ->.
    replace ((Z.of_nat i =? 0) || (Z.of_nat i =? Z.of_nat n - 1)) with false
      by (symmetry; apply orb_false_iff; lia).
    replace (length (block_lines b) <=? 2)%nat with true
      by (symmetry; apply Nat.leb_le; lia).
    done.
Qed.

(** C7.  The files Strategy 1 returns have the paths of the originals, and
    their hunks the original [old_start], [old_count], [new_start] and
    [new_count], file by file and hunk by hunk: only the lines of a hunk
    change. *)
Theorem thinning_keeps_headers (fs : list DiffFile) :
  map file_headers (reduce_context fs) = map file_headers fs.
Proof.
  unfold reduce_context. rewrite map_map. apply map_ext. intros f.
  unfold file_headers. simpl. by rewrite map_map.
Qed.

(** ** Language detection *)

Section Languages.

Implicit Types (d : list (string * Z)) (ps paths : list string).

Lemma dict_get_values {V} k (d : list (string * V)) v :
  dict_get k d = Some v -> v ∈ map snd d.
Proof.
  induction d as [|[k' v'] d IH]; simpl; [done|].
  destruct (String.eqb k' k).
  - intros [= ->]. by left.
  - intros H. right. by apply IH.
Qed.

(** A detected language is never the empty string, so the test [if lang]
    only rejects [None]. *)
Lemma truthy_detected p :
  truthy (get_language_from_path p) = true <-> is_Some (get_language_from_path p).
Proof.
  split.
  - destruct (get_language_from_path p); [by eexists|done].
  - intros [l Hl]. rewrite Hl.
    assert (l <> "") as Hne; [|by destruct l].
    unfold get_language_from_path in Hl.
    destruct (String.eqb (PyStr.lower p) "dockerfile").
    + by injection Hl as <-.
    + apply dict_get_values in Hl.
      assert (Forall (fun v => v <> "") (map snd ext_map)) as Hall
        by (repeat constructor; done).
      rewrite Forall_forall in Hall. by apply Hall.
Qed.

Lemma dict_incr_new k d :
  k ∉ map fst d -> dict_incr k d = d ++ [(k, 1)].
Proof.
  induction d as [|[k' v'] d IH]; simpl; [done|].
  intros Hk. apply not_elem_of_cons in Hk as [Hne Hk].
  destruct (String.eqb_spec k' k); [congruence|].
  by rewrite IH.
Qed.

Lemma dict_incr_old k v d1 d2 :
  k ∉ map fst d1 -> dict_incr k (d1 ++ (k, v) :: d2) = d1 ++ (k, v + 1) :: d2.
Proof.
  induction d1 as [|[k' v'] d1 IH]; simpl.
  - intros _. by rewrite String.eqb_refl.
  - intros Hk. apply not_elem_of_cons in Hk as [Hne Hk].
    destruct (String.eqb_spec k' k); [congruence|].
    by rewrite IH.
Qed.

Lemma occurrences_snoc k ps p :
  occurrences k (ps ++ [p])
  = (occurrences k ps + if decide (get_language_from_path p = Some k) then 1 else 0)%nat.
Proof.
  unfold occurrences. rewrite filter_app, length_app. f_equal.
  rewrite filter_cons. case_decide; done.
Qed.

Lemma seen_before_snoc k1 k2 ps p :
  seen_before k1 k2 ps -> seen_before k1 k2 (ps ++ [p]).
Proof.
  intros (pre & p0 & post & -> & Hp0 & Hpre).
  exists pre, p0, (post ++ [p]). split; [|done].
  by rewrite <- app_assoc.
Qed.

Lemma occurrences_pos k ps :
  (0 < occurrences k ps)%nat -> exists p, p ∈ ps /\ get_language_from_path p = Some k.
Proof.
  unfold occurrences. intros Hpos.
  destruct (filter _ ps) as [|p l] eqn:Hf; [simpl in Hpos; lia|].
  assert (p ∈ filter (fun p => get_language_from_path p = Some k) ps) as Hin
    by (rewrite Hf; by left).
  apply list_elem_of_filter in Hin as [? ?]. by exists p.
Qed.

Lemma occurrences_zero k ps p :
  occurrences k ps = 0%nat -> p ∈ ps -> get_language_from_path p <> Some k.
Proof.
  unfold occurrences. intros Hz Hp Hk.
  assert (p ∈ filter (fun p => get_language_from_path p = Some k) ps) as Hin
    by (by apply list_elem_of_filter).
  destruct (filter _ ps); [inversion Hin|done].
Qed.

Lemma languages_inv_skip ps d p :
  get_language_from_path p = None ->
  languages_inv ps d -> languages_inv (ps ++ [p]) d.
Proof.
  intros Hp (Hnd & Hval & Hkeys & Hord).
  assert (forall k, occurrences k (ps ++ [p]) = occurrences k ps) as Hocc.
  { intros k. rewrite occurrences_snoc. rewrite decide_False by congruence. lia. }
  split; [done|]. split; [|split].
  - intros k v Hkv. rewrite Hocc. by apply Hval.
  - intros k. rewrite Hocc. apply Hkeys.
  - intros i j k1 v1 k2 v2 Hij H1 H2. apply seen_before_snoc. eauto.
Qed.

Lemma lookup_key d i k v :
  d !! i = Some (k, v) -> map fst d !! i = Some k.
Proof.
  intros H. change (map fst d) with (fst <$> d). by rewrite list_lookup_fmap, H.
Qed.

Lemma key_lookup d i k :
  map fst d !! i = Some k -> exists v, d !! i = Some (k, v).
Proof.
  change (map fst d) with (fst <$> d). rewrite list_lookup_fmap.
  destruct (d !! i) as [[k' v]|]; simpl; [|done].
  intros [= ->]. by exists v.
Qed.

Lemma languages_inv_incr ps d p lang :
  get_language_from_path p = Some lang ->
  languages_inv ps d -> languages_inv (ps ++ [p]) (dict_incr lang d).
Proof.
  intros Hp (Hnd & Hval & Hkeys & Hord).
  assert (occurrences lang (ps ++ [p]) = S (occurrences lang ps)) as Hocc_lang.
  { rewrite occurrences_snoc. rewrite decide_True by done. lia. }
  assert (forall k, k <> lang -> occurrences k (ps ++ [p]) = occurrences k ps) as Hocc.
  { intros k Hk. rewrite occurrences_snoc. rewrite decide_False by congruence. lia. }
  destruct (decide (lang ∈ map fst d)) as [Hin|Hnin].
  - (* the language is already a key: its count goes up, in place *)
    assert (exists d1 v d2, d = d1 ++ (lang, v) :: d2 /\ lang ∉ map fst d1)
      as (d1 & v & d2 & -> & Hd1).
    { clear -Hin. induction d as [|[k v] d IH]; [inversion Hin|].
      destruct (decide (k = lang)) as [->|Hne].
      - exists [], v, d. split; [done|]. simpl. apply not_elem_of_nil.
      - simpl in Hin. apply elem_of_cons in Hin as [?|Hin]; [congruence|].
        destruct (IH Hin) as (d1 & v' & d2 & -> & Hd1).
        exists ((k, v) :: d1), v', d2. split; [done|].
        simpl. apply not_elem_of_cons. split; [congruence|done]. }
    rewrite dict_incr_old by done.
    assert (map fst (d1 ++ (lang, v + 1) :: d2) = map fst (d1 ++ (lang, v) :: d2)) as Hk
      by (by rewrite !map_app).
    split; [by rewrite Hk|]. split; [|split].
    + intros k v0 Hkv. apply elem_of_app in Hkv as [Hkv|Hkv].
      * assert (k <> lang) as Hne.
        { intros ->. apply Hd1. change (map fst d1) with (fst <$> d1).
          apply list_elem_of_fmap. by exists (lang, v0). }
        rewrite Hocc by done. apply Hval. apply elem_of_app. by left.
      * apply elem_of_cons in Hkv as [[= -> ->]|Hkv].
        -- destruct (Hval lang v) as [-> Hpos].
           { apply elem_of_app. right. by left. }
           rewrite Hocc_lang. lia.
        -- assert (k <> lang) as Hne.
           { intros ->. rewrite map_app in Hnd. simpl in Hnd.
             apply NoDup_app in Hnd as (_ & _ & Hnd).
             apply NoDup_cons in Hnd as [Hnd _]. apply Hnd.
             change (map fst d2) with (fst <$> d2).
             apply list_elem_of_fmap. by exists (lang, v0). }
           rewrite Hocc by done. apply Hval. apply elem_of_app. right. by right.
    + intros k Hpos. rewrite Hk.
      destruct (decide (k = lang)) as [->|Hne]; [done|].
      apply Hkeys. by rewrite <- Hocc.
    + intros i j k1 v1 k2 v2 Hij H1 H2.
      apply lookup_key in H1, H2. rewrite Hk in H1, H2.
      apply key_lookup in H1 as [v1' H1]. apply key_lookup in H2 as [v2' H2].
      apply seen_before_snoc. eauto.
  - (* a new key goes last, with count one *)
    rewrite dict_incr_new by done.
    assert (occurrences lang ps = 0%nat) as Hzero.
    { destruct (occurrences lang ps) eqn:Ho; [done|].
      exfalso. apply Hnin, Hkeys. lia. }
    split; [|split; [|split]].
    + rewrite map_app. simpl. apply NoDup_app. split; [done|]. split.
      * intros k Hk Hk'. apply list_elem_of_singleton in Hk'. by subst.
      * apply NoDup_singleton.
    + intros k v0 Hkv. apply elem_of_app in Hkv as [Hkv|Hkv].
      * assert (k <> lang) as Hne.
        { intros ->. apply Hnin. change (map fst d) with (fst <$> d).
          apply list_elem_of_fmap. by exists (lang, v0). }
        rewrite Hocc by done. by apply Hval.
      * apply list_elem_of_singleton in Hkv as [= -> ->].
        rewrite Hocc_lang, Hzero. lia.
    + intros k Hpos. rewrite map_app. apply elem_of_app.
      destruct (decide (k = lang)) as [->|Hne].
      * right. simpl. by left.
      * left. apply Hkeys. by rewrite <- Hocc.
    + intros i j k1 v1 k2 v2 Hij H1 H2.
      destruct (decide (j < length d)%nat) as [Hj|Hj].
      * rewrite lookup_app_l in H1 by lia. rewrite lookup_app_l in H2 by lia.
        apply seen_before_snoc. eauto.
      * assert (j = length d) as ->.
        { apply lookup_lt_Some in H2. rewrite length_app in H2. simpl in H2. lia. }
        rewrite lookup_app_l in H1 by lia.
        rewrite lookup_app_r in H2 by lia.
        rewrite Nat.sub_diag in H2. injection H2 as <- <-.
        destruct (Hval k1 v1) as [-> Hpos]; [by eapply list_elem_of_lookup_2|].
        destruct (occurrences_pos k1 ps) as (p0 & Hp0 & Hdet); [lia|].
        apply list_elem_of_split in Hp0 as (pre & post & ->).
        exists pre, p0, (post ++ [p]). split; [by rewrite <- app_assoc|].
        split; [done|].
        intros q Hq. apply (occurrences_zero _ (pre ++ p0 :: post)); [done|].
        apply elem_of_app. by left.
Qed.

Lemma count_language_inv ps d p :
  languages_inv ps d -> languages_inv (ps ++ [p]) (count_language d p).
Proof.
  intros Hinv. unfold count_language.
  destruct (truthy (get_language_from_path p)) eqn:Ht.
  - apply truthy_detected in Ht as [lang Hlang]. rewrite Hlang. simpl.
    by apply languages_inv_incr.
  - apply languages_inv_skip; [|done].
    destruct (get_language_from_path p) eqn:Hp; [|done].
    assert (truthy (get_language_from_path p) = true) as Ht'
      by (apply truthy_detected; rewrite Hp; by eexists).
    rewrite Hp in Ht'. congruence.
Qed.

Lemma languages_inv_foldl ps2 : forall ps1 d,
  languages_inv ps1 d -> languages_inv (ps1 ++ ps2) (foldl count_language d ps2).
Proof.
  induction ps2 as [|p ps2 IH]; intros ps1 d Hinv; simpl.
  - by rewrite app_nil_r.
  - replace (ps1 ++ p :: ps2) with ((ps1 ++ [p]) ++ ps2) by (by rewrite <- app_assoc).
    apply IH. by apply count_language_inv.
Qed.

Lemma languages_inv_all paths :
  languages_inv paths (foldl count_language [] paths).
Proof.
  apply (languages_inv_foldl paths [] []).
  split; [constructor|]. split; [|split].
  - intros k v H. inversion H.
  - intros k H. unfold occurrences in H. simpl in H. lia.
  - intros i j k1 v1 k2 v2 _ H. done.
Qed.

(** [max] returns the first of the items with the greatest value. *)
Lemma max_item_spec x xs :
  exists i,
    (x :: xs) !! i = Some (max_item x xs) /\
    (forall j it, (x :: xs) !! j = Some it -> snd it <= snd (max_item x xs)) /\
    (forall j it, (j < i)%nat -> (x :: xs) !! j = Some it -> snd it < snd (max_item x xs)).
Proof.
  induction xs as [|y xs IH] using rev_ind.
  - exists 0%nat. split; [done|]. split.
    + intros [|j] it H; simpl in H; [injection H as <-; simpl; lia|done].
    + intros j it Hj. lia.
  - destruct IH as (i & Hi & Hmax & Hbefore).
    unfold max_item in *. rewrite foldl_app. simpl.
    set (r := foldl (fun best it => if snd best <? snd it then it else best) x xs) in *.
    pose proof (lookup_lt_Some _ _ _ Hi) as Hlt.
    destruct (Z.ltb_spec (snd r) (snd y)) as [Hless|Hge].
    + exists (length (x :: xs)). split; [|split].
      * rewrite app_comm_cons. rewrite lookup_app_r by lia.
        by rewrite Nat.sub_diag.
      * intros j it Hj. rewrite app_comm_cons in Hj.
        apply lookup_app_Some in Hj as [Hj|[_ Hj]].
        -- apply Hmax in Hj. lia.
        -- destruct (j - length (x :: xs))%nat; simpl in Hj; [|done].
           injection Hj as <-. lia.
      * intros j it Hj Hit. rewrite app_comm_cons in Hit.
        rewrite lookup_app_l in Hit by lia. apply Hmax in Hit. lia.
    + exists i. split; [|split].
      * rewrite app_comm_cons. by rewrite lookup_app_l by lia.
      * intros j it Hj. rewrite app_comm_cons in Hj.
        apply lookup_app_Some in Hj as [Hj|[_ Hj]].
        -- by apply Hmax in Hj.
        -- destruct (j - length (x :: xs))%nat; simpl in Hj; [|done].
           injection Hj as <-. lia.
      * intros j it Hj Hit. rewrite app_comm_cons in Hit.
        rewrite lookup_app_l in Hit by lia. by apply (Hbefore j).
Qed.

Lemma occurrences_none paths :
  (forall p, p ∈ paths -> get_language_from_path p = None) ->
  forall k, occurrences k paths = 0%nat.
Proof.
  intros Hnone k. destruct (occurrences k paths) eqn:Ho; [done|].
  destruct (occurrences_pos k paths) as (p & Hp & Hk); [lia|].
  rewrite Hnone in Hk by done. done.
Qed.

End Languages.

(** C9.  [detect_common_language] returns nothing exactly when no path is
    detected as a language (the empty list included).  The language it
    returns occurs at least once, no other language occurs more often, and
    a language that occurs as often is met later in the scan of the paths.
    On [a.py], [b.py], [c.js] it returns [python]. *)
Theorem detect_common_most_frequent (paths : list string) :
  (detect_common_language paths = None <->
     forall p, p ∈ paths -> get_language_from_path p = None) /\
  (forall lang, detect_common_language paths = Some lang ->
     (0 < occurrences lang paths)%nat /\
     forall other, other <> lang ->
       (occurrences other paths < occurrences lang paths)%nat \/
       (occurrences other paths = occurrences lang paths /\
        seen_before lang other paths)) /\
  detect_common_language ["a.py"; "b.py"; "c.js"] = Some "python".
Proof.
  pose proof (languages_inv_all paths) as (Hnd & Hval & Hkeys & Hord).
  assert (detect_common_language paths =
          match foldl count_language [] paths with
          | [] => None
          | x :: xs => Some (fst (max_item x xs))
          end) as Hdef by (by destruct paths).
  rewrite Hdef. clear Hdef.
  destruct (foldl count_language [] paths) as [|x xs] eqn:Hd.
  - split; [|split; [done|by vm_compute]].
    split; [|done]. intros _ p Hp.
    destruct (get_language_from_path p) as [k|] eqn:Hk; [|done].
    assert (0 < occurrences k paths)%nat as Hpos.
    { unfold occurrences.
      assert (p ∈ filter (fun p => get_language_from_path p = Some k) paths) as Hin
        by (by apply list_elem_of_filter).
      destruct (filter _ paths); [inversion Hin|simpl; lia]. }
    apply Hkeys in Hpos. inversion Hpos.
  - destruct (max_item_spec x xs) as (i & Hi & Hmax & Hbefore).
    destruct (max_item x xs) as [lang v] eqn:Hm. simpl in *.
    destruct (Hval lang v) as [Hv Hvpos]; [by eapply list_elem_of_lookup_2|].
    split; [|split; [|by vm_compute]].
    + split; [done|]. intros Hnone.
      rewrite (occurrences_none paths Hnone) in Hv. simpl in Hv. lia.
    + intros lang' [= <-]. split; [lia|].
      intros other Hother.
      destruct (decide (0 < occurrences other paths)%nat) as [Hpos|Hzero]; [|left; lia].
      apply Hkeys in Hpos. apply list_elem_of_lookup in Hpos as [j Hj].
      change (map fst (x :: xs) !! j = Some other) in Hj.
      apply key_lookup in Hj as [w Hjw].
      destruct (Hval other w) as [Hw Hwpos]; [by eapply list_elem_of_lookup_2|].
      pose proof (Hmax j _ Hjw) as Hle. simpl in Hle.
      destruct (decide (occurrences other paths = occurrences lang paths)) as [Heq|Hne];
        [right|left; lia].
      split; [done|].
      destruct (decide (j < i)%nat) as [Hji|Hji].
      { pose proof (Hbefore j _ Hji Hjw) as Hlt. simpl in Hlt. lia. }
      assert (i <> j) as Hij by (intros ->; rewrite Hjw in Hi; congruence).
      apply (Hord i j lang v other w); [lia|done|done].
Qed.

(** ** The chunker *)

Section Chunker.

Variable max_chunk_size : Z.

Implicit Types (g ps : list DiffFile) (f : DiffFile).

Lemma render_all_snoc g f :
  render_all (g ++ [f]) = render_all g +:+ generate_file_diff f +:+ nl.
Proof.
  unfold render_all. rewrite map_app, concat_empty_app. simpl.
  done.
Qed.

Lemma render_all_empty g : render_all g = "" <-> g = [].
Proof.
  split; [|by intros ->].
  destruct g as [|f g]; [done|].
  unfold render_all. simpl map. rewrite concat_empty_cons.
  intros H. apply (f_equal String.length) in H.
  rewrite !str_length_app in H. simpl in H. lia.
Qed.

Lemma len_render_all_elem g f :
  f ∈ g -> len (generate_file_diff f) < len (render_all g).
Proof.
  induction g as [|f' g IH]; intros Hf; [inversion Hf|].
  unfold render_all in *. simpl map. rewrite concat_empty_cons, !len_app.
  pose proof (len_nonneg (String.concat "" (map (fun f => generate_file_diff f +:+ nl) g))).
  pose proof (len_nonneg (generate_file_diff f')).
  apply elem_of_cons in Hf as [->|Hf].
  - unfold nl at 1. unfold len at 3. simpl. lia.
  - apply IH in Hf. unfold nl at 1. unfold len at 3. simpl. lia.
Qed.

Lemma chunk_step_inv ps st f :
  chunk_inv max_chunk_size ps st ->
  chunk_inv max_chunk_size (ps ++ [f]) (chunk_step max_chunk_size st f).
Proof.
  destruct st as [[chunks cur] cfiles]. unfold chunk_inv, chunk_step.
  intros (groups & g & -> & Hne & -> & -> & -> & Hbig).
  destruct ((max_chunk_size <? len (render_all g) + len (generate_file_diff f))
            && negb (String.eqb (render_all g) "")) eqn:Hcond.
  - (* the buffer is closed, the file opens a new one *)
    apply andb_true_iff in Hcond as [_ Hcur].
    apply negb_true_iff, String.eqb_neq in Hcur.
    assert (g <> []) as Hg by (intros ->; done).
    exists (groups ++ [g]), [f]. split; [|split; [|split; [|split; [|split]]]].
    + rewrite concat_app. simpl. by rewrite app_nil_r, <- app_assoc.
    + apply Forall_app. split; [done|]. by constructor.
    + by rewrite map_app.
    + unfold render_all. simpl. done.
    + done.
    + intros g' f' Hg' Hf' Hlen.
      apply elem_of_cons in Hg' as [->|Hg'].
      * apply list_elem_of_singleton in Hf'. by subst.
      * apply (Hbig g' f'); [|done|done].
        apply elem_of_app in Hg' as [Hg'|Hg']; [by right|].
        apply list_elem_of_singleton in Hg'. subst. by left.
  - (* the file joins the buffer *)
    exists groups, (g ++ [f]). split; [|split; [done|split; [done|split; [|split]]]].
    + by rewrite app_assoc.
    + by rewrite render_all_snoc.
    + by rewrite map_app.
    + intros g' f' Hg' Hf' Hlen.
      apply elem_of_cons in Hg' as [->|Hg']; [|apply (Hbig g' f'); [by right|done|done]].
      destruct g as [|f0 g]; [apply list_elem_of_singleton in Hf'; by subst|].
      exfalso.
      apply andb_false_iff in Hcond as [Hcond|Hcond].
      * apply Z.ltb_ge in Hcond.
        pose proof (len_nonneg (render_all (f0 :: g))).
        pose proof (len_nonneg (generate_file_diff f)).
        apply elem_of_app in Hf' as [Hf'|Hf'].
        -- apply len_render_all_elem in Hf'. lia.
        -- apply list_elem_of_singleton in Hf'. subst. lia.
      * apply negb_false_iff, String.eqb_eq, render_all_empty in Hcond. done.
Qed.

Lemma chunk_inv_foldl ps2 : forall ps1 st,
  chunk_inv max_chunk_size ps1 st ->
  chunk_inv max_chunk_size (ps1 ++ ps2) (foldl (chunk_step max_chunk_size) st ps2).
Proof.
  induction ps2 as [|f ps2 IH]; intros ps1 st Hinv; simpl.
  - by rewrite app_nil_r.
  - replace (ps1 ++ f :: ps2) with ((ps1 ++ [f]) ++ ps2) by (by rewrite <- app_assoc).
    apply IH. by apply chunk_step_inv.
Qed.

(** The chunks are whole groups of the files, in order; a file too long
    for a chunk is alone in its group. *)
Lemma chunk_files_groups ps :
  exists groups : list (list DiffFile),
    concat groups = ps /\
    Forall (fun g => g <> []) groups /\
    chunk_files max_chunk_size ps = map chunk_of groups /\
    forall g f, g ∈ groups -> f ∈ g ->
      max_chunk_size < len (generate_file_diff f) -> g = [f].
Proof.
  unfold chunk_files.
  pose proof (chunk_inv_foldl ps [] ([], "", [])) as Hinv.
  destruct (foldl (chunk_step max_chunk_size) ([], "", []) ps) as [[chunks cur] cfiles].
  destruct Hinv as (groups & g & Hps & Hne & -> & -> & -> & Hbig).
  { exists [], []. repeat split; try done.
    intros g f Hg Hf. apply list_elem_of_singleton in Hg. subst. inversion Hf. }
  simpl in Hps. subst ps.
  destruct (String.eqb_spec (render_all g) "") as [Hcur|Hcur].
  - apply render_all_empty in Hcur. subst g.
    exists groups. split; [by rewrite app_nil_r|]. split; [done|]. split; [done|].
    intros g f Hg. apply Hbig. by right.
  - exists (groups ++ [g]). split; [|split; [|split]].
    + rewrite concat_app. simpl. by rewrite app_nil_r.
    + apply Forall_app. split; [done|]. constructor; [|done]. by intros ->.
    + by rewrite map_app.
    + intros g' f Hg'. apply Hbig.
      apply elem_of_app in Hg' as [Hg'|Hg']; [by right|].
      apply list_elem_of_singleton in Hg'. subst. by left.
Qed.

End Chunker.

(** C8.  The file lists of the chunks, put end to end, are the effective
    paths of the parsed files, in order, each file once.  The chunks are the
    renders of consecutive, non-empty groups of whole files: a file is in one
    group and its render is whole in that chunk.  A file whose render is
    longer than [max_chunk_size] is alone in its chunk.  The empty text gives
    no chunk.  This holds of every [max_chunk_size]. *)
Theorem chunk_coverage (diff_text : string) (max_chunk_size : Z) :
  let parsed := parse_unified_diff diff_text in
  let chunks := chunk_diff_by_files diff_text max_chunk_size in
  concat (map files chunks) = map get_path parsed /\
  (exists groups : list (list DiffFile),
     concat groups = parsed /\
     Forall (fun g => g <> []) groups /\
     chunks = map chunk_of groups /\
     forall g f, g ∈ groups -> f ∈ g ->
       max_chunk_size < len (generate_file_diff f) -> g = [f]) /\
  (diff_text = "" -> chunks = []).
Proof.
  intros parsed chunks. subst chunks. unfold chunk_diff_by_files. fold parsed.
  destruct (chunk_files_groups max_chunk_size parsed) as (groups & Hcat & Hne & Hch & Hbig).
  split; [|split].
  - rewrite Hch, <- Hcat. clear. induction groups as [|g groups IH]; [done|].
    simpl. rewrite map_app. by rewrite IH.
  - by exists groups.
  - intros ->. done.
Qed.

(** ** The parser *)

Section ParserInvariant.

Implicit Types (s line : string) (st : Parser.state).

Lemma strip_prefix_no_linebreak p s r :
  PyStr.strip_prefix p s = Some r -> no_linebreak s = true -> no_linebreak r = true.
Proof.
  revert s. induction p as [|a p IH]; intros s; simpl.
  - by intros [= ->].
  - destruct s as [|b s]; [done|]. destruct (Ascii.eqb a b); [|done].
    intros Hr Hs. simpl in Hs. apply andb_true_iff in Hs as [_ Hs]. eauto.
Qed.

Lemma strip_prefix_app p s r :
  PyStr.strip_prefix p s = Some r <-> s = p +:+ r.
Proof.
  revert s. induction p as [|a p IH]; intros s; simpl.
  - rewrite str_app_nil_l. split; [by intros [= ->]|by intros ->].
  - rewrite str_app_cons. destruct s as [|b s]; [done|].
    destruct (Ascii.eqb_spec a b) as [->|Hne].
    + rewrite IH. split; [by intros ->|by intros [= ->]].
    + split; [done|]. intros [= -> _]. done.
Qed.

Lemma before_char_no_linebreak c s :
  no_linebreak s = true -> no_linebreak (PyStr.before_char c s) = true.
Proof.
  induction s as [|a s IH]; simpl; [done|].
  intros H. apply andb_true_iff in H as [Ha Hs].
  destruct (Ascii.eqb a c); [done|]. simpl. by rewrite Ha, IH.
Qed.

Lemma before_char_idemp c s :
  PyStr.before_char c (PyStr.before_char c s) = PyStr.before_char c s.
Proof.
  induction s as [|a s IH]; simpl; [done|].
  destruct (Ascii.eqb a c) eqn:Ha; [done|]. simpl. by rewrite Ha, IH.
Qed.

Lemma path_match_ok marker pre line p :
  no_linebreak line = true ->
  Parser.path_match marker pre line = Some p -> path_ok p.
Proof.
  unfold Parser.path_match. intros Hline Hp.
  destruct (PyStr.strip_prefix marker line) as [rest|] eqn:Hrest; [|done].
  simpl in Hp. injection Hp as <-.
  pose proof (strip_prefix_no_linebreak _ _ _ Hrest Hline) as Hr.
  split; [|apply before_char_idemp].
  apply before_char_no_linebreak.
  destruct (PyStr.strip_prefix pre rest) as [r'|] eqn:Hr'; simpl; [|done].
  by eapply strip_prefix_no_linebreak.
Qed.

Lemma tail_no_linebreak s : no_linebreak s = true -> no_linebreak (PyStr.tail s) = true.
Proof.
  destruct s as [|a s]; [done|]. simpl. intros H. by apply andb_true_iff in H as [_ H].
Qed.

Lemma startswith_tail s (a : ascii) :
  PyStr.startswith s (String a "") = true -> String a "" +:+ PyStr.tail s = s.
Proof.
  unfold PyStr.startswith.
  destruct (PyStr.strip_prefix (String a "") s) as [r|] eqn:Hr; [|done].
  intros _. apply strip_prefix_app in Hr. subst s. done.
Qed.

Lemma match_number_digits s d r :
  Parser.match_number s = Some (d, r) -> all_digits d = true /\ d <> "" /\ s = d +:+ r.
Proof.
  unfold Parser.match_number.
  destruct (span_digits_spec s) as [Hd Hs].
  destruct (PyStr.span_digits s) as [d' r']. simpl in *.
  destruct d'; [done|]. intros [= <- <-]. done.
Qed.

Lemma match_opt_count_digits s g r :
  Parser.match_opt_count s = (g, r) -> forall d, g = Some d -> all_digits d = true.
Proof.
  unfold Parser.match_opt_count.
  destruct (PyStr.strip_prefix "," s) as [r0|]; [|by intros [= <- _]].
  destruct (Parser.match_number r0) as [[d0 r1]|] eqn:Hm; [|by intros [= <- _]].
  intros [= <- _] d [= <-]. by apply match_number_digits in Hm as [? _].
Qed.

Lemma hunk_header_match_digits line g1 g2 g3 g4 :
  Parser.hunk_header_match line = Some (g1, g2, g3, g4) ->
  all_digits g1 = true /\ (forall d, g2 = Some d -> all_digits d = true) /\
  all_digits g3 = true /\ (forall d, g4 = Some d -> all_digits d = true).
Proof.
  unfold Parser.hunk_header_match. intros H.
  destruct (PyStr.strip_prefix "@@ -" line) as [r0|]; [|done]. cbn -[PyStr.strip_prefix] in H.
  destruct (Parser.match_number r0) as [[g1' r1]|] eqn:H1; [|done]. cbn -[PyStr.strip_prefix] in H.
  destruct (Parser.match_opt_count r1) as [g2' r2] eqn:H2.
  cbn -[PyStr.strip_prefix] in H.
  destruct (PyStr.strip_prefix " +" r2) as [r3|]; [|done]. cbn -[PyStr.strip_prefix] in H.
  destruct (Parser.match_number r3) as [[g3' r4]|] eqn:H3; [|done]. cbn -[PyStr.strip_prefix] in H.
  destruct (Parser.match_opt_count r4) as [g4' r5] eqn:H4.
  cbn -[PyStr.strip_prefix] in H.
  destruct (PyStr.strip_prefix " @@" r5) as [r6|]; [|done]. cbn -[PyStr.strip_prefix] in H.
  injection H as <- <- <- <-.
  apply match_number_digits in H1 as [? _]. apply match_number_digits in H3 as [? _].
  split; [done|]. split; [by eapply match_opt_count_digits|].
  split; [done|]. by eapply match_opt_count_digits.
Qed.

Lemma int_of_digits_nonneg s : all_digits s = true -> 0 <= PyStr.int_of_digits s.
Proof. intros H. by apply int_of_digits_from_nonneg. Qed.

Lemma int_or_1_nonneg g :
  (forall d, g = Some d -> all_digits d = true) -> 0 <= Parser.int_or_1 g.
Proof.
  destruct g as [d|]; simpl; [|lia]. intros H. apply int_of_digits_nonneg. by apply H.
Qed.

Lemma replay_snoc c ks k :
  replay c (ks ++ [k]) = replay c ks ++ [stamp (foldl advance c ks) k].
Proof.
  revert c. induction ks as [|k' ks IH]; intros c; simpl; [done|]. by rewrite IH.
Qed.

Lemma append_line_ok st fr hi l :
  state_ok st ->
  Parser.current_hunk st = Some (fr, hi) ->
  line_ok l ->
  line_numbers l = stamp (Parser.old_line_num st, Parser.new_line_num st) (line_type l) ->
  state_ok
    (Parser.mkState (Parser.heap_append_line l fr hi (Parser.heap st))
       (Parser.files st) (Parser.current_file st) (Some (fr, hi))
       (Parser.old_path st) (Parser.new_path st)
       (advance (Parser.old_line_num st, Parser.new_line_num st) (line_type l)).1
       (advance (Parser.old_line_num st, Parser.new_line_num st) (line_type l)).2).
Proof.
  intros (Hheap & Hold & Hfiles & Hcur & Hhunk) Hch Hl Hnum.
  destruct (Hhunk fr hi Hch) as (f & h & Hf & Hh & Hcursors).
  unfold Parser.heap_append_line.
  split; [|split; [|split; [|split]]]; simpl.
  - apply Forall_alter; [done|]. intros f' Hf' (Hp1 & Hp2 & Hhs).
    rewrite Hf in Hf'. injection Hf' as <-.
    split; [done|]. split; [done|]. simpl.
    apply Forall_alter; [done|]. intros h' Hh' (H1 & H2 & H3 & H4 & Hls & Hn).
    rewrite Hh in Hh'. injection Hh' as <-.
    split; [done|]. split; [done|]. split; [done|]. split; [done|]. simpl.
    split; [apply Forall_app; split; [done|by constructor]|].
    unfold hunk_numbered in *. simpl.
    rewrite !map_app. simpl. rewrite replay_snoc, <- Hn, <- Hcursors, Hnum. done.
  - done.
  - intros r Hr. rewrite length_alter. by apply Hfiles.
  - intros r Hr. rewrite length_alter. by apply Hcur.
  - intros fr' hi' [= <- <-].
    exists (file_alter_hunk (hunk_append l) hi f), (hunk_append l h).
    split; [by rewrite list_lookup_alter_eq, Hf|].
    split; [simpl; by rewrite list_lookup_alter_eq, Hh|].
    simpl. rewrite map_app, foldl_app. simpl. rewrite <- Hcursors.
    by destruct (advance _ _).
Qed.

Lemma content_step_ok st line :
  no_linebreak line = true ->
  Parser.old_file_match line = None ->
  Parser.new_file_match line = None ->
  state_ok st -> state_ok (Parser.content_step st line).
Proof.
  intros Hline Hom Hnm Hok. unfold Parser.content_step.
  destruct (Parser.current_hunk st) as [[fr hi]|] eqn:Hch; [|done].
  assert (forall (a : ascii) k o n,
            PyStr.startswith line (String a "") = true ->
            line_prefix k = String a "" ->
            line_ok (mkDiffLine (PyStr.tail line) k o n)) as Hlok.
  { intros a k o n Ha Hk. unfold line_ok, render_line. simpl.
    rewrite Hk, (startswith_tail _ _ Ha). split; [by apply tail_no_linebreak|done]. }
  destruct (PyStr.startswith line "+") eqn:Hplus.
  { apply (append_line_ok st fr hi (mkDiffLine _ addition _ _)); eauto. }
  destruct (PyStr.startswith line "-") eqn:Hminus.
  { apply (append_line_ok st fr hi (mkDiffLine _ deletion _ _)); eauto. }
  destruct (PyStr.startswith line " ") eqn:Hspace; [|done].
  apply (append_line_ok st fr hi (mkDiffLine _ context _ _)); eauto.
Qed.

Lemma step_ok st line :
  no_linebreak line = true -> state_ok st -> state_ok (Parser.step st line).
Proof.
  intros Hline Hok. unfold Parser.step.
  destruct (Parser.file_header_match line).
  { (* a [diff --git] line *)
    destruct Hok as (Hheap & Hold & Hfiles & Hcur & Hhunk).
    split; [done|]. simpl. split; [done|]. split; [|done].
    intros r Hr. unfold Parser.flush in Hr.
    destruct (Parser.current_file st) as [r0|] eqn:Hc; [|by apply Hfiles].
    apply elem_of_app in Hr as [Hr|Hr]; [by apply Hfiles|].
    apply list_elem_of_singleton in Hr as ->. by apply (Hcur r0). }
  destruct (Parser.old_file_match line) as [p|] eqn:Hom.
  { (* the old path *)
    destruct Hok as (Hheap & Hold & Hfiles & Hcur & Hhunk).
    split; [done|]. simpl. split; [|split; [done|split; [|done]]].
    - intros p' [= <-]. by eapply path_match_ok.
    - intros r Hr. destruct (Hcur r Hr) as (? & ? & ?). by eauto. }
  destruct (Parser.new_file_match line) as [q|] eqn:Hnm.
  { (* the new path *)
    destruct Hok as (Hheap & Hold & Hfiles & Hcur & Hhunk).
    destruct (Parser.old_path st) as [p|] eqn:Hop; [|done].
    split; [|split; [|split; [|split]]]; simpl.
    - apply Forall_app. split; [done|]. constructor; [|done].
      split; [by apply Hold|]. split; [by eapply path_match_ok|constructor].
    - done.
    - intros r Hr. rewrite length_app. apply Hfiles in Hr. lia.
    - intros r [= <-]. rewrite length_app. simpl. split; [lia|]. split; [|by eauto].
      intros Hr. apply Hfiles in Hr. lia.
    - intros fr hi Hch. destruct (Hhunk fr hi Hch) as (f & h & Hf & Hh & Hc).
      exists f, h. split; [|done]. rewrite lookup_app_l; [done|].
      by eapply lookup_lt_Some. }
  destruct (Parser.hunk_header_match line) as [[[[g1 g2] g3] g4]|] eqn:Hhm;
    [|by apply content_step_ok].
  destruct (Parser.current_file st) as [fr|] eqn:Hcf; [|by apply content_step_ok].
  (* a hunk header under a current file *)
  destruct Hok as (Hheap & Hold & Hfiles & Hcur & Hhunk).
  destruct (Hcur fr Hcf) as (Hfr & Hnin & Hsome).
  destruct (lookup_lt_is_Some_2 _ _ Hfr) as [f Hf].
  apply hunk_header_match_digits in Hhm as (Hg1 & Hg2 & Hg3 & Hg4).
  split; [|split; [|split; [|split]]]; simpl.
  - apply Forall_alter; [done|]. intros f' Hf' (Hp1 & Hp2 & Hhs).
    split; [done|]. split; [done|]. simpl.
    apply Forall_app. split; [done|]. constructor; [|done].
    split; [by apply int_of_digits_nonneg|]. split; [by apply int_or_1_nonneg|].
    split; [by apply int_of_digits_nonneg|]. split; [by apply int_or_1_nonneg|].
    split; [constructor|done].
  - done.
  - intros r Hr. rewrite length_alter. by apply Hfiles.
  - intros r [= <-]. rewrite length_alter. done.
  - intros fr' hi' [= <- <-]. rewrite Hf.
    eexists _, _. split; [by rewrite list_lookup_alter_eq, Hf|].
    split; [simpl; by rewrite lookup_app_r, Nat.sub_diag by lia|]. done.
Qed.

Lemma run_ok ls : forall st,
  Forall (fun l => no_linebreak l = true) ls ->
  state_ok st -> state_ok (Parser.run st ls).
Proof.
  induction ls as [|l ls IH]; intros st Hls Hok; [done|].
  apply Forall_cons in Hls as [Hl Hls]. simpl. apply IH; [done|]. by apply step_ok.
Qed.

Lemma init_ok : state_ok Parser.init.
Proof.
  split; [constructor|]. split; [done|]. split; [intros r Hr; inversion Hr|]. done.
Qed.

Lemma splitlines_no_linebreak_upto (n : nat) : forall s,
  (String.length s < n)%nat ->
  Forall (fun l => no_linebreak l = true) (PyStr.splitlines s).
Proof.
  induction n as [|n IH]; intros s Hn; [lia|].
  destruct s as [|c s]; [constructor|]. simpl in Hn.
  simpl. destruct (PyStr.is_linebreak c) eqn:Hc.
  - assert (Forall (fun l => no_linebreak l = true) (PyStr.splitlines s)) as Hs
      by (apply IH; lia).
    destruct (Ascii.ascii_dec c "013") as [->|Hne].
    + destruct s as [|c' s]; [by constructor|].
      destruct (Ascii.ascii_dec c' "010") as [->|Hne'].
      * constructor; [done|]. apply IH. simpl in Hn. lia.
      * assert (match c' with "010"%char => "" :: PyStr.splitlines s | _ => "" :: PyStr.splitlines (String c' s) end
                = "" :: PyStr.splitlines (String c' s)) as ->; [|by constructor].
        by destruct c' as [[] [] [] [] [] [] [] []].
    + assert (match c with "013"%char => match s with
                | String "010"%char s'' => "" :: PyStr.splitlines s''
                | _ => "" :: PyStr.splitlines s end
              | _ => "" :: PyStr.splitlines s end = "" :: PyStr.splitlines s) as ->;
        [|by constructor].
      by destruct c as [[] [] [] [] [] [] [] []].
  - assert (Forall (fun l => no_linebreak l = true) (PyStr.splitlines s)) as Hs
      by (apply IH; lia).
    destruct (PyStr.splitlines s) as [|l ls].
    + constructor; [|done]. simpl. by rewrite Hc.
    + apply Forall_cons in Hs as [Hl Hls]. constructor; [|done]. simpl. by rewrite Hc, Hl.
Qed.

(** The lines [splitlines] returns hold no line boundary. *)
Lemma splitlines_no_linebreak s :
  Forall (fun l => no_linebreak l = true) (PyStr.splitlines s).
Proof. apply (splitlines_no_linebreak_upto (S (String.length s))). lia. Qed.

(** The references the parser returns all point into the store. *)
Lemma result_refs_valid st r :
  state_ok st -> r ∈ Parser.result_refs st -> (r < length (Parser.heap st))%nat.
Proof.
  intros (_ & _ & Hfiles & Hcur & _) Hr. unfold Parser.result_refs, Parser.flush in Hr.
  destruct (Parser.current_file st) as [r0|] eqn:Hc; [|by apply Hfiles].
  apply elem_of_app in Hr as [Hr|Hr]; [by apply Hfiles|].
  apply list_elem_of_singleton in Hr as ->. by apply (Hcur r0).
Qed.

Lemma deref_elem hp rs f :
  f ∈ Parser.deref hp rs -> f ∈ hp.
Proof.
  unfold Parser.deref. intros Hf. apply list_elem_of_omap in Hf as (r & _ & Hr).
  by eapply list_elem_of_lookup_2.
Qed.

Lemma deref_length hp rs :
  (forall r, r ∈ rs -> (r < length hp)%nat) ->
  length (Parser.deref hp rs) = length rs.
Proof.
  unfold Parser.deref. induction rs as [|r rs IH]; intros Hrs; [done|].
  simpl. destruct (lookup_lt_is_Some_2 hp r) as [f Hf]; [apply Hrs; by left|].
  rewrite Hf. simpl. f_equal. apply IH. intros r' Hr'. apply Hrs. by right.
Qed.

(** Every file a parse returns is well formed. *)
Lemma parse_ok diff_text f :
  f ∈ parse_unified_diff diff_text -> file_ok f.
Proof.
  unfold parse_unified_diff. destruct diff_text as [|c s]; [intros H; inversion H|].
  intros Hf. unfold Parser.result in Hf. apply deref_elem in Hf.
  pose proof (run_ok (PyStr.splitlines (String c s)) Parser.init
                (splitlines_no_linebreak _) init_ok) as (Hheap & _).
  rewrite Forall_forall in Hheap. by apply Hheap.
Qed.

Lemma replay_by_kind (ls : list DiffLine) : forall c,
  map line_numbers ls = replay c (map line_type ls) -> Forall numbers_by_kind ls.
Proof.
  induction ls as [|l ls IH]; intros c Hn; [constructor|].
  simpl in Hn. injection Hn as Hl Hls. constructor; [|by eapply IH].
  unfold numbers_by_kind, line_numbers in *.
  destruct (line_type l); simpl in Hl; injection Hl as -> ->; by eauto.
Qed.

(** What the last part of an iteration leaves alone. *)
Lemma content_step_frame st line :
  Parser.files (Parser.content_step st line) = Parser.files st /\
  Parser.current_file (Parser.content_step st line) = Parser.current_file st /\
  Parser.old_path (Parser.content_step st line) = Parser.old_path st /\
  length (Parser.heap (Parser.content_step st line)) = length (Parser.heap st).
Proof.
  unfold Parser.content_step, Parser.heap_append_line.
  destruct (Parser.current_hunk st) as [[fr hi]|]; [|done].
  repeat case_match; simpl; by rewrite ?length_alter.
Qed.

(** [files] grows only at a [diff --git] line, by the current file. *)
Lemma step_files st line :
  Parser.files (Parser.step st line)
  = if Parser.file_header_match line
    then Parser.flush (Parser.files st) (Parser.current_file st)
    else Parser.files st.
Proof.
  unfold Parser.step. destruct (Parser.file_header_match line); [done|].
  repeat case_match; simpl; try done; apply content_step_frame.
Qed.

Lemma run_app st ls1 ls2 :
  Parser.run st (ls1 ++ ls2) = Parser.run (Parser.run st ls1) ls2.
Proof. apply foldl_app. Qed.

Lemma dropped_step r st line :
  dropped r st -> dropped r (Parser.step st line).
Proof.
  intros (Hlt & Hnin & Hcur). unfold dropped. rewrite step_files.
  unfold Parser.step. destruct (Parser.file_header_match line).
  { simpl. split; [done|]. split; [|done].
    unfold Parser.flush. destruct (Parser.current_file st) as [r0|]; [|done].
    intros Hr. apply elem_of_app in Hr as [Hr|Hr]; [done|].
    apply list_elem_of_singleton in Hr. congruence. }
  destruct (Parser.old_file_match line); [done|].
  destruct (Parser.new_file_match line).
  { destruct (Parser.old_path st); [|done]. simpl.
    rewrite length_app. simpl. split; [lia|]. split; [done|]. intros [= Heq]. lia. }
  destruct (content_step_frame st line) as (_ & Hc & _ & Hl).
  destruct (Parser.hunk_header_match line) as [[[[g1 g2] g3] g4]|];
    [|by rewrite Hc, Hl].
  destruct (Parser.current_file st) as [fr|]; [|by rewrite Hc, Hl].
  simpl. by rewrite length_alter.
Qed.

Lemma dropped_run r ls : forall st,
  dropped r st -> dropped r (Parser.run st ls).
Proof.
  induction ls as [|l ls IH]; intros st Hd; [done|].
  simpl. apply IH. by apply dropped_step.
Qed.

Lemma dropped_not_returned r st :
  dropped r st -> r ∉ Parser.result_refs st.
Proof.
  intros (_ & Hnin & Hcur). unfold Parser.result_refs, Parser.flush.
  destruct (Parser.current_file st) as [r0|]; [|done].
  intros Hr. apply elem_of_app in Hr as [Hr|Hr]; [done|].
  apply list_elem_of_singleton in Hr. congruence.
Qed.

End ParserInvariant.

(** C4, as amended.  In every hunk of every file a parse returns, the
    recorded line numbers are those of the replay from [old_start] and
    [new_start] (old cursor moving on context and deletion lines, new cursor
    on context and addition lines), and the kind of a line alone says which
    of its numbers are absent: the old one of an addition, the new one of a
    deletion, none of a context line. *)
Theorem parse_line_numbers (diff_text : string) :
  Forall (fun f =>
    Forall (fun h => hunk_numbered h /\ Forall numbers_by_kind (lines h)) (hunks f))
    (parse_unified_diff diff_text).
Proof.
  apply Forall_forall. intros f Hf.
  destruct (parse_ok _ _ Hf) as (_ & _ & Hhs).
  eapply Forall_impl; [exact Hhs|].
  intros h (_ & _ & _ & _ & _ & Hn). split; [done|]. by eapply replay_by_kind.
Qed.

(** C4 as stated fails: the context lines of the scenario diff have both
    numbers, so it is not true that every line has exactly one number
    absent. *)
Lemma parse_context_line_has_both_numbers :
  ~ Forall (fun f =>
      Forall (fun h =>
        hunk_numbered h /\ Forall (fun l => exactly_one_absent l = true) (lines h))
        (hunks f))
      (parse_unified_diff scenario_diff).
Proof.
  intros H. apply Forall_inv in H. apply Forall_inv in H. destruct H as [_ H].
  apply Forall_inv in H. vm_compute in H. discriminate.
Qed.

(** ** The token optimizer *)

Section Ranking.

Implicit Types (x y : DiffFile * Z) (l : list (DiffFile * Z)) (fs : list DiffFile).

Lemma insert_by_relevance_perm x l : insert_by_relevance x l ≡ₚ x :: l.
Proof.
  induction l as [|y l IH]; simpl; [done|].
  destruct (snd x <? snd y); [|done].
  rewrite IH. apply Permutation_swap.
Qed.

Lemma insert_by_relevance_sorted x l :
  StronglySorted (fun a b => snd b <= snd a) l ->
  StronglySorted (fun a b => snd b <= snd a) (insert_by_relevance x l).
Proof.
  induction l as [|y l IH]; simpl; intros Hs.
  - by repeat constructor.
  - apply StronglySorted_cons in Hs as [Hy Hl].
    destruct (Z.ltb_spec (snd x) (snd y)) as [Hlt|Hge].
    + apply StronglySorted_cons. split; [|by apply IH].
      rewrite insert_by_relevance_perm. constructor; [lia|done].
    + apply StronglySorted_cons. split; [|by apply StronglySorted_cons].
      constructor; [done|]. eapply Forall_impl; [exact Hy|]. simpl. intros z Hz. lia.
Qed.

Lemma insert_by_relevance_stable k x l :
  filter (fun a => snd a = k) (insert_by_relevance x l)
  = filter (fun a => snd a = k) (x :: l).
Proof.
  induction l as [|y l IH]; simpl; [done|].
  destruct (Z.ltb_spec (snd x) (snd y)) as [Hlt|Hge]; [|done].
  rewrite (filter_cons _ y), IH, !filter_cons.
  repeat case_decide; try done; lia.
Qed.

Lemma sort_by_relevance_perm l : sort_by_relevance l ≡ₚ l.
Proof.
  induction l as [|x l IH]; simpl; [done|].
  by rewrite insert_by_relevance_perm, IH.
Qed.

Lemma sort_by_relevance_sorted l :
  StronglySorted (fun a b => snd b <= snd a) (sort_by_relevance l).
Proof.
  induction l as [|x l IH]; simpl; [constructor|]. by apply insert_by_relevance_sorted.
Qed.

Lemma sort_by_relevance_stable k l :
  filter (fun a => snd a = k) (sort_by_relevance l) = filter (fun a => snd a = k) l.
Proof.
  induction l as [|x l IH]; simpl; [done|].
  by rewrite insert_by_relevance_stable, !filter_cons, IH.
Qed.

Lemma rank_files_counts fs :
  Forall (fun a => snd a = change_count (fst a)) (rank_files fs).
Proof.
  unfold rank_files. rewrite sort_by_relevance_perm.
  apply Forall_forall. intros a Ha.
  change (a ∈ (fun f => (f, change_count f)) <$> fs) in Ha.
  apply list_elem_of_fmap in Ha as (f & -> & _). done.
Qed.

Lemma fst_tagged fs : map fst (map (fun f => (f, change_count f)) fs) = fs.
Proof. rewrite map_map. simpl. apply map_id. Qed.

End Ranking.

(** X24.  The ranking of Strategy 2 is a stable sort of the files, most
    changes first: the ranked files are the files in another order, no file
    comes before one with more changes, and files with as many changes keep
    the order they came in. *)
Theorem rank_files_spec (fs : list DiffFile) :
  map fst (rank_files fs) ≡ₚ fs /\
  StronglySorted by_relevance (map fst (rank_files fs)) /\
  forall k, filter (fun f => change_count f = k) (map fst (rank_files fs))
            = filter (fun f => change_count f = k) fs.
Proof.
  pose proof (rank_files_counts fs) as Hc.
  assert (forall l, Forall (fun a => snd a = change_count (fst a)) l ->
            forall k, filter (fun f => change_count f = k) (map fst l)
                      = map fst (filter (fun a => snd a = k) l)) as Hfilter.
  { intros l Hl k. induction l as [|a l IH]; [done|].
    apply Forall_cons in Hl as [Ha Hl]. simpl. rewrite !filter_cons, <- Ha.
    case_decide; simpl; by rewrite IH. }
  split; [|split].
  - unfold rank_files.
    change (map fst ?l) with (fst <$> l). rewrite sort_by_relevance_perm.
    apply reflexive_eq, fst_tagged.
  - pose proof (sort_by_relevance_sorted (map (fun f => (f, change_count f)) fs)) as Hs.
    fold (rank_files fs) in Hs.
    induction Hs as [|a l Hl IH Ha]; simpl; [constructor|].
    apply Forall_cons in Hc as [Hca Hc].
    constructor; [by apply IH|].
    rewrite Forall_forall in Ha, Hc. apply Forall_forall. intros f Hf.
    change (f ∈ fst <$> l) in Hf. apply list_elem_of_fmap in Hf as (b & -> & Hb).
    unfold by_relevance. rewrite <- Hca, <- (Hc b Hb). by apply Ha.
  - intros k. rewrite Hfilter by done. unfold rank_files.
    rewrite sort_by_relevance_stable, <- Hfilter, fst_tagged; [done|].
    apply Forall_forall. intros a Ha.
    change (a ∈ (fun f => (f, change_count f)) <$> fs) in Ha.
    apply list_elem_of_fmap in Ha as (f & -> & _). done.
Qed.

(** ** The optimizer in its module *)

Section OptimizerRuns.

Variable names : list string.
Variable count_tokens : string -> Z.
Variable max_tokens : Z.

Lemma load_global_cases name :
  load_global names name = Returns tt \/ load_global names name = Raises (NameError name).
Proof. unfold load_global. destruct (existsb _ names); auto. Qed.

Lemma mapM_returns {A B} (f : A -> Outcome B) (g : A -> B) (l : list A) :
  (forall x, f x = Returns (g x)) -> mapM f l = Returns (map g l).
Proof.
  intros Hf. induction l as [|x l IH]; [done|].
  simpl. rewrite Hf. cbn [mbind Outcome_bind]. by rewrite IH.
Qed.

(** A loop that comes to its end has run its body on every element. *)
Lemma mapM_inv {A B} (f : A -> Outcome B) (g : A -> B) (l : list A) ys :
  (forall x y, f x = Returns y -> y = g x) ->
  mapM f l = Returns ys -> ys = map g l.
Proof.
  intros Hf. revert ys. induction l as [|x l IH]; intros ys; simpl.
  - by intros [= <-].
  - destruct (f x) as [y|e] eqn:Hx; cbn [mbind Outcome_bind]; [|done].
    destruct (mapM f l) as [k|e]; cbn [mbind Outcome_bind]; [|done].
    intros [= <-]. by rewrite (Hf x y Hx), (IH k eq_refl).
Qed.

Lemma reduce_hunk_step_inv hunk h :
  reduce_hunk_step names hunk = Returns h -> h = reduce_hunk hunk.
Proof.
  unfold reduce_hunk_step.
  destruct (load_global_cases "DiffHunk") as [-> | ->]; cbn [mbind Outcome_bind]; [|done].
  by intros [= <-].
Qed.

Lemma reduce_file_step_inv file f :
  reduce_file_step names file = Returns f -> f = reduce_file file.
Proof.
  unfold reduce_file_step.
  destruct (load_global_cases "DiffFile") as [-> | ->]; cbn [mbind Outcome_bind]; [|done].
  destruct (mapM _ (hunks file)) as [hs|e] eqn:Hhs; cbn [mbind Outcome_bind]; [|done].
  intros [= <-]. unfold reduce_file. f_equal.
  by apply (mapM_inv _ reduce_hunk _ _ reduce_hunk_step_inv).
Qed.

Lemma render_step_inv file text :
  render_step names file = Returns text -> text = generate_file_diff file +:+ nl.
Proof.
  unfold render_step.
  destruct (load_global_cases "generate_file_diff") as [-> | ->];
    cbn [mbind Outcome_bind]; [|done].
  by intros [= <-].
Qed.

(** Whatever names are bound, a call that returns a text returns the
    text it was given or its Strategy-1 render, and that text is within the
    budget. *)
Lemma optimize_returns_text diff_text text :
  optimize_diff_context names count_tokens max_tokens diff_text = Returns (Some text) ->
  count_tokens text <= max_tokens /\
  (text = diff_text \/
   text = render_all (reduce_context (parse_unified_diff diff_text))).
Proof.
  unfold optimize_diff_context.
  destruct (load_global_cases "parse_unified_diff") as [-> | ->];
    cbn [mbind Outcome_bind]; [|done].
  destruct (load_global_cases "count_tokens") as [-> | ->];
    cbn [mbind Outcome_bind]; [|done].
  destruct (Z.leb_spec (count_tokens diff_text) max_tokens) as [Hle|Hgt].
  { intros [= <-]. auto. }
  destruct (mapM _ (parse_unified_diff diff_text)) as [fs|e] eqn:Hfs;
    cbn [mbind Outcome_bind]; [|done].
  apply (mapM_inv _ reduce_file _ _ reduce_file_step_inv) in Hfs.
  destruct (mapM _ fs) as [renders|e] eqn:Hrs; cbn [mbind Outcome_bind]; [|done].
  apply (mapM_inv _ (fun f => generate_file_diff f +:+ nl) _ _ render_step_inv) in Hrs.
  subst fs renders.
  fold (render_all (map reduce_file (parse_unified_diff diff_text))).
  fold (reduce_context (parse_unified_diff diff_text)).
  destruct (Z.leb_spec
              (count_tokens (render_all (reduce_context (parse_unified_diff diff_text))))
              max_tokens) as [Hle|Hgt'].
  { intros [= <-]. auto. }
  destruct (mapM _ _); cbn [mbind Outcome_bind]; done.
Qed.

End OptimizerRuns.

Section OptimizerBound.

Variable count_tokens : string -> Z.
Variable max_tokens : Z.

Local Abbreviation bound := (diff_parser_names ++ token_counter_names).

(** With the names of [diff_parser.py] bound, the first loop is Strategy
    1 on every file. *)
Lemma reduce_context_bound fs :
  mapM (reduce_file_step bound) fs = Returns (reduce_context fs).
Proof.
  apply mapM_returns. intros file. unfold reduce_file_step.
  change (load_global bound "DiffFile") with (Returns tt). cbn [mbind Outcome_bind].
  rewrite (mapM_returns _ reduce_hunk); [done|]. by intros hunk.
Qed.

Lemma render_all_bound fs :
  mapM (render_step bound) fs = Returns (map (fun f => generate_file_diff f +:+ nl) fs).
Proof. apply mapM_returns. by intros file. Qed.

Lemma final_loop_bound entries :
  mapM (final_step bound count_tokens) entries = Returns (map (fun _ => tt) entries).
Proof. apply mapM_returns. by intros entry. Qed.

(** With the names of [diff_parser.py] bound, the function is the two
    budget tests, and nothing after them returns a text. *)
Lemma optimize_bound diff_text :
  optimize_diff_context bound count_tokens max_tokens diff_text
  = Returns
      (if count_tokens diff_text <=? max_tokens then Some diff_text
       else
         let reduced_diff := render_all (reduce_context (parse_unified_diff diff_text)) in
         if count_tokens reduced_diff <=? max_tokens then Some reduced_diff
         else None).
Proof.
  unfold optimize_diff_context.
  change (load_global bound "parse_unified_diff") with (Returns tt).
  change (load_global bound "count_tokens") with (Returns tt).
  cbn [mbind Outcome_bind].
  destruct (count_tokens diff_text <=? max_tokens); [done|].
  rewrite reduce_context_bound. cbn [mbind Outcome_bind].
  rewrite render_all_bound. cbn [mbind Outcome_bind].
  fold (render_all (reduce_context (parse_unified_diff diff_text))). cbv zeta.
  destruct (count_tokens _ <=? max_tokens); [done|].
  by rewrite final_loop_bound.
Qed.

End OptimizerBound.

(** C3.  The call never gets to its budget test.  [token_counter.py] binds
    no name [parse_unified_diff], so the first statement of
    [optimize_diff_context] raises [NameError] whatever the text, the
    counter and the budget are: a text within the budget is not returned. *)
Theorem optimize_within_budget_raises
    (count_tokens : string -> Z) (max_tokens : Z) (diff_text : string) :
  optimize_diff_context token_counter_names count_tokens max_tokens diff_text
  = Raises (NameError "parse_unified_diff") /\
  optimize_diff_context token_counter_names count_tokens max_tokens diff_text
  <> Returns (Some diff_text).
Proof. split; [reflexivity|discriminate]. Qed.

(** C1.  When the text and its Strategy-1 render are both over the budget,
    the call gives no text.  In its own module it raises [NameError] at its
    first statement.  With the names of [diff_parser.py] bound it comes to
    the end of the function, which has no [return] there, and the value is
    [None]; whatever names are bound, it raises or gives [None]. *)
Theorem optimize_over_budget_returns_none
    (count_tokens : string -> Z) (max_tokens : Z) (diff_text : string) :
  max_tokens < count_tokens diff_text ->
  max_tokens < count_tokens (render_all (reduce_context (parse_unified_diff diff_text))) ->
  optimize_diff_context token_counter_names count_tokens max_tokens diff_text
  = Raises (NameError "parse_unified_diff") /\
  optimize_diff_context (diff_parser_names ++ token_counter_names)
    count_tokens max_tokens diff_text = Returns None /\
  (forall names text,
     optimize_diff_context names count_tokens max_tokens diff_text <> Returns (Some text)).
Proof.
  intros Hover1 Hover2. split; [reflexivity|]. split.
  - rewrite optimize_bound. cbv zeta.
    apply Z.leb_gt in Hover1, Hover2. by rewrite Hover1, Hover2.
  - intros names text Hret.
    apply optimize_returns_text in Hret as [Hle [-> | ->]]; lia.
Qed.

Lemma optimize_over_budget_returns_none_witness :
  0 < len scenario_diff /\
  0 < len (render_all (reduce_context (parse_unified_diff scenario_diff))) /\
  optimize_diff_context token_counter_names len 0 scenario_diff
  = Raises (NameError "parse_unified_diff") /\
  optimize_diff_context (diff_parser_names ++ token_counter_names) len 0 scenario_diff
  = Returns None /\
  (forall names text,
     optimize_diff_context names len 0 scenario_diff <> Returns (Some text)).
Proof.
  assert (0 < len scenario_diff) as H1 by (by vm_compute).
  assert (0 < len (render_all (reduce_context (parse_unified_diff scenario_diff)))) as H2
    by (by vm_compute).
  split; [done|]. split; [done|].
  exact (optimize_over_budget_returns_none len 0 scenario_diff H1 H2).
Defined.

(** ** The round trip through the serializer *)

Section RoundTrip.

Implicit Types (s t line : string) (ls : list string) (f : DiffFile) (h : DiffHunk).

Lemma no_linebreak_app s t :
  no_linebreak (s +:+ t) = no_linebreak s && no_linebreak t.
Proof.
  induction s as [|c s IH]; [done|]. rewrite str_app_cons. simpl.
  by rewrite IH, andb_assoc.
Qed.

Lemma all_digits_no_linebreak s : all_digits s = true -> no_linebreak s = true.
Proof.
  induction s as [|c s IH]; [done|]. simpl. intros H.
  apply andb_true_iff in H as [Hc Hs]. rewrite IH by done.
  rewrite andb_true_r. apply negb_true_iff.
  unfold PyStr.is_digit in Hc. apply andb_true_iff in Hc as [H1 H2].
  apply N.leb_le in H1, H2.
  destruct (PyStr.is_linebreak c) eqn:Hlb; [|done].
  exfalso. destruct c as [[] [] [] [] [] [] [] []]; simpl in *; try discriminate; lia.
Qed.

(** A line without a line boundary, followed by a newline, is the first
    line [splitlines] returns. *)
Lemma splitlines_terminated line rest :
  no_linebreak line = true ->
  PyStr.splitlines (line +:+ nl +:+ rest) = line :: PyStr.splitlines rest.
Proof.
  induction line as [|c line IH]; intros Hl.
  - done.
  - simpl in Hl. apply andb_true_iff in Hl as [Hc Hl].
    apply negb_true_iff in Hc. rewrite str_app_cons. simpl. rewrite Hc.
    by rewrite IH.
Qed.

Lemma splitlines_lines ls :
  Forall (fun l => no_linebreak l = true) ls ->
  PyStr.splitlines (String.concat "" (map (fun l => l +:+ nl) ls)) = ls.
Proof.
  induction ls as [|l ls IH]; intros Hls; [done|].
  apply Forall_cons in Hls as [Hl Hls].
  simpl map. rewrite concat_empty_cons, str_app_assoc, splitlines_terminated by done.
  by rewrite IH.
Qed.

Lemma join_terminated ls :
  ls <> [] ->
  PyStr.join nl ls +:+ nl = String.concat "" (map (fun l => l +:+ nl) ls).
Proof.
  unfold PyStr.join. induction ls as [|l ls IH]; [done|]. intros _.
  destruct ls as [|l' ls]; [done|].
  simpl map. rewrite concat_empty_cons.
  change (String.concat nl (l :: l' :: ls)) with (l +:+ nl +:+ String.concat nl (l' :: ls)).
  rewrite !str_app_assoc. rewrite IH by done. done.
Qed.

Lemma alter_last {A} (g : A -> A) (l : list A) (x : A) :
  alter g (length l) (l ++ [x]) = l ++ [g x].
Proof.
  pose proof (alter_app_r g l [x] 0) as H. by rewrite Nat.add_0_r in H.
Qed.

(** *** The parser on rendered lines *)

Lemma step_old_line st p :
  PyStr.strip_prefix "a/" p = None -> path_ok p ->
  Parser.step st ("--- " +:+ p)
  = Parser.mkState (Parser.heap st) (Parser.files st) (Parser.current_file st)
      (Parser.current_hunk st) (Some p) (Parser.new_path st)
      (Parser.old_line_num st) (Parser.new_line_num st).
Proof.
  intros Hpre [_ Htab]. unfold Parser.step.
  change (Parser.file_header_match ("--- " +:+ p)) with false.
  assert (Parser.old_file_match ("--- " +:+ p) = Some p) as ->; [|done].
  unfold Parser.old_file_match, Parser.path_match.
  change (PyStr.strip_prefix "--- " ("--- " +:+ p)) with (Some p).
  cbn [mbind option_bind]. rewrite Hpre. simpl. by rewrite Htab.
Qed.

Lemma step_new_line st p q :
  Parser.old_path st = Some p ->
  PyStr.strip_prefix "b/" q = None -> path_ok q ->
  Parser.step st ("+++ " +:+ q)
  = Parser.mkState (Parser.heap st ++ [mkDiffFile p q []]) (Parser.files st)
      (Some (length (Parser.heap st))) (Parser.current_hunk st) (Some p) (Some q)
      (Parser.old_line_num st) (Parser.new_line_num st).
Proof.
  intros Hp Hpre [_ Htab]. unfold Parser.step.
  change (Parser.file_header_match ("+++ " +:+ q)) with false.
  change (Parser.old_file_match ("+++ " +:+ q)) with (@None string).
  assert (Parser.new_file_match ("+++ " +:+ q) = Some q) as ->; [|by rewrite Hp].
  unfold Parser.new_file_match, Parser.path_match.
  change (PyStr.strip_prefix "+++ " ("+++ " +:+ q)) with (Some q).
  cbn [mbind option_bind]. rewrite Hpre. simpl. by rewrite Htab.
Qed.

Lemma match_number_str z rest :
  0 <= z -> no_digit_ahead rest = true ->
  Parser.match_number (PyStr.str_of_int z +:+ rest) = Some (PyStr.str_of_int z, rest).
Proof.
  intros Hz Hrest. destruct (str_of_int_digits z Hz) as [Hd Hne].
  unfold Parser.match_number. rewrite span_digits_app by done.
  by destruct (PyStr.str_of_int z).
Qed.

Lemma match_opt_count_str z rest :
  0 <= z -> no_digit_ahead rest = true ->
  Parser.match_opt_count ("," +:+ PyStr.str_of_int z +:+ rest)
  = (Some (PyStr.str_of_int z), rest).
Proof.
  intros Hz Hrest. unfold Parser.match_opt_count.
  change (PyStr.strip_prefix "," ("," +:+ PyStr.str_of_int z +:+ rest))
    with (Some (PyStr.str_of_int z +:+ rest)).
  cbv beta iota. by rewrite match_number_str.
Qed.

Lemma hunk_header_match_render h :
  hunk_ok h ->
  Parser.hunk_header_match (render_hunk_header h)
  = Some (PyStr.str_of_int (old_start h), Some (PyStr.str_of_int (old_count h)),
          PyStr.str_of_int (new_start h), Some (PyStr.str_of_int (new_count h))).
Proof.
  intros (H1 & H2 & H3 & H4 & _). unfold Parser.hunk_header_match, render_hunk_header.
  match goal with |- context [PyStr.strip_prefix "@@ -" ("@@ -" +:+ ?r)] =>
    change (PyStr.strip_prefix "@@ -" ("@@ -" +:+ r)) with (Some r) end.
  cbn [mbind option_bind].
  rewrite match_number_str by done. cbn [mbind option_bind].
  rewrite match_opt_count_str by done.
  match goal with |- context [PyStr.strip_prefix " +" (" +" +:+ ?r)] =>
    change (PyStr.strip_prefix " +" (" +" +:+ r)) with (Some r) end.
  cbn [mbind option_bind].
  rewrite match_number_str by done. cbn [mbind option_bind].
  rewrite match_opt_count_str by done.
  done.
Qed.

Lemma step_header_line st fr f h :
  Parser.current_file st = Some fr ->
  Parser.heap st !! fr = Some f ->
  hunk_ok h ->
  Parser.step st (render_hunk_header h)
  = Parser.mkState
      (alter (file_append (mkDiffHunk (old_start h) (old_count h) (new_start h) (new_count h) []))
             fr (Parser.heap st))
      (Parser.files st) (Parser.current_file st) (Some (fr, length (hunks f)))
      (Parser.old_path st) (Parser.new_path st) (old_start h) (new_start h).
Proof.
  intros Hcf Hf Hh. unfold Parser.step.
  change (Parser.file_header_match (render_hunk_header h)) with false.
  change (Parser.old_file_match (render_hunk_header h)) with (@None string).
  change (Parser.new_file_match (render_hunk_header h)) with (@None string).
  rewrite hunk_header_match_render by done. rewrite Hcf, Hf.
  destruct Hh as (H1 & H2 & H3 & H4 & _).
  unfold Parser.int_or_1. by rewrite !int_of_str_of_int.
Qed.

Lemma step_content_line st fr hi l :
  Parser.current_hunk st = Some (fr, hi) ->
  line_ok l ->
  line_numbers l = stamp (Parser.old_line_num st, Parser.new_line_num st) (line_type l) ->
  Parser.step st (render_line l)
  = Parser.mkState (Parser.heap_append_line l fr hi (Parser.heap st))
      (Parser.files st) (Parser.current_file st) (Some (fr, hi))
      (Parser.old_path st) (Parser.new_path st)
      (advance (Parser.old_line_num st, Parser.new_line_num st) (line_type l)).1
      (advance (Parser.old_line_num st, Parser.new_line_num st) (line_type l)).2.
Proof.
  intros Hch (_ & Hom & Hnm) Hnum. unfold Parser.step. rewrite Hom, Hnm.
  destruct l as [c k o n]. unfold line_numbers in Hnum. simpl in Hnum.
  unfold render_line in *. simpl content in *. simpl line_type in *.
  destruct k; simpl line_prefix in *; simpl in Hnum; injection Hnum as -> ->.
  - change (Parser.file_header_match (" " +:+ c)) with false.
    change (Parser.hunk_header_match (" " +:+ c))
      with (@None (string * option string * string * option string)).
    unfold Parser.content_step. rewrite Hch. done.
  - change (Parser.file_header_match ("+" +:+ c)) with false.
    change (Parser.hunk_header_match ("+" +:+ c))
      with (@None (string * option string * string * option string)).
    unfold Parser.content_step. rewrite Hch. done.
  - change (Parser.file_header_match ("-" +:+ c)) with false.
    change (Parser.hunk_header_match ("-" +:+ c))
      with (@None (string * option string * string * option string)).
    unfold Parser.content_step. rewrite Hch. done.
Qed.

Lemma run_rendered_lines (ls : list DiffLine) : forall p q done a b c d prev cur,
  Forall line_ok ls ->
  map line_numbers ls = replay cur (map line_type ls) ->
  Parser.run
    (one_file_state p q (done ++ [mkDiffHunk a b c d prev]) (Some (0%nat, length done)) cur)
    (map render_line ls)
  = one_file_state p q (done ++ [mkDiffHunk a b c d (prev ++ ls)])
      (Some (0%nat, length done)) (foldl advance cur (map line_type ls)).
Proof.
  unfold Parser.run.
  induction ls as [|l ls IH]; intros p q done a b c d prev cur Hok Hnum.
  - simpl. by rewrite app_nil_r.
  - apply Forall_cons in Hok as [Hl Hls]. simpl in Hnum. injection Hnum as Hn Hns.
    simpl map. simpl foldl.
    rewrite (step_content_line _ 0%nat (length done) l); [|done|done|by destruct cur].
    specialize (IH p q done a b c d (prev ++ [l]) (advance cur (line_type l)) Hls Hns).
    rewrite <- app_assoc in IH. simpl in IH. rewrite <- IH. f_equal.
    unfold one_file_state, Parser.heap_append_line. simpl.
    unfold file_alter_hunk at 1. simpl. rewrite alter_last.
    by destruct cur.
Qed.

Lemma run_cons st line ls :
  Parser.run st (line :: ls) = Parser.run (Parser.step st line) ls.
Proof. reflexivity. Qed.

Lemma run_rendered_hunks (hs : list DiffHunk) : forall p q done cur c,
  Forall hunk_ok hs ->
  exists cur' c',
    Parser.run (one_file_state p q done cur c) (concat (map render_hunk hs))
    = one_file_state p q (done ++ hs) cur' c'.
Proof.
  induction hs as [|h hs IH]; intros p q done cur c Hok.
  - exists cur, c. simpl. by rewrite app_nil_r.
  - apply Forall_cons in Hok as [Hh Hhs].
    change (concat (map render_hunk (h :: hs)))
      with (render_hunk_header h
            :: (map render_line (lines h) ++ concat (map render_hunk hs))).
    rewrite run_cons.
    rewrite (step_header_line _ 0%nat (mkDiffFile p q done) h); [|done|done|done].
    rewrite run_app.
    pose proof Hh as (_ & _ & _ & _ & Hls & Hn).
    pose proof (run_rendered_lines (lines h) p q done
                  (old_start h) (old_count h) (new_start h) (new_count h) []
                  (old_start h, new_start h) Hls Hn) as Hrun.
    destruct (IH p q (done ++ [h]) (Some (0%nat, length done))
                (foldl advance (old_start h, new_start h) (map line_type (lines h))) Hhs)
      as (cur' & c' & Hrest).
    exists cur', c'. rewrite <- app_assoc in Hrest. simpl in Hrest. rewrite <- Hrest.
    f_equal. destruct h as [a b c0 d ls']. simpl in *. rewrite <- Hrun. f_equal.
Qed.

Lemma render_line_no_linebreak (l : DiffLine) :
  line_ok l -> no_linebreak (render_line l) = true.
Proof.
  intros (Hc & _). unfold render_line. rewrite no_linebreak_app, Hc.
  by destruct (line_type l).
Qed.

Lemma render_hunk_header_no_linebreak h :
  hunk_ok h -> no_linebreak (render_hunk_header h) = true.
Proof.
  intros (H1 & H2 & H3 & H4 & _). unfold render_hunk_header.
  rewrite !no_linebreak_app.
  rewrite (all_digits_no_linebreak (PyStr.str_of_int (old_start h)))
    by (by apply str_of_int_digits).
  rewrite (all_digits_no_linebreak (PyStr.str_of_int (old_count h)))
    by (by apply str_of_int_digits).
  rewrite (all_digits_no_linebreak (PyStr.str_of_int (new_start h)))
    by (by apply str_of_int_digits).
  rewrite (all_digits_no_linebreak (PyStr.str_of_int (new_count h)))
    by (by apply str_of_int_digits).
  done.
Qed.

Lemma render_file_lines_no_linebreak f :
  file_ok f -> Forall (fun l => no_linebreak l = true) (render_file_lines f).
Proof.
  intros ([Hp _] & [Hq _] & Hhs). unfold render_file_lines.
  apply Forall_app. split.
  - constructor; [by rewrite no_linebreak_app, Hp|].
    constructor; [by rewrite no_linebreak_app, Hq|constructor].
  - apply Forall_concat. apply Forall_forall. intros ls Hls.
    change (ls ∈ render_hunk <$> hunks f) in Hls.
    apply list_elem_of_fmap in Hls as (h & -> & Hh).
    rewrite Forall_forall in Hhs. specialize (Hhs h Hh).
    unfold render_hunk. constructor; [by apply render_hunk_header_no_linebreak|].
    destruct Hhs as (_ & _ & _ & _ & Hlines & _).
    apply Forall_forall. intros s Hs.
    change (s ∈ render_line <$> lines h) in Hs.
    apply list_elem_of_fmap in Hs as (l & -> & Hl).
    rewrite Forall_forall in Hlines. by apply render_line_no_linebreak, Hlines.
Qed.

Lemma parse_unified_diff_run s :
  parse_unified_diff s = Parser.result (Parser.run Parser.init (PyStr.splitlines s)).
Proof. by destruct s. Qed.

(** A well-formed file whose paths do not start with the stripped prefixes
    is read back from its render. *)
Lemma parse_render_file f :
  file_ok f -> plain_paths f -> parse_unified_diff (render_all [f]) = [f].
Proof.
  intros Hok [Ha Hb]. rewrite parse_unified_diff_run.
  unfold render_all. simpl map. simpl String.concat.
  unfold generate_file_diff. rewrite join_terminated by done.
  rewrite splitlines_lines by (by apply render_file_lines_no_linebreak).
  destruct Hok as (Hp & Hq & Hhs). destruct f as [p q hs].
  cbn [old_path new_path hunks] in Ha, Hb, Hp, Hq, Hhs.
  change (render_file_lines (mkDiffFile p q hs))
    with (("--- " +:+ p) :: ("+++ " +:+ q) :: concat (map render_hunk hs)).
  rewrite !run_cons.
  rewrite step_old_line by done. rewrite (step_new_line _ p q) by done.
  destruct (run_rendered_hunks hs p q [] None (0, 0) Hhs) as (cur' & c' & Hrun).
  change (Parser.run _ (concat (map render_hunk hs)))
    with (Parser.run (one_file_state p q [] None (0, 0)) (concat (map render_hunk hs))).
  by rewrite Hrun.
Qed.

End RoundTrip.

(** C2, as amended.  When the parse of a text has at most one file, and
    the old path of that file does not start with [a/] nor its new path with
    [b/], parsing the render of the parse gives the parse again: the same
    paths, hunk headers, line kinds, contents and line numbers. *)
Theorem parse_render_round_trip (diff_text : string) :
  (length (parse_unified_diff diff_text) <= 1)%nat ->
  Forall plain_paths (parse_unified_diff diff_text) ->
  parse_unified_diff (render_all (parse_unified_diff diff_text))
  = parse_unified_diff diff_text.
Proof.
  intros Hlen Hplain.
  pose proof (parse_ok diff_text) as Hok.
  destruct (parse_unified_diff diff_text) as [|f [|g fs]]; [done| |simpl in Hlen; lia].
  apply Forall_inv in Hplain. apply parse_render_file; [|done].
  apply Hok. by left.
Qed.

Lemma parse_render_round_trip_witness :
  (length (parse_unified_diff scenario_diff) <= 1)%nat /\
  Forall plain_paths (parse_unified_diff scenario_diff) /\
  parse_unified_diff (render_all (parse_unified_diff scenario_diff))
  = parse_unified_diff scenario_diff.
Proof.
  assert ((length (parse_unified_diff scenario_diff) <= 1)%nat) as H1
    by (vm_compute; lia).
  assert (Forall plain_paths (parse_unified_diff scenario_diff)) as H2
    by (vm_compute; repeat constructor).
  split; [done|]. split; [done|].
  apply (parse_render_round_trip scenario_diff H1 H2).
Defined.

(** C2 as stated fails.  The render has no [diff --git] lines, so of the
    two files of a git diff only the last is read back. *)
Lemma parse_render_loses_files :
  map model_view (parse_unified_diff (render_all (parse_unified_diff two_file_diff)))
  <> map model_view (parse_unified_diff two_file_diff).
Proof. vm_compute. discriminate. Qed.

(** The render also drops the [a/] and [b/] of the path lines, so a path
    that starts with [a/] loses it when it is read back. *)
Example parse_render_strips_prefix :
  let d := "--- a/a/x" +:+ nl +:+ "+++ b/a/x" +:+ nl in
  parse_unified_diff d = [mkDiffFile "a/x" "a/x" []] /\
  parse_unified_diff (render_all (parse_unified_diff d)) = [mkDiffFile "x" "a/x" []].
Proof. by vm_compute. Qed.

(** ** Worked examples *)

(** The parsing scenario of the specification. *)
Example parse_scenario :
  parse_unified_diff scenario_diff
  = [mkDiffFile "x.py" "x.py"
       [mkDiffHunk 1 2 1 3
          [mkDiffLine "a" context (Some 1) (Some 1);
           mkDiffLine "b" addition None (Some 2);
           mkDiffLine "c" context (Some 2) (Some 3)]]].
Proof. by vm_compute. Qed.

Example parse_empty : parse_unified_diff "" = [].
Proof. reflexivity. Qed.

(** Counts left out of a hunk header are 1; what follows the closing [@@]
    is ignored, and so is a line that is no addition, deletion or context. *)
Example parse_default_counts :
  parse_unified_diff
    ("--- a/f" +:+ nl +:+ "+++ b/f" +:+ nl +:+ "@@ -3 +4 @@ def g():" +:+ nl +:+
     "-x" +:+ nl +:+ "\ No newline at end of file" +:+ nl +:+ "+y")
  = [mkDiffFile "f" "f"
       [mkDiffHunk 3 1 4 1
          [mkDiffLine "x" deletion (Some 3) None;
           mkDiffLine "y" addition None (Some 4)]]].
Proof. by vm_compute. Qed.

(** A [+++] line while a file is current starts a new file; the hunk of the
    earlier file stays current, so the lines that follow go to the earlier,
    dropped file. *)
Example parse_replaced_file :
  parse_unified_diff
    ("--- a/f" +:+ nl +:+ "+++ b/f" +:+ nl +:+ "@@ -1 +1 @@" +:+ nl +:+ "+x" +:+ nl +:+
     "+++ b/g" +:+ nl +:+ "+y" +:+ nl)
  = [mkDiffFile "f" "g" []].
Proof. by vm_compute. Qed.

Example splitlines_cases :
  PyStr.splitlines ("ab" +:+ nl) = ["ab"] /\
  PyStr.splitlines ("ab" +:+ nl +:+ nl) = ["ab"; ""] /\
  PyStr.splitlines (String "a" (String "013" (String "010" "b"))) = ["a"; "b"] /\
  PyStr.splitlines (String "a" (String "010" (String "013" "b"))) = ["a"; ""; "b"] /\
  PyStr.splitlines "ab" = ["ab"].
Proof. by vm_compute. Qed.

Example language_cases :
  get_language_from_path "src/Main.JAVA" = Some "java" /\
  get_language_from_path "Dockerfile" = Some "dockerfile" /\
  get_language_from_path "dir/Dockerfile" = None /\
  get_language_from_path "a.tar.yml" = Some "yaml" /\
  get_language_from_path "README" = None.
Proof. by vm_compute. Qed.

(** Thinning a hunk of a leading context run of three lines, a change, an
    inner context run of three lines, a change and a trailing context line. *)
Example essential_lines_case :
  let ctx s := mkDiffLine s context None None in
  let add s := mkDiffLine s addition None None in
  essential_lines
    [ctx "1"; ctx "2"; ctx "3"; add "a"; ctx "4"; ctx "5"; ctx "6"; add "b"; ctx "7"]
  = [ctx "1"; ctx "2"; add "a"; ctx "4"; ctx "6"; add "b"; ctx "7"].
Proof. by vm_compute. Qed.

(** Two files under a chunk size that holds only one of them. *)
Example chunk_case :
  map files (chunk_diff_by_files two_file_diff 60) = [["x.py"]; ["y.py"]] /\
  map language (chunk_diff_by_files two_file_diff 60) = [Some "python"; Some "python"] /\
  map files (chunk_diff_by_files two_file_diff 8000) = [["x.py"; "y.py"]].
Proof. by vm_compute. Qed.

(** ** More on the chunker *)

Section ChunkSizes.

Variable max_chunk_size : Z.

Implicit Types (g ps : list DiffFile) (f : DiffFile) (groups : list (list DiffFile)).

Lemma render_all_app g1 g2 : render_all (g1 ++ g2) = render_all g1 +:+ render_all g2.
Proof. unfold render_all. by rewrite map_app, concat_empty_app. Qed.

Lemma render_all_concat groups :
  render_all (concat groups) = String.concat "" (map render_all groups).
Proof.
  induction groups as [|g groups IH]; [done|].
  change (concat (g :: groups)) with (g ++ concat groups).
  rewrite render_all_app. simpl map. by rewrite concat_empty_cons, IH.
Qed.

Lemma len_render_all_snoc g f :
  len (render_all (g ++ [f])) = len (render_all g) + len (generate_file_diff f) + 1.
Proof. rewrite render_all_snoc, !len_app. unfold len at 3. simpl. lia. Qed.

Lemma greedy_snoc groups g g' :
  greedy max_chunk_size (groups ++ [g]) ->
  (forall f g2, g' = f :: g2 ->
     max_chunk_size < len (render_all g) + len (generate_file_diff f)) ->
  greedy max_chunk_size ((groups ++ [g]) ++ [g']).
Proof.
  intros Hgr Hlast i g1 f g2 H1 H2.
  destruct (decide (S i < length (groups ++ [g]))%nat) as [Hlt|Hge].
  - rewrite lookup_app_l in H1 by lia. rewrite lookup_app_l in H2 by lia. eauto.
  - assert (S i = length (groups ++ [g])) as Hi.
    { apply lookup_lt_Some in H2. rewrite length_app in H2. simpl in H2. lia. }
    rewrite lookup_app_l in H1 by lia.
    rewrite lookup_app_r in H2 by lia.
    replace (S i - length (groups ++ [g]))%nat with 0%nat in H2 by lia.
    simpl in H2. injection H2 as ->.
    rewrite length_app in Hi. simpl in Hi.
    rewrite lookup_app_r in H1 by lia.
    replace (i - length groups)%nat with 0%nat in H1 by lia.
    simpl in H1. injection H1 as <-. by eapply Hlast.
Qed.

Lemma greedy_grow groups f0 g f :
  greedy max_chunk_size (groups ++ [f0 :: g]) ->
  greedy max_chunk_size (groups ++ [(f0 :: g) ++ [f]]).
Proof.
  intros Hgr i g1 f1 g2 H1 H2.
  destruct (decide (S i < length groups)%nat) as [Hlt|Hge].
  - rewrite lookup_app_l in H1 by lia. rewrite lookup_app_l in H2 by lia.
    apply (Hgr i g1 f1 g2); by rewrite lookup_app_l by lia.
  - assert (S i = length groups) as Hi.
    { apply lookup_lt_Some in H2. rewrite length_app in H2. simpl in H2. lia. }
    rewrite lookup_app_l in H1 by lia.
    rewrite lookup_app_r in H2 by lia.
    replace (S i - length groups)%nat with 0%nat in H2 by lia.
    simpl in H2. injection H2 as <- <-.
    apply (Hgr i g1 f0 g).
    + by rewrite lookup_app_l by lia.
    + rewrite lookup_app_r by lia. by replace (S i - length groups)%nat with 0%nat by lia.
Qed.

Lemma chunk_step_sizes ps st f :
  chunk_sizes_inv max_chunk_size ps st ->
  chunk_sizes_inv max_chunk_size (ps ++ [f]) (chunk_step max_chunk_size st f).
Proof.
  destruct st as [[chunks cur] cfiles]. unfold chunk_sizes_inv, chunk_step.
  intros (groups & g & -> & Hne & -> & -> & -> & Hstart & Hsize & Hgr).
  destruct ((max_chunk_size <? len (render_all g) + len (generate_file_diff f))
            && negb (String.eqb (render_all g) "")) eqn:Hcond.
  - (* the buffer is closed *)
    apply andb_true_iff in Hcond as [Hover Hcur].
    apply Z.ltb_lt in Hover.
    apply negb_true_iff, String.eqb_neq in Hcur.
    exists (groups ++ [g]), [f].
    split; [|split; [|split; [|split; [|split; [|split; [|split]]]]]].
    + rewrite concat_app. simpl. by rewrite app_nil_r, <- app_assoc.
    + apply Forall_app. split; [done|]. constructor; [|done]. by intros ->.
    + by rewrite map_app.
    + done.
    + done.
    + done.
    + intros g' Hg' Hlen. apply elem_of_cons in Hg' as [->|Hg']; [simpl in Hlen; lia|].
      apply Hsize; [|done].
      apply elem_of_app in Hg' as [Hg'|Hg']; [by right|].
      apply list_elem_of_singleton in Hg'. subst. by left.
    + apply greedy_snoc; [done|]. by intros f' g2 [= <- <-].
  - (* the file joins the buffer *)
    exists groups, (g ++ [f]).
    split; [|split; [|split; [|split; [|split; [|split; [|split]]]]]].
    + by rewrite app_assoc.
    + done.
    + done.
    + by rewrite render_all_snoc.
    + by rewrite map_app.
    + intros Hnil. by destruct g.
    + intros g' Hg' Hlen.
      apply elem_of_cons in Hg' as [->|Hg']; [|apply Hsize; [by right|done]].
      rewrite len_render_all_snoc.
      apply andb_false_iff in Hcond as [Hcond|Hcond].
      * apply Z.ltb_ge in Hcond. lia.
      * apply negb_false_iff, String.eqb_eq, render_all_empty in Hcond. subst g.
        simpl in Hlen. lia.
    + destruct g as [|f0 g].
      * rewrite (Hstart eq_refl). intros [|i] g1 f1 g2 H1 H2; simpl in *; done.
      * by apply greedy_grow.
Qed.

Lemma chunk_sizes_foldl ps2 : forall ps1 st,
  chunk_sizes_inv max_chunk_size ps1 st ->
  chunk_sizes_inv max_chunk_size (ps1 ++ ps2) (foldl (chunk_step max_chunk_size) st ps2).
Proof.
  induction ps2 as [|f ps2 IH]; intros ps1 st Hinv; simpl.
  - by rewrite app_nil_r.
  - replace (ps1 ++ f :: ps2) with ((ps1 ++ [f]) ++ ps2) by (by rewrite <- app_assoc).
    apply IH. by apply chunk_step_sizes.
Qed.

(** The groups behind the chunks, with their sizes. *)
Lemma chunk_files_sizes ps :
  exists groups,
    concat groups = ps /\
    Forall (fun g => g <> []) groups /\
    chunk_files max_chunk_size ps = map chunk_of groups /\
    (forall g, g ∈ groups -> (2 <= length g)%nat ->
       len (render_all g) <= max_chunk_size + 1) /\
    greedy max_chunk_size groups.
Proof.
  unfold chunk_files.
  pose proof (chunk_sizes_foldl ps [] ([], "", [])) as Hinv.
  destruct (foldl (chunk_step max_chunk_size) ([], "", []) ps) as [[chunks cur] cfiles].
  destruct Hinv as (groups & g & Hps & Hne & -> & -> & -> & Hstart & Hsize & Hgr).
  { exists [], []. do 6 (split; [done|]). split.
    - intros g Hg Hlen. apply list_elem_of_singleton in Hg. subst. simpl in Hlen. lia.
    - intros [|i] g1 f1 g2 H1 H2; simpl in *; done. }
  simpl in Hps. subst ps.
  destruct (String.eqb_spec (render_all g) "") as [Hcur|Hcur].
  - apply render_all_empty in Hcur. subst g. rewrite (Hstart eq_refl).
    exists []. do 3 (split; [done|]). split.
    + intros g Hg. inversion Hg.
    + intros i g1 f1 g2 H1. done.
  - exists (groups ++ [g]). split; [|split; [|split; [|split]]].
    + rewrite concat_app. simpl. by rewrite app_nil_r.
    + apply Forall_app. split; [done|]. constructor; [|done]. by intros ->.
    + by rewrite map_app.
    + intros g' Hg'. apply Hsize.
      apply elem_of_app in Hg' as [Hg'|Hg']; [by right|].
      apply list_elem_of_singleton in Hg'. subst. by left.
    + done.
Qed.

End ChunkSizes.

(** X1.  The texts of the chunks, put end to end, are the render of all
    the parsed files: chunking loses no text and adds none. *)
Theorem chunk_text_coverage (diff_text : string) (max_chunk_size : Z) :
  String.concat "" (map diff (chunk_diff_by_files diff_text max_chunk_size))
  = render_all (parse_unified_diff diff_text).
Proof.
  unfold chunk_diff_by_files.
  destruct (chunk_files_groups max_chunk_size (parse_unified_diff diff_text))
    as (groups & Hcat & _ & -> & _).
  rewrite <- Hcat, render_all_concat, map_map. done.
Qed.

(** X2.  A chunk that holds two or more files is at most
    [max_chunk_size + 1] characters long: the files went in within the limit
    and the newline after the last one is not counted by the test. *)
Theorem chunk_size_bound (diff_text : string) (max_chunk_size : Z) :
  Forall (fun c => (2 <= length (files c))%nat -> len (diff c) <= max_chunk_size + 1)
    (chunk_diff_by_files diff_text max_chunk_size).
Proof.
  unfold chunk_diff_by_files.
  destruct (chunk_files_sizes max_chunk_size (parse_unified_diff diff_text))
    as (groups & _ & _ & -> & Hsize & _).
  apply Forall_forall. intros c Hc.
  change (c ∈ chunk_of <$> groups) in Hc.
  apply list_elem_of_fmap in Hc as (g & -> & Hg). simpl.
  rewrite length_map. by apply Hsize.
Qed.

(** X3.  The chunker is greedy: a chunk is closed only when the next file
    would not fit, so the text of a chunk and the render of the first file
    of the chunk after it are together longer than [max_chunk_size]. *)
Theorem chunk_greedy (diff_text : string) (max_chunk_size : Z) :
  exists groups : list (list DiffFile),
    concat groups = parse_unified_diff diff_text /\
    chunk_diff_by_files diff_text max_chunk_size = map chunk_of groups /\
    forall i g1 f g2,
      groups !! i = Some g1 -> groups !! S i = Some (f :: g2) ->
      max_chunk_size < len (diff (chunk_of g1)) + len (generate_file_diff f).
Proof.
  unfold chunk_diff_by_files.
  destruct (chunk_files_sizes max_chunk_size (parse_unified_diff diff_text))
    as (groups & Hcat & _ & Hch & _ & Hgr).
  exists groups. split; [done|]. split; [done|]. exact Hgr.
Qed.

(** X4.  When the render of all the parsed files is at most
    [max_chunk_size + 1] characters long and there is a file, there is one
    chunk, and it holds all the files. *)
Theorem chunk_single (diff_text : string) (max_chunk_size : Z) :
  parse_unified_diff diff_text <> [] ->
  len (render_all (parse_unified_diff diff_text)) <= max_chunk_size + 1 ->
  chunk_diff_by_files diff_text max_chunk_size = [chunk_of (parse_unified_diff diff_text)].
Proof.
  intros Hne Hlen. unfold chunk_diff_by_files.
  destruct (chunk_files_sizes max_chunk_size (parse_unified_diff diff_text))
    as (groups & Hcat & Hnonempty & -> & _ & Hgr).
  destruct groups as [|g1 [|g2 groups]].
  - simpl in Hcat. congruence.
  - simpl in Hcat. rewrite app_nil_r in Hcat. by subst.
  - exfalso. rewrite <- Hcat in Hlen. clear Hne Hcat.
    change (concat (g1 :: g2 :: groups)) with (g1 ++ g2 ++ concat groups) in Hlen.
    destruct g2 as [|f g2].
    + apply Forall_cons in Hnonempty as [_ Hnonempty].
      by apply Forall_cons in Hnonempty as [? _].
    + specialize (Hgr 0%nat g1 f g2 eq_refl eq_refl).
      change (f :: g2) with ([f] ++ g2) in Hlen.
      rewrite !render_all_app, !len_app in Hlen.
      pose proof (len_render_all_snoc [] f) as Hf. simpl app in Hf.
      change (len (render_all [])) with 0 in Hf.
      pose proof (len_nonneg (render_all g2)).
      pose proof (len_nonneg (render_all (concat groups))).
      lia.
Qed.

Lemma chunk_single_witness :
  parse_unified_diff two_file_diff <> [] /\
  len (render_all (parse_unified_diff two_file_diff)) <= 8000 + 1 /\
  chunk_diff_by_files two_file_diff 8000 = [chunk_of (parse_unified_diff two_file_diff)].
Proof.
  assert (parse_unified_diff two_file_diff <> []) as H1 by (by vm_compute).
  assert (len (render_all (parse_unified_diff two_file_diff)) <= 8000 + 1) as H2
    by (by vm_compute).
  split; [done|]. split; [done|]. apply (chunk_single two_file_diff 8000 H1 H2).
Defined.

(** ** More on context thinning *)

Section ThinningMore.

Implicit Types (ls : list DiffLine) (b : Block) (bs : list Block).

Lemma keep_block_sublist n i b :
  keep_block n i b `sublist_of` block_lines b.
Proof.
  unfold keep_block. destruct (block_type b) as [[]|]; try done.
  - destruct ((Z.of_nat i =? 0) || (Z.of_nat i =? Z.of_nat n - 1)); [apply sublist_take|].
    destruct (length (block_lines b) <=? 2)%nat eqn:Hlen; [done|].
    apply Nat.leb_gt in Hlen.
    destruct (block_lines b) as [|first rest] eqn:Hb; [done|].
    destruct (last (first :: rest)) as [final|] eqn:Hlast; [|apply sublist_nil_l].
    apply sublist_skip. apply singleton_sublist_l.
    destruct rest as [|x rest]; [simpl in Hlen; lia|].
    rewrite last_cons_cons in Hlast. by apply last_Some_elem_of.
  - apply sublist_nil_l.
Qed.

Lemma concat_imap_sublist (f : nat -> Block -> list DiffLine) bs :
  (forall i b, bs !! i = Some b -> f i b `sublist_of` block_lines b) ->
  concat (imap f bs) `sublist_of` concat (map block_lines bs).
Proof.
  revert f. induction bs as [|b bs IH]; intros f Hf; [done|].
  rewrite imap_cons. simpl. apply sublist_app; [by apply (Hf 0%nat)|].
  apply IH. intros i b' Hb'. by apply (Hf (S i)).
Qed.

(** From a typed block on, lines of the block's type only make it longer. *)
Lemma foldl_block_step_same k (xs : list DiffLine) : forall cb (l0 : list DiffLine),
  Forall (fun l => line_type l = k) xs ->
  foldl block_step (cb, mkBlock (Some k) l0) xs = (cb, mkBlock (Some k) (l0 ++ xs)).
Proof.
  induction xs as [|x xs IH]; intros cb l0 Hxs; simpl.
  - by rewrite app_nil_r.
  - apply Forall_cons in Hxs as [Hx Hxs].
    rewrite decide_False by (intros H; apply H; by rewrite Hx).
    simpl. rewrite IH by done. by rewrite <- app_assoc.
Qed.

(** The loop over the lines of one well-formed block of another type than
    the current one closes the current block and ends with that block. *)
Lemma foldl_block_step_block cb cur b :
  block_ok b -> block_type cur <> block_type b ->
  foldl block_step (cb, cur) (block_lines b) = (push_block cb cur, b).
Proof.
  intros [Hne (k & Hk & Hall)] Hdiff. destruct b as [ty ls]. simpl in *. subst ty.
  destruct ls as [|x xs]; [done|]. apply Forall_cons in Hall as [Hx Hxs].
  simpl. rewrite decide_True by (rewrite Hx; congruence).
  rewrite Hx. by rewrite foldl_block_step_same.
Qed.

Lemma push_block_ok cb b : block_ok b -> push_block cb b = cb ++ [b].
Proof. intros [Hne _]. unfold push_block. by destruct (block_lines b). Qed.

Lemma blocks_run bs : forall cb cur,
  Forall block_ok bs -> alternating (cur :: bs) ->
  push_block (foldl block_step (cb, cur) (concat (map block_lines bs))).1
             (foldl block_step (cb, cur) (concat (map block_lines bs))).2
  = push_block cb cur ++ bs.
Proof.
  induction bs as [|b bs IH]; intros cb cur Hok Halt.
  - simpl. by rewrite app_nil_r.
  - apply Forall_cons in Hok as [Hb Hbs]. simpl. rewrite foldl_app.
    rewrite foldl_block_step_block; [|done|by apply (Halt 0%nat)].
    rewrite IH; [|done|].
    + rewrite push_block_ok by done. by rewrite <- app_assoc.
    + intros i b1 b2 H1 H2. by apply (Halt (S i)).
Qed.

(** The maximal runs of a list of lines are what the loop computes. *)
Lemma split_blocks_unique bs ls : maximal_runs bs ls -> split_blocks ls = bs.
Proof.
  intros (<- & Hok & Halt). unfold split_blocks.
  pose proof (blocks_run bs [] (mkBlock None []) Hok) as Hrun.
  destruct (foldl block_step ([], mkBlock None []) (concat (map block_lines bs)))
    as [cb cur]. simpl in Hrun. apply Hrun.
  intros [|i] b1 b2 H1 H2; simpl in *.
  - injection H1 as <-. simpl.
    rewrite Forall_forall in Hok. destruct (Hok b2) as [_ (k & -> & _)]; [|done].
    by eapply list_elem_of_lookup_2.
  - by apply (Halt i).
Qed.

Lemma keep_block_nonempty n i b : block_ok b -> keep_block n i b <> [].
Proof.
  intros [Hne (k & Hk & _)]. unfold keep_block. rewrite Hk.
  destruct k; [|done|done].
  destruct ((Z.of_nat i =? 0) || (Z.of_nat i =? Z.of_nat n - 1)).
  { by destruct (block_lines b) as [|x [|y l]]. }
  destruct (length (block_lines b) <=? 2)%nat; [done|].
  destruct (block_lines b) as [|x l] eqn:Hl; [done|].
  destruct (last (x :: l)) eqn:Hlast; [done|]. by apply last_None in Hlast.
Qed.

Lemma kept_block_ok n i b : block_ok b -> block_ok (kept_block n i b).
Proof.
  intros Hb. split; [by apply keep_block_nonempty|].
  destruct Hb as [_ (k & Hk & Hall)]. exists k. split; [done|]. simpl.
  rewrite Forall_forall in Hall. apply Forall_forall. intros l Hl.
  apply Hall. eapply elem_of_sublist; [exact Hl|]. apply keep_block_sublist.
Qed.

Lemma keep_block_kept n i b : keep_block n i (kept_block n i b) = keep_block n i b.
Proof.
  unfold kept_block, keep_block at 1. simpl. unfold keep_block.
  destruct (block_type b) as [[]|]; try done.
  destruct ((Z.of_nat i =? 0) || (Z.of_nat i =? Z.of_nat n - 1)).
  { by destruct (block_lines b) as [|x [|y [|z l]]]. }
  destruct (length (block_lines b) <=? 2)%nat eqn:Hlen; [by rewrite Hlen|].
  destruct (block_lines b) as [|x l]; [done|].
  by destruct (last (x :: l)).
Qed.

(** The blocks of the thinned lines are the thinned blocks. *)
Lemma split_blocks_essential ls :
  split_blocks (essential_lines ls)
  = imap (kept_block (length (split_blocks ls))) (split_blocks ls).
Proof.
  destruct (split_blocks_runs ls) as (_ & Hok & Halt).
  apply split_blocks_unique. split; [|split].
  - unfold essential_lines.
    change (map block_lines ?l) with (block_lines <$> l). by rewrite fmap_imap.
  - apply Forall_forall. intros b Hb.
    apply list_elem_of_lookup in Hb as [i Hb].
    rewrite list_lookup_imap in Hb.
    destruct (split_blocks ls !! i) as [b0|] eqn:Hb0; [|done].
    simpl in Hb. injection Hb as <-. apply kept_block_ok.
    rewrite Forall_forall in Hok. apply Hok. by eapply list_elem_of_lookup_2.
  - intros i b1 b2 H1 H2. rewrite list_lookup_imap in H1, H2.
    destruct (split_blocks ls !! i) as [c1|] eqn:Hc1; [|done].
    destruct (split_blocks ls !! S i) as [c2|] eqn:Hc2; [|done].
    simpl in H1, H2. injection H1 as <-. injection H2 as <-. simpl. by eapply Halt.
Qed.

End ThinningMore.

(** X5.  The lines thinning keeps are lines of the hunk, in their order:
    thinning only drops lines, it adds none and moves none. *)
Theorem thinning_drops_only (ls : list DiffLine) :
  essential_lines ls `sublist_of` ls.
Proof.
  destruct (split_blocks_runs ls) as (Hcat & _ & _).
  pose proof (concat_imap_sublist (keep_block (length (split_blocks ls))) (split_blocks ls))
    as Hsub.
  rewrite Hcat in Hsub. apply Hsub. intros i b _. apply keep_block_sublist.
Qed.

(** X6.  Thinning a hunk twice is thinning it once. *)
Theorem thinning_idempotent (ls : list DiffLine) :
  essential_lines (essential_lines ls) = essential_lines ls.
Proof.
  unfold essential_lines at 1. rewrite split_blocks_essential, length_imap.
  unfold essential_lines. f_equal.
  apply list_eq. intros i. rewrite !list_lookup_imap.
  destruct (split_blocks ls !! i) as [b|]; [|done].
  simpl. by rewrite keep_block_kept.
Qed.

(** X7.  Thinning keeps the runs of a hunk: the thinned lines fall into as
    many maximal runs, of the same kinds in the same order, so no run goes
    away and no two runs of changes come together; and a context run of the
    thinned lines has at most two lines. *)
Theorem thinning_keeps_runs (ls : list DiffLine) :
  map block_type (split_blocks (essential_lines ls)) = map block_type (split_blocks ls) /\
  Forall (fun b => block_type b = Some context -> (length (block_lines b) <= 2)%nat)
    (split_blocks (essential_lines ls)).
Proof.
  rewrite split_blocks_essential. split.
  - change (map block_type ?l) with (block_type <$> l). rewrite fmap_imap.
    apply list_eq. intros i. rewrite list_lookup_imap, list_lookup_fmap.
    by destruct (split_blocks ls !! i).
  - apply Forall_forall. intros b Hb. apply list_elem_of_lookup in Hb as [i Hb].
    rewrite list_lookup_imap in Hb.
    destruct (split_blocks ls !! i) as [b0|]; [|done].
    simpl in Hb. injection Hb as <-. simpl. intros Hc.
    unfold keep_block. rewrite Hc.
    destruct ((Z.of_nat i =? 0) || (Z.of_nat i =? Z.of_nat (length (split_blocks ls)) - 1)).
    { rewrite length_take. lia. }
    destruct (length (block_lines b0) <=? 2)%nat eqn:Hlen; [by apply Nat.leb_le|].
    destruct (block_lines b0) as [|x l]; [simpl; lia|].
    destruct (last (x :: l)); simpl; lia.
Qed.

(** ** Ranking and thinning *)

Section RankingMore.

Implicit Types (f : DiffFile) (fs : list DiffFile) (l : list (DiffFile * Z)).

Lemma change_lines_concat (hs : list DiffHunk) :
  filter (fun x => is_change x = true) (concat (map lines (map reduce_hunk hs)))
  = filter (fun x => is_change x = true) (concat (map lines hs)).
Proof.
  induction hs as [|h hs IH]; [done|].
  simpl. rewrite !filter_app, IH. f_equal. apply essential_lines_changes.
Qed.

Lemma change_count_reduce_file f : change_count (reduce_file f) = change_count f.
Proof. unfold change_count. simpl. by rewrite change_lines_concat. Qed.

Lemma insert_by_relevance_map (g : DiffFile -> DiffFile) x l :
  insert_by_relevance (g x.1, x.2) (map (fun a => (g a.1, a.2)) l)
  = map (fun a => (g a.1, a.2)) (insert_by_relevance x l).
Proof.
  induction l as [|y l IH]; [done|]. simpl.
  destruct (x.2 <? y.2); simpl; [by rewrite IH|done].
Qed.

Lemma sort_by_relevance_map (g : DiffFile -> DiffFile) l :
  sort_by_relevance (map (fun a => (g a.1, a.2)) l)
  = map (fun a => (g a.1, a.2)) (sort_by_relevance l).
Proof.
  induction l as [|x l IH]; [done|]. simpl.
  by rewrite IH, insert_by_relevance_map.
Qed.

End RankingMore.

(** X8.  Thinning leaves the number of changes of every file as it is, so
    ranking the thinned files gives the order ranking the parsed files
    would: the ranked thinned files are the thinned ranked files. *)
Theorem thinning_commutes_with_ranking (fs : list DiffFile) :
  map change_count (reduce_context fs) = map change_count fs /\
  map fst (rank_files (reduce_context fs)) = reduce_context (map fst (rank_files fs)).
Proof.
  split.
  - unfold reduce_context. rewrite map_map. apply map_ext. apply change_count_reduce_file.
  - unfold rank_files, reduce_context. rewrite map_map.
    rewrite (map_ext _ (fun f => (reduce_file (f, change_count f).1, (f, change_count f).2)))
      by (intros f; simpl; by rewrite change_count_reduce_file).
    rewrite <- (map_map (fun f => (f, change_count f))
                        (fun a => (reduce_file a.1, a.2))).
    rewrite sort_by_relevance_map. by rewrite !map_map.
Qed.

(** ** More on the parser and the serializer *)

Section ParserMore.

Implicit Types (s line : string) (st : Parser.state) (f : DiffFile).

Lemma before_char_no_char (c : ascii) s :
  PyStr.before_char c s = s -> PyStr.contains (String c "") s = false.
Proof.
  induction s as [|a s IH]; [done|]. simpl.
  destruct (Ascii.eqb a c) eqn:Hac; [done|]. intros [= Hs].
  unfold PyStr.startswith. simpl. rewrite Ascii.eqb_sym, Hac. by apply IH.
Qed.

Lemma path_match_prefix marker pre line :
  Parser.path_match marker pre line = None -> PyStr.strip_prefix marker line = None.
Proof.
  unfold Parser.path_match. by destruct (PyStr.strip_prefix marker line).
Qed.

Lemma line_ok_content (l : DiffLine) :
  line_ok l ->
  (line_type l = deletion -> PyStr.startswith (content l) "-- " = false) /\
  (line_type l = addition -> PyStr.startswith (content l) "++ " = false).
Proof.
  intros (_ & Hom & Hnm).
  unfold render_line, Parser.old_file_match, Parser.new_file_match in *.
  split; intros Hk; rewrite Hk in *; simpl line_prefix in *.
  - apply path_match_prefix in Hom. unfold PyStr.startswith.
    change (PyStr.strip_prefix "--- " ("-" +:+ content l))
      with (PyStr.strip_prefix "-- " (content l)) in Hom. by rewrite Hom.
  - apply path_match_prefix in Hnm. unfold PyStr.startswith.
    change (PyStr.strip_prefix "+++ " ("+" +:+ content l))
      with (PyStr.strip_prefix "++ " (content l)) in Hnm. by rewrite Hnm.
Qed.

Lemma splitlines_single line :
  no_linebreak line = true -> line <> "" -> PyStr.splitlines line = [line].
Proof.
  induction line as [|c line IH]; [done|]. intros Hl _.
  simpl in Hl. apply andb_true_iff in Hl as [Hc Hl]. apply negb_true_iff in Hc.
  simpl. rewrite Hc. destruct line as [|c' line]; [done|].
  by rewrite IH.
Qed.

(** Lines without line boundaries, the last one not empty, are what
    [splitlines] makes of their join. *)
Lemma splitlines_join (ls : list string) :
  Forall (fun l => no_linebreak l = true) ls ->
  (forall l, last ls = Some l -> l <> "") ->
  ls <> [] ->
  PyStr.splitlines (PyStr.join nl ls) = ls.
Proof.
  unfold PyStr.join. induction ls as [|l ls IH]; [done|]. intros Hls Hlast _.
  apply Forall_cons in Hls as [Hl Hls].
  destruct ls as [|l' ls].
  - simpl. apply splitlines_single; [done|]. by apply Hlast.
  - change (String.concat nl (l :: l' :: ls)) with (l +:+ nl +:+ String.concat nl (l' :: ls)).
    rewrite splitlines_terminated by done. f_equal. apply IH; [done| |done].
    intros x Hx. apply Hlast. by rewrite last_cons_cons.
Qed.

Lemma render_file_lines_nonempty f :
  Forall (fun l => l <> "") (render_file_lines f).
Proof.
  unfold render_file_lines. apply Forall_app. split; [by repeat constructor|].
  apply Forall_concat. apply Forall_forall. intros ls Hls.
  change (ls ∈ render_hunk <$> hunks f) in Hls.
  apply list_elem_of_fmap in Hls as (h & -> & _).
  unfold render_hunk. constructor; [done|].
  apply Forall_forall. intros s0 Hs.
  change (s0 ∈ render_line <$> lines h) in Hs.
  apply list_elem_of_fmap in Hs as (l & -> & _).
  unfold render_line. by destruct (line_type l).
Qed.

End ParserMore.

(** X9.  The files a parse returns are well formed: their paths hold no tab
    and no line boundary, the four numbers of every hunk are not negative,
    and the content of every line holds no line boundary. *)
Theorem parse_files_well_formed (diff_text : string) :
  Forall (fun f =>
    has_tab (old_path f) = false /\ no_linebreak (old_path f) = true /\
    has_tab (new_path f) = false /\ no_linebreak (new_path f) = true /\
    Forall (fun h =>
      0 <= old_start h /\ 0 <= old_count h /\ 0 <= new_start h /\ 0 <= new_count h /\
      Forall (fun l => no_linebreak (content l) = true) (lines h))
      (hunks f))
    (parse_unified_diff diff_text).
Proof.
  apply Forall_forall. intros f Hf.
  destruct (parse_ok _ _ Hf) as ([Hp1 Hp2] & [Hq1 Hq2] & Hhs).
  split; [by apply before_char_no_char|]. split; [done|].
  split; [by apply before_char_no_char|]. split; [done|].
  eapply Forall_impl; [exact Hhs|].
  intros h (H1 & H2 & H3 & H4 & Hls & _). do 4 (split; [done|]).
  eapply Forall_impl; [exact Hls|]. by intros l (Hc & _).
Qed.

(** X10.  A line of the text that starts with [--- ] or [+++ ] is read as
    a path header even inside a hunk, so no deletion a parse returns has a
    content that starts with [-- ], and no addition one that starts with
    [++ ]. *)
Theorem parse_never_keeps_header_like_lines (diff_text : string) :
  Forall (fun f =>
    Forall (fun h =>
      Forall (fun l =>
        (line_type l = deletion -> PyStr.startswith (content l) "-- " = false) /\
        (line_type l = addition -> PyStr.startswith (content l) "++ " = false))
        (lines h))
      (hunks f))
    (parse_unified_diff diff_text).
Proof.
  apply Forall_forall. intros f Hf.
  destruct (parse_ok _ _ Hf) as (_ & _ & Hhs).
  eapply Forall_impl; [exact Hhs|].
  intros h (_ & _ & _ & _ & Hls & _).
  eapply Forall_impl; [exact Hls|]. apply line_ok_content.
Qed.

(** X11.  The render of a parsed file splits into the lines it was made
    of: the two path lines, then every hunk's header followed by its lines.
    No path and no content breaks a line or makes one disappear. *)
Theorem render_lines_of_parsed_file (diff_text : string) :
  Forall (fun f => PyStr.splitlines (generate_file_diff f) = render_file_lines f)
    (parse_unified_diff diff_text).
Proof.
  apply Forall_forall. intros f Hf.
  pose proof (parse_ok _ _ Hf) as Hok.
  unfold generate_file_diff. apply splitlines_join.
  - by apply render_file_lines_no_linebreak.
  - intros l Hl. pose proof (render_file_lines_nonempty f) as Hne.
    rewrite Forall_forall in Hne. apply Hne. by apply last_Some_elem_of.
  - done.
Qed.

(** X12.  The effective path of a file is [/dev/null] only when both of
    its paths are. *)
Theorem get_path_dev_null (f : DiffFile) :
  get_path f = "/dev/null" <-> old_path f = "/dev/null" /\ new_path f = "/dev/null".
Proof.
  unfold get_path. destruct (String.eqb_spec (new_path f) "/dev/null") as [Heq|Hne].
  - split; [by intros ->|by intros [-> _]].
  - split; [intros Hn; by rewrite Hn in Hne|by intros [_ Hn]].
Qed.

(** *** Reading back the render of several files *)

Section ReadingBack.

Implicit Types (f : DiffFile) (fs pre : list DiffFile) (st : Parser.state).

Lemma run_lines_reading (xs : list DiffLine) : forall pre p q done a b c d prev cur,
  Forall line_ok xs ->
  map line_numbers xs = replay cur (map line_type xs) ->
  Parser.run
    (reading_state pre p q (done ++ [mkDiffHunk a b c d prev])
       (Some (length pre, length done)) cur)
    (map render_line xs)
  = reading_state pre p q (done ++ [mkDiffHunk a b c d (prev ++ xs)])
      (Some (length pre, length done)) (foldl advance cur (map line_type xs)).
Proof.
  unfold Parser.run.
  induction xs as [|l xs IH]; intros pre p q done a b c d prev cur Hok Hnum.
  - simpl. by rewrite app_nil_r.
  - apply Forall_cons in Hok as [Hl Hls]. simpl in Hnum. injection Hnum as Hn Hns.
    simpl map. simpl foldl.
    rewrite (step_content_line _ (length pre) (length done) l); [|done|done|by destruct cur].
    specialize (IH pre p q done a b c d (prev ++ [l]) (advance cur (line_type l)) Hls Hns).
    rewrite <- app_assoc in IH. simpl in IH. rewrite <- IH. f_equal.
    unfold reading_state, Parser.heap_append_line. simpl.
    rewrite alter_last. unfold file_alter_hunk at 1. simpl. rewrite alter_last.
    by destruct cur.
Qed.

Lemma run_hunks_reading (hs : list DiffHunk) : forall pre p q done cur c,
  Forall hunk_ok hs ->
  exists cur' c',
    Parser.run (reading_state pre p q done cur c) (concat (map render_hunk hs))
    = reading_state pre p q (done ++ hs) cur' c'.
Proof.
  induction hs as [|h hs IH]; intros pre p q done cur c Hok.
  - exists cur, c. simpl. by rewrite app_nil_r.
  - apply Forall_cons in Hok as [Hh Hhs].
    change (concat (map render_hunk (h :: hs)))
      with (render_hunk_header h
            :: (map render_line (lines h) ++ concat (map render_hunk hs))).
    rewrite run_cons.
    rewrite (step_header_line _ (length pre) (mkDiffFile p q done) h);
      [|done|by (simpl; rewrite lookup_app_r, Nat.sub_diag by lia)|done].
    rewrite run_app.
    pose proof Hh as (_ & _ & _ & _ & Hls & Hn).
    pose proof (run_lines_reading (lines h) pre p q done
                  (old_start h) (old_count h) (new_start h) (new_count h) []
                  (old_start h, new_start h) Hls Hn) as Hrun.
    destruct (IH pre p q (done ++ [h]) (Some (length pre, length done))
                (foldl advance (old_start h, new_start h) (map line_type (lines h))) Hhs)
      as (cur' & c' & Hrest).
    exists cur', c'. rewrite <- app_assoc in Hrest. simpl in Hrest. rewrite <- Hrest.
    f_equal. destruct h as [a b c0 d ls']. simpl in *. rewrite <- Hrun. f_equal.
    unfold reading_state. simpl. by rewrite alter_last.
Qed.

(** Reading the render of one file, whatever was read before, as long as
    nothing was added to [files]. *)
Lemma run_file_reading st f :
  Parser.files st = [] -> file_ok f -> plain_paths f ->
  exists cur c,
    Parser.run st (render_file_lines f)
    = reading_state (Parser.heap st) (old_path f) (new_path f) (hunks f) cur c.
Proof.
  intros Hfiles (Hp & Hq & Hhs) [Ha Hb]. destruct f as [p q hs].
  cbn [old_path new_path hunks] in *.
  change (render_file_lines (mkDiffFile p q hs))
    with (("--- " +:+ p) :: ("+++ " +:+ q) :: concat (map render_hunk hs)).
  rewrite !run_cons.
  rewrite step_old_line by done. rewrite (step_new_line _ p q) by done.
  destruct (run_hunks_reading hs (Parser.heap st) p q [] (Parser.current_hunk st)
              (Parser.old_line_num st, Parser.new_line_num st) Hhs) as (cur' & c' & Hrun).
  exists cur', c'. simpl app in Hrun. rewrite <- Hrun. f_equal.
  unfold reading_state. simpl. by rewrite Hfiles.
Qed.

Lemma run_files_reading fs : forall st f,
  Parser.files st = [] ->
  Forall file_ok (fs ++ [f]) -> Forall plain_paths (fs ++ [f]) ->
  exists pre cur c,
    Parser.run st (concat (map render_file_lines (fs ++ [f])))
    = reading_state pre (old_path f) (new_path f) (hunks f) cur c.
Proof.
  induction fs as [|f0 fs IH]; intros st f Hfiles Hok Hplain.
  - apply Forall_inv in Hok. apply Forall_inv in Hplain.
    destruct (run_file_reading st f Hfiles Hok Hplain) as (cur & c & Hrun).
    exists (Parser.heap st), cur, c. simpl. by rewrite app_nil_r.
  - rewrite <- app_comm_cons in Hok, Hplain.
    apply Forall_cons in Hok as [Hok0 Hok]. apply Forall_cons in Hplain as [Hpl0 Hplain].
    destruct (run_file_reading st f0 Hfiles Hok0 Hpl0) as (cur & c & Hrun).
    rewrite <- app_comm_cons.
    change (concat (map render_file_lines (f0 :: fs ++ [f])))
      with (render_file_lines f0 ++ concat (map render_file_lines (fs ++ [f]))).
    rewrite run_app, Hrun. by apply IH.
Qed.

Lemma render_all_lines fs :
  render_all fs
  = String.concat "" (map (fun l => l +:+ nl) (concat (map render_file_lines fs))).
Proof.
  induction fs as [|f fs IH]; [done|].
  change (render_all (f :: fs)) with (render_all ([f] ++ fs)).
  rewrite render_all_app, IH.
  change (concat (map render_file_lines (f :: fs)))
    with (render_file_lines f ++ concat (map render_file_lines fs)).
  rewrite map_app, concat_empty_app. f_equal.
  unfold render_all. simpl map. simpl String.concat.
  unfold generate_file_diff. by rewrite join_terminated.
Qed.

(** Of the render of well-formed files only the last is read back. *)
Lemma parse_render_files fs f :
  Forall file_ok (fs ++ [f]) -> Forall plain_paths (fs ++ [f]) ->
  parse_unified_diff (render_all (fs ++ [f])) = [f].
Proof.
  intros Hok Hplain. rewrite parse_unified_diff_run, render_all_lines.
  rewrite splitlines_lines.
  2: { apply Forall_concat. apply Forall_forall. intros ls Hls.
       change (ls ∈ render_file_lines <$> (fs ++ [f])) in Hls.
       apply list_elem_of_fmap in Hls as (f' & -> & Hf').
       apply render_file_lines_no_linebreak.
       rewrite Forall_forall in Hok. by apply Hok. }
  destruct (run_files_reading fs Parser.init f eq_refl Hok Hplain) as (pre & cur & c & Hrun).
  rewrite Hrun. unfold Parser.result, Parser.result_refs, Parser.deref, reading_state.
  simpl. rewrite lookup_app_r, Nat.sub_diag by lia. simpl. by destruct f.
Qed.

End ReadingBack.

(** X13.  Parsing the render of a parse gives back the last file of the
    parse and nothing else, when no old path starts with [a/] and no new
    path with [b/]: the render has no [diff --git] lines, and without them
    every pair of path lines replaces the file before. *)
Theorem parse_render_keeps_last_file (diff_text : string) :
  Forall plain_paths (parse_unified_diff diff_text) ->
  parse_unified_diff (render_all (parse_unified_diff diff_text))
  = last_only (parse_unified_diff diff_text).
Proof.
  intros Hplain.
  assert (Forall file_ok (parse_unified_diff diff_text)) as Hok
    by (apply Forall_forall; intros f Hf; by eapply parse_ok).
  destruct (parse_unified_diff diff_text) as [|f0 fs] using rev_ind; [done|].
  unfold last_only. rewrite last_snoc. by apply parse_render_files.
Qed.

Lemma parse_render_keeps_last_file_witness :
  Forall plain_paths (parse_unified_diff two_file_diff) /\
  parse_unified_diff (render_all (parse_unified_diff two_file_diff))
  = last_only (parse_unified_diff two_file_diff).
Proof.
  assert (Forall plain_paths (parse_unified_diff two_file_diff)) as H
    by (vm_compute; repeat constructor).
  split; [done|]. apply (parse_render_keeps_last_file two_file_diff H).
Defined.

(** *** When a parse returns a file *)

Section PathPairs.

Implicit Types (x line : string) (ls : list string) (st : Parser.state).

Lemma path_match_marker marker pre line p :
  Parser.path_match marker pre line = Some p -> exists r, line = marker +:+ r.
Proof.
  unfold Parser.path_match.
  destruct (PyStr.strip_prefix marker line) as [r|] eqn:Hr; [|done].
  intros _. exists r. by apply strip_prefix_app.
Qed.

Lemma old_match_not_header x :
  is_Some (Parser.old_file_match x) -> Parser.file_header_match x = false.
Proof. intros [p Hp]. by apply path_match_marker in Hp as [r ->]. Qed.

Lemma new_match_not_header_old x :
  is_Some (Parser.new_file_match x) ->
  Parser.file_header_match x = false /\ Parser.old_file_match x = None.
Proof. intros [p Hp]. by apply path_match_marker in Hp as [r ->]. Qed.

Lemma flush_nonempty fs cur :
  Parser.flush fs cur <> [] <-> fs <> [] \/ is_Some cur.
Proof.
  unfold Parser.flush. destruct cur as [r|].
  - split; [by eauto|]. intros _. by destruct fs.
  - split; [by left|]. by intros [?|[? ?]].
Qed.

(** How one line changes the pending old path and the files there are. *)
Lemma step_paths st x :
  (is_Some (Parser.old_path (Parser.step st x)) <->
     is_Some (Parser.old_file_match x) \/
     (is_Some (Parser.old_path st) /\ Parser.file_header_match x = false)) /\
  (created (Parser.step st x) <->
     created st \/
     (is_Some (Parser.new_file_match x) /\ is_Some (Parser.old_path st))).
Proof.
  unfold created, Parser.step.
  destruct (Parser.file_header_match x) eqn:Hh.
  { simpl. split.
    - split; [by intros [? ?]|]. intros [Ho|[_ ?]]; [|done].
      apply old_match_not_header in Ho. congruence.
    - rewrite flush_nonempty. split.
      + intros [Hf|[? ?]]; [by left|done].
      + intros [Hc|[Hn _]]; [by left|].
        apply new_match_not_header_old in Hn as [? _]. congruence. }
  destruct (Parser.old_file_match x) as [p|] eqn:Ho.
  { simpl. split; [split; by eauto|].
    split; [by left|]. intros [Hc|[Hn _]]; [done|].
    apply new_match_not_header_old in Hn as [_ ?]. congruence. }
  destruct (Parser.new_file_match x) as [q|] eqn:Hn.
  { destruct (Parser.old_path st) as [p|] eqn:Hp; simpl.
    - split; [split; by eauto|]. split; [by eauto|]. intros _. right. by eauto.
    - split.
      + split; [by intros [? ?]|]. by intros [[? ?]|[[? ?] _]].
      + split; [by left|]. by intros [?|[_ [? ?]]]. }
  assert (forall st', Parser.files st' = Parser.files st ->
            Parser.current_file st' = Parser.current_file st ->
            Parser.old_path st' = Parser.old_path st ->
            (is_Some (Parser.old_path st') <->
               is_Some (@None string) \/ (is_Some (Parser.old_path st) /\ false = false)) /\
            (Parser.files st' <> [] \/ is_Some (Parser.current_file st') <->
               (Parser.files st <> [] \/ is_Some (Parser.current_file st)) \/
               (is_Some (@None string) /\ is_Some (Parser.old_path st)))) as Hframe.
  { intros st' -> -> ->. split.
    - split; [by eauto|]. by intros [[? ?]|[? _]].
    - split; [by left|]. by intros [?|[[? ?] _]]. }
  destruct (content_step_frame st x) as (Hf & Hc & Hop & _).
  destruct (Parser.hunk_header_match x) as [[[[g1 g2] g3] g4]|]; [|by apply Hframe].
  destruct (Parser.current_file st) as [fr|] eqn:Hcf; [|by apply Hframe].
  apply Hframe; simpl; done.
Qed.

Lemma old_pending_snoc ls x :
  old_pending (ls ++ [x]) <->
  is_Some (Parser.old_file_match x) \/
  (old_pending ls /\ Parser.file_header_match x = false).
Proof.
  split.
  - intros (i & l1 & Hi & Ho & Hafter).
    destruct (decide (i < length ls)%nat) as [Hlt|Hge].
    + right. split.
      * exists i, l1. rewrite lookup_app_l in Hi by done. split; [done|]. split; [done|].
        intros k l Hk Hl. apply (Hafter k l Hk).
        rewrite lookup_app_l; [done|]. by eapply lookup_lt_Some.
      * apply (Hafter (length ls) x Hlt).
        by rewrite lookup_app_r, Nat.sub_diag by lia.
    + left. pose proof (lookup_lt_Some _ _ _ Hi) as Hb.
      rewrite length_app in Hb. simpl in Hb.
      rewrite lookup_app_r in Hi by lia.
      replace (i - length ls)%nat with 0%nat in Hi by lia. by injection Hi as <-.
  - intros [Ho|[(i & l1 & Hi & Ho & Hafter) Hx]].
    + exists (length ls), x. split; [by rewrite lookup_app_r, Nat.sub_diag by lia|].
      split; [done|]. intros k l Hk Hl. apply lookup_lt_Some in Hl.
      rewrite length_app in Hl. simpl in Hl. lia.
    + exists i, l1. pose proof (lookup_lt_Some _ _ _ Hi) as Hb.
      split; [by rewrite lookup_app_l by done|]. split; [done|].
      intros k l Hk Hl. destruct (decide (k < length ls)%nat) as [Hlt|Hge].
      * rewrite lookup_app_l in Hl by done. by eapply Hafter.
      * pose proof (lookup_lt_Some _ _ _ Hl) as Hb'.
        rewrite length_app in Hb'. simpl in Hb'.
        rewrite lookup_app_r in Hl by lia.
        replace (k - length ls)%nat with 0%nat in Hl by lia. by injection Hl as <-.
Qed.

Lemma has_path_pair_snoc ls x :
  has_path_pair (ls ++ [x]) <->
  has_path_pair ls \/ (is_Some (Parser.new_file_match x) /\ old_pending ls).
Proof.
  split.
  - intros (i & j & l1 & l2 & Hij & Hi & Hj & Ho & Hn & Hmid).
    pose proof (lookup_lt_Some _ _ _ Hj) as Hb. rewrite length_app in Hb. simpl in Hb.
    rewrite lookup_app_l in Hi by lia.
    destruct (decide (j < length ls)%nat) as [Hlt|Hge].
    + left. exists i, j, l1, l2. rewrite lookup_app_l in Hj by done.
      do 5 (split; [done|]). intros k l Hk Hl. apply (Hmid k l Hk).
      by rewrite lookup_app_l by lia.
    + right. rewrite lookup_app_r in Hj by lia.
      replace (j - length ls)%nat with 0%nat in Hj by lia. injection Hj as <-.
      split; [done|]. exists i, l1. split; [done|]. split; [done|].
      intros k l Hk Hl. pose proof (lookup_lt_Some _ _ _ Hl) as Hb'.
      apply (Hmid k l); [lia|]. by rewrite lookup_app_l by lia.
  - intros [(i & j & l1 & l2 & Hij & Hi & Hj & Ho & Hn & Hmid)|[Hn (i & l1 & Hi & Ho & Hafter)]].
    + pose proof (lookup_lt_Some _ _ _ Hj) as Hb.
      exists i, j, l1, l2. split; [done|].
      split; [by rewrite lookup_app_l by lia|]. split; [by rewrite lookup_app_l by lia|].
      do 2 (split; [done|]). intros k l Hk Hl. apply (Hmid k l Hk).
      by rewrite lookup_app_l in Hl by lia.
    + pose proof (lookup_lt_Some _ _ _ Hi) as Hb.
      exists i, (length ls), l1, x. split; [done|].
      split; [by rewrite lookup_app_l by lia|].
      split; [by rewrite lookup_app_r, Nat.sub_diag by lia|].
      do 2 (split; [done|]). intros k l Hk Hl. apply (Hafter k l); [lia|].
      by rewrite lookup_app_l in Hl by lia.
Qed.

Lemma run_paths ls :
  (is_Some (Parser.old_path (Parser.run Parser.init ls)) <-> old_pending ls) /\
  (created (Parser.run Parser.init ls) <-> has_path_pair ls).
Proof.
  induction ls as [|x ls [IHo IHc]] using rev_ind.
  - simpl. split.
    + split; [by intros [? ?]|]. by intros (i & l1 & Hi & _).
    + split; [by intros [?|[? ?]]|]. by intros (i & j & l1 & l2 & _ & Hi & _).
  - rewrite run_app. simpl.
    destruct (step_paths (Parser.run Parser.init ls) x) as [Ho Hc].
    rewrite Ho, Hc, old_pending_snoc, has_path_pair_snoc, IHo, IHc. done.
Qed.

End PathPairs.

(** X14.  A parse returns at least one file exactly when the text has an
    old-path line ([--- ]) followed by a new-path line ([+++ ]) with no
    [diff --git] line between the two. *)
Theorem parse_returns_file_iff_path_pair (diff_text : string) :
  parse_unified_diff diff_text <> [] <-> has_path_pair (PyStr.splitlines diff_text).
Proof.
  rewrite parse_unified_diff_run.
  destruct (run_paths (PyStr.splitlines diff_text)) as [_ <-].
  pose proof (run_ok (PyStr.splitlines diff_text) Parser.init
                (splitlines_no_linebreak _) init_ok) as Hok.
  set (st := Parser.run Parser.init (PyStr.splitlines diff_text)) in *.
  assert (length (Parser.result st) = length (Parser.result_refs st)) as Hlen.
  { apply deref_length. intros r Hr. by eapply result_refs_valid. }
  unfold created. rewrite <- flush_nonempty. fold (Parser.result_refs st).
  split.
  - intros Hne Hnil. rewrite Hnil in Hlen. by destruct (Parser.result st).
  - intros Hne Hnil. rewrite Hnil in Hlen. by destruct (Parser.result_refs st).
Qed.

(** ** More on language detection *)

Section LanguagesMore.

Implicit Types (s p : string) (c : ascii) (d : list (string * Z)) (paths : list string).

Lemma lower_char_idemp c : PyStr.lower_char (PyStr.lower_char c) = PyStr.lower_char c.
Proof. by destruct c as [[] [] [] [] [] [] [] []]. Qed.

Lemma lower_idemp s : PyStr.lower (PyStr.lower s) = PyStr.lower s.
Proof. induction s as [|c s IH]; [done|]. simpl. by rewrite lower_char_idemp, IH. Qed.

Lemma lower_char_dot c : Ascii.eqb "." (PyStr.lower_char c) = Ascii.eqb "." c.
Proof. by destruct c as [[] [] [] [] [] [] [] []]. Qed.

Lemma startswith_dot c s : PyStr.startswith (String c s) "." = Ascii.eqb "." c.
Proof.
  unfold PyStr.startswith.
  change (PyStr.strip_prefix "." (String c s))
    with (if Ascii.eqb "." c then Some s else None).
  by destruct (Ascii.eqb "." c).
Qed.

Lemma contains_dot_lower s : PyStr.contains "." (PyStr.lower s) = PyStr.contains "." s.
Proof.
  induction s as [|c s IH]; [done|]. simpl.
  by rewrite !startswith_dot, lower_char_dot, IH.
Qed.

Lemma count_language_undetected d p :
  get_language_from_path p = None -> count_language d p = d.
Proof. intros Hp. unfold count_language. by rewrite Hp. Qed.

Lemma foldl_count_language_filter paths : forall d,
  foldl count_language d (filter (fun p => is_Some (get_language_from_path p)) paths)
  = foldl count_language d paths.
Proof.
  induction paths as [|p paths IH]; intros d; [done|].
  rewrite filter_cons. destruct (decide (is_Some (get_language_from_path p))) as [Hs|Hn].
  - simpl. apply IH.
  - simpl. rewrite IH. f_equal. symmetry. apply count_language_undetected.
    destruct (get_language_from_path p); [|done]. exfalso. apply Hn. by eexists.
Qed.

End LanguagesMore.

(** X15.  Language detection does not look at the case of the path. *)
Theorem get_language_ignores_case (file_path : string) :
  get_language_from_path (PyStr.lower file_path) = get_language_from_path file_path.
Proof.
  unfold get_language_from_path. by rewrite contains_dot_lower, lower_idemp.
Qed.

(** X16.  A language that is detected is one of the names of the extension
    table and is not the empty string, so the truth test of
    [detect_common_language] lets every detected language through. *)
Theorem get_language_known (file_path : string) :
  match get_language_from_path file_path with
  | Some lang => lang ∈ map snd ext_map /\ lang <> ""
  | None => True
  end.
Proof.
  destruct (get_language_from_path file_path) as [lang|] eqn:Hl; [|done].
  split.
  - unfold get_language_from_path in Hl.
    destruct (String.eqb (PyStr.lower file_path) "dockerfile").
    + injection Hl as <-. by vm_compute; repeat constructor.
    + by eapply dict_get_values.
  - assert (truthy (get_language_from_path file_path) = true) as Ht
      by (apply truthy_detected; rewrite Hl; by eexists).
    rewrite Hl in Ht. by destruct lang.
Qed.

(** X17.  Paths of no known language have no part in the vote: the most
    common language of a list of paths is that of the paths that are
    detected. *)
Theorem detect_common_ignores_undetected (file_paths : list string) :
  detect_common_language (filter (fun p => is_Some (get_language_from_path p)) file_paths)
  = detect_common_language file_paths.
Proof.
  assert (forall paths, detect_common_language paths =
            match foldl count_language [] paths with
            | [] => None
            | x :: xs => Some (fst (max_item x xs))
            end) as Hdef by (by intros []).
  by rewrite !Hdef, foldl_count_language_filter.
Qed.

(** ** The encoding of the token counter *)

(** X18.  Whatever the model, [count_tokens] asks for the same encoding,
    [cl100k_base]: the model has no part in the count. *)
Theorem encoding_name_constant (model : string) : encoding_name model = "cl100k_base".
Proof.
  unfold encoding_name.
  destruct (dict_get model MODEL_TO_ENCODING) as [e|] eqn:He; [|done].
  apply dict_get_values in He. simpl.
  repeat (apply elem_of_cons in He as [->|He]; [done|]). inversion He.
Qed.

(** ** The JSON text of a response *)

Section JsonContent.

Implicit Types (s pre post rest mid body : string) (c : ascii).

Lemma len_cons c s : len (String c s) = len s + 1.
Proof. unfold len. simpl. lia. Qed.

Lemma find_char_bounds c s : -1 <= find_char c s < len s.
Proof.
  induction s as [|a s IH]; [done|]. simpl. rewrite len_cons.
  destruct (Ascii.eqb a c); [pose proof (len_nonneg s); lia|].
  destruct (Z.ltb_spec (find_char c s) 0); lia.
Qed.

Lemma rfind_char_bounds c s : -1 <= rfind_char c s < len s.
Proof.
  induction s as [|a s IH]; [done|]. simpl. rewrite len_cons.
  destruct (Z.leb_spec 0 (rfind_char c s)); [lia|].
  destruct (Ascii.eqb a c); pose proof (len_nonneg s); lia.
Qed.

(** The first occurrence splits the string. *)
Lemma find_char_split c s :
  0 <= find_char c s ->
  exists pre rest,
    s = pre +:+ String c rest /\ has_char c pre = false /\ find_char c s = len pre.
Proof.
  induction s as [|a s IH]; [simpl; lia|]. simpl.
  destruct (Ascii.eqb_spec a c) as [->|Hne].
  - intros _. by exists "", s.
  - destruct (Z.ltb_spec (find_char c s) 0) as [Hlt|Hge]; [lia|]. intros _.
    destruct (IH Hge) as (pre & rest & -> & Hpre & ->).
    exists (String a pre), rest. rewrite str_app_cons, len_cons. simpl.
    split; [done|]. split; [|done].
    apply orb_false_iff. split; [by apply Ascii.eqb_neq|done].
Qed.

(** The last occurrence splits the string. *)
Lemma rfind_char_split c s :
  0 <= rfind_char c s ->
  exists pre post,
    s = pre +:+ String c post /\ has_char c post = false /\ rfind_char c s = len pre.
Proof.
  induction s as [|a s IH]; [simpl; lia|]. simpl.
  destruct (Z.leb_spec 0 (rfind_char c s)) as [Hge|Hlt].
  - intros _. destruct (IH Hge) as (pre & post & -> & Hpost & ->).
    exists (String a pre), post. by rewrite str_app_cons, len_cons.
  - destruct (Ascii.eqb_spec a c) as [->|Hne]; [|lia]. intros _.
    exists "", s. split; [done|]. split; [|done].
    clear IH. induction s as [|b s IHs]; [done|]. simpl in *.
    destruct (Z.leb_spec 0 (rfind_char c s)) as [Hge'|Hlt']; [lia|].
    destruct (Ascii.eqb b c); [lia|]. simpl. apply IHs. lia.
Qed.

Lemma find_char_app c pre rest :
  has_char c pre = false -> find_char c (pre +:+ String c rest) = len pre.
Proof.
  induction pre as [|a pre IH]; intros Hpre.
  - simpl. by rewrite Ascii.eqb_refl.
  - simpl in Hpre. apply orb_false_iff in Hpre as [Ha Hpre].
    rewrite str_app_cons, len_cons. simpl. rewrite Ha, IH by done.
    pose proof (len_nonneg pre). destruct (Z.ltb_spec (len pre) 0); [lia|done].
Qed.

Lemma rfind_char_none c s : has_char c s = false -> rfind_char c s = -1.
Proof.
  induction s as [|a s IH]; [done|]. simpl. intros H.
  apply orb_false_iff in H as [Ha Hs]. by rewrite IH, Ha.
Qed.

Lemma rfind_char_app c pre post :
  has_char c post = false -> rfind_char c (pre +:+ String c post) = len pre.
Proof.
  intros Hpost. induction pre as [|a pre IH].
  - simpl. by rewrite rfind_char_none, Ascii.eqb_refl.
  - rewrite str_app_cons, len_cons. simpl. rewrite IH.
    pose proof (len_nonneg pre). destruct (Z.leb_spec 0 (len pre)); [done|lia].
Qed.

Lemma substring_skip pre s (m : nat) :
  String.substring (String.length pre) m (pre +:+ s) = String.substring 0 m s.
Proof. induction pre as [|a pre IH]; [done|]. by rewrite str_app_cons. Qed.

Lemma substring_prefix s rest :
  String.substring 0 (String.length s) (s +:+ rest) = s.
Proof.
  induction s as [|a s IH]; [by destruct rest|]. rewrite str_app_cons. simpl. by rewrite IH.
Qed.

Lemma slice_middle pre mid post :
  slice (pre +:+ mid +:+ post) (len pre) (len pre + len mid) = mid.
Proof.
  unfold slice, len. rewrite Nat2Z.id.
  replace (Z.to_nat (Z.of_nat (String.length pre) + Z.of_nat (String.length mid)
                     - Z.of_nat (String.length pre)))
    with (String.length mid) by lia.
  by rewrite substring_skip, substring_prefix.
Qed.

(** Two ways to cut one string at a character, the first cut not after the
    second. *)
Lemma cuts_align pre1 : forall pre2 c1 c2 rest1 rest2,
  pre1 +:+ String c1 rest1 = pre2 +:+ String c2 rest2 ->
  len pre1 <= len pre2 ->
  (pre1 = pre2 /\ c1 = c2) \/
  exists mid, pre2 = pre1 +:+ String c1 mid /\ rest1 = mid +:+ String c2 rest2.
Proof.
  induction pre1 as [|a pre1 IH]; intros pre2 c1 c2 rest1 rest2 Heq Hlen.
  - destruct pre2 as [|b pre2].
    + left. rewrite !str_app_nil_l in Heq. by injection Heq as ->.
    + right. rewrite str_app_nil_l, str_app_cons in Heq. injection Heq as -> ->.
      by exists pre2.
  - destruct pre2 as [|b pre2].
    + rewrite len_cons in Hlen. pose proof (len_nonneg pre1). unfold len in Hlen at 2.
      simpl in Hlen. lia.
    + rewrite !str_app_cons in Heq. injection Heq as -> Heq.
      rewrite !len_cons in Hlen.
      destruct (IH pre2 c1 c2 rest1 rest2 Heq ltac:(lia)) as [[-> ->]|(mid & -> & ->)].
      * by left.
      * right. by exists mid.
Qed.

(** The text between the first opening brace and the last closing brace. *)
Lemma json_content_cut content pre mid post :
  content = pre +:+ mid +:+ post ->
  find_char "{" content = len pre ->
  rfind_char "}" content + 1 = len pre + len mid ->
  0 < len mid ->
  json_content content = Some mid.
Proof.
  intros Hcontent Hfind Hrfind Hmid. unfold json_content.
  rewrite Hfind, Hrfind. pose proof (len_nonneg pre).
  replace ((0 <=? len pre) && (len pre <? len pre + len mid)) with true
    by (symmetry; apply andb_true_iff; split; [apply Z.leb_le|apply Z.ltb_lt]; lia).
  by rewrite Hcontent, slice_middle.
Qed.

End JsonContent.

(** X19.  A JSON object wrapped in text is taken out whole: when the text
    before holds no opening brace and the text after no closing brace, the
    text handed to the JSON parser is the object, from its opening brace to
    its closing brace. *)
Theorem json_content_wrapped (pre body post : string) :
  has_char "{" pre = false ->
  has_char "}" post = false ->
  json_content (pre +:+ "{" +:+ body +:+ "}" +:+ post) = Some ("{" +:+ body +:+ "}").
Proof.
  intros Hpre Hpost.
  apply (json_content_cut _ pre ("{" +:+ body +:+ "}") post).
  - by rewrite !str_app_assoc.
  - change (pre +:+ "{" +:+ body +:+ "}" +:+ post)
      with (pre +:+ String "{" (body +:+ String "}" post)).
    by apply find_char_app.
  - replace (pre +:+ "{" +:+ body +:+ "}" +:+ post)
      with ((pre +:+ String "{" body) +:+ String "}" post)
      by (by rewrite !str_app_assoc).
    rewrite rfind_char_app by done.
    rewrite !len_app, len_cons. unfold len at 4 6. simpl. lia.
  - rewrite !len_app. unfold len at 1 3. simpl. pose proof (len_nonneg body). lia.
Qed.

Lemma json_content_wrapped_witness :
  has_char "{" "Here you go: " = false /\
  has_char "}" " Done." = false /\
  json_content ("Here you go: " +:+ "{" +:+ "x" +:+ "}" +:+ " Done.") = Some ("{" +:+ "x" +:+ "}").
Proof.
  split; [done|]. split; [done|]. by apply (json_content_wrapped "Here you go: " "x" " Done.").
Defined.

(** X20.  What is handed to the JSON parser starts at the first opening
    brace of the response and ends at its last closing brace; there is
    nothing to hand over exactly when the response has no opening brace or
    no closing brace after the first opening one. *)
Theorem json_content_shape (content : string) :
  match json_content content with
  | Some j =>
      exists pre body post,
        content = pre +:+ j +:+ post /\ j = "{" +:+ body +:+ "}" /\
        has_char "{" pre = false /\ has_char "}" post = false
  | None =>
      forall pre body post, content <> pre +:+ "{" +:+ body +:+ "}" +:+ post
  end.
Proof.
  destruct ((0 <=? find_char "{" content)
            && (find_char "{" content <? rfind_char "}" content + 1)) eqn:Hcond;
    [|unfold json_content; rewrite Hcond].
  - apply andb_true_iff in Hcond as [Hs He].
    apply Z.leb_le in Hs. apply Z.ltb_lt in He.
    destruct (find_char_split "{" content Hs) as (pre & rest & Hc1 & Hpre & Hfind).
    destruct (rfind_char_split "}" content ltac:(lia)) as (pre2 & post & Hc2 & Hpost & Hrfind).
    rewrite Hfind, Hrfind in *.
    assert (pre +:+ String "{" rest = pre2 +:+ String "}" post) as Heq by congruence.
    destruct (cuts_align _ _ _ _ _ _ Heq ltac:(lia)) as [[_ ?]|(mid & -> & ->)]; [done|].
    assert (content = pre +:+ ("{" +:+ mid +:+ "}") +:+ post) as Hcontent.
    { rewrite Hc1. by rewrite !str_app_assoc. }
    rewrite (json_content_cut content pre ("{" +:+ mid +:+ "}") post); [|done|..].
    + by exists pre, mid, post.
    + by rewrite Hfind.
    + rewrite Hrfind, !len_app, len_cons. unfold len at 4 6. simpl. lia.
    + rewrite !len_app. unfold len at 1 3. simpl. pose proof (len_nonneg mid). lia.
  - intros pre body post Hcontent.
    apply andb_false_iff in Hcond.
    assert (content = pre +:+ String "{" (body +:+ String "}" post)) as Hc1 by done.
    assert (content = (pre +:+ String "{" body) +:+ String "}" post) as Hc2
      by (by rewrite Hc1, str_app_assoc, str_app_cons).
    assert (0 <= find_char "{" content <= len pre) as Hfind.
    { rewrite Hc1. clear. induction pre as [|a pre IH].
      - simpl. unfold len. simpl. lia.
      - rewrite str_app_cons, len_cons. simpl.
        destruct (Ascii.eqb a "{"); [pose proof (len_nonneg pre); lia|].
        destruct (Z.ltb_spec (find_char "{" (pre +:+ String "{" (body +:+ String "}" post))) 0);
          lia. }
    assert (len (pre +:+ String "{" body) <= rfind_char "}" content) as Hrfind.
    { rewrite Hc2. clear. induction (pre +:+ String "{" body) as [|a s IH].
      - simpl. destruct (Z.leb_spec 0 (rfind_char "}" post)); [unfold len; simpl; lia|].
        unfold len. simpl. lia.
      - rewrite str_app_cons, len_cons. simpl.
        destruct (Z.leb_spec 0 (rfind_char "}" (s +:+ String "}" post))); [lia|].
        pose proof (len_nonneg s). lia. }
    rewrite len_app, len_cons in Hrfind. pose proof (len_nonneg body).
    destruct Hcond as [Hcond|Hcond].
    + apply Z.leb_gt in Hcond. lia.
    + apply Z.ltb_ge in Hcond. lia.
Qed.


(** ** The system prompt and the router *)

Section Prompt.

Example prompt_part_lengths :
  map len [prompt_intro; prompt_task; prompt_format; prompt_severity] = [131; 89; 403; 305].
Proof. reflexivity. Qed.

(** An element of a joined list is a piece of the joined text. *)
Lemma join_part (sep x : string) (l1 l2 : list string) :
  exists before after, PyStr.join sep (l1 ++ x :: l2) = before +:+ x +:+ after.
Proof.
  unfold PyStr.join. induction l1 as [|y l1 IH].
  - destruct l2 as [|z l2].
    + exists "", "". by rewrite str_app_nil_r.
    + exists "", (sep +:+ String.concat sep (z :: l2)). done.
  - destruct IH as (before & after & IH).
    exists (y +:+ sep +:+ before), after.
    change ((y :: l1) ++ x :: l2) with (y :: (l1 ++ x :: l2)).
    destruct (l1 ++ x :: l2) as [|z l] eqn:Hl; [by destruct l1|].
    change (String.concat sep (y :: z :: l)) with (y +:+ sep +:+ String.concat sep (z :: l)).
    by rewrite IH, !str_app_assoc.
Qed.

Lemma truthy_list_nonempty {A} (l : list A) : l <> [] -> truthy_list (Some l) = true.
Proof. by destruct l. Qed.

End Prompt.

(** X21.  Every request that goes through the router gets a system prompt
    with a sentence that names the severity levels to report: the levels of
    the request, or the four levels critical, major, minor and suggestion when
    the request has no options, no levels or an empty list of them. *)
Theorem request_prompt_names_severity_levels (float : Type)
    (settings : Review.Settings float) (request : Review.ReviewRequest float) :
  let o := Review.core_options float settings request in
  let requested :=
    match Review.options float request with
    | Some opts => default [] (Review.api_severity_levels float opts)
    | None => []
    end in
  Review.severity_levels float o =
    (if decide (requested = []) then ["critical"; "major"; "minor"; "suggestion"]
     else requested) /\
  exists before after,
    Review.system_prompt float o =
    before +:+ severity_sentence (Review.severity_levels float o) +:+ after.
Proof.
  intros o requested. split.
  - subst o requested. unfold Review.core_options, Review.init_options.
    cbn [Review.severity_levels].
    destruct (Review.options float request) as [opts|]; [|done].
    destruct (Review.api_severity_levels float opts) as [[|x l]|]; done.
  - assert (Review.severity_levels float o <> []) as Hne.
    { subst o. unfold Review.core_options, Review.init_options.
      cbn [Review.severity_levels].
      destruct (Review.options float request) as [opts|]; [|done].
      destruct (Review.api_severity_levels float opts) as [[|x l]|]; done. }
    unfold Review.system_prompt, build_system_prompt, system_prompt_parts.
    rewrite (truthy_list_nonempty _ Hne). cbn [default].
    set (sev := severity_sentence (Review.severity_levels float o)).
    set (lang := language_sentence (default "" (Review.language float o))).
    set (rls := rules_sentence (Review.rules float o)).
    destruct (truthy (Review.language float o)), (truthy_list (Some (Review.rules float o)));
      cbn [app].
    + apply (join_part nl sev [prompt_intro; prompt_task; lang; prompt_format; prompt_severity] [rls]).
    + apply (join_part nl sev [prompt_intro; prompt_task; lang; prompt_format; prompt_severity] []).
    + apply (join_part nl sev [prompt_intro; prompt_task; prompt_format; prompt_severity] [rls]).
    + apply (join_part nl sev [prompt_intro; prompt_task; prompt_format; prompt_severity] []).
Qed.

(** X22.  A client the router hands out is the one of the provider asked
    for, or of the default provider when none or an empty name is given; it
    carries that provider's model from the settings and an API key that is
    not empty. *)
Theorem get_llm_client_configured (float : Type) (settings : Review.Settings float)
    (provider : option string) (c : Review.LLMClient) :
  Review.get_llm_client float settings provider = inr c ->
  Review.get_provider_name c = Review.resolve_provider float settings provider /\
  Review.client_api_key c <> "" /\
  (c = Review.OpenAIClient (Review.OPENAI_API_KEY float settings)
                           (Review.OPENAI_MODEL float settings) \/
   c = Review.AnthropicClient (Review.ANTHROPIC_API_KEY float settings)
                              (Review.ANTHROPIC_MODEL float settings)).
Proof.
  unfold Review.get_llm_client.
  destruct (String.eqb_spec (Review.resolve_provider float settings provider) "openai")
    as [Hp|Hp].
  - destruct (String.eqb_spec (Review.OPENAI_API_KEY float settings) "") as [|Hk]; [done|].
    intros [= <-]. by rewrite Hp; auto.
  - destruct (String.eqb_spec (Review.resolve_provider float settings provider) "anthropic")
      as [Hp'|Hp']; [|done].
    destruct (String.eqb_spec (Review.ANTHROPIC_API_KEY float settings) "") as [|Hk]; [done|].
    intros [= <-]. by rewrite Hp'; auto.
Qed.

Lemma get_llm_client_configured_witness :
  let settings := Review.mkSettings unit "anthropic" "" "gpt-4" "sk-ant" "claude-3-opus-20240229" 4096 tt in
  let c := Review.AnthropicClient "sk-ant" "claude-3-opus-20240229" in
  Review.get_llm_client unit settings (Some "") = inr c /\
  Review.get_provider_name c = Review.resolve_provider unit settings (Some "") /\
  Review.client_api_key c <> "" /\
  (c = Review.OpenAIClient (Review.OPENAI_API_KEY unit settings)
                           (Review.OPENAI_MODEL unit settings) \/
   c = Review.AnthropicClient (Review.ANTHROPIC_API_KEY unit settings)
                              (Review.ANTHROPIC_MODEL unit settings)).
Proof.
  intros settings c. split; [reflexivity|].
  apply (get_llm_client_configured unit settings (Some "") c). reflexivity.
Defined.

(** X23.  When the router hands out no client, the error is 400 exactly
    when the provider (the one asked for, or the default) is neither openai
    nor anthropic, with the provider named in the detail; otherwise it is
    500 and the API key of that provider is empty. *)
Theorem get_llm_client_error (float : Type) (settings : Review.Settings float)
    (provider : option string) (e : Review.HTTPException) :
  Review.get_llm_client float settings provider = inl e ->
  let p := Review.resolve_provider float settings provider in
  (p <> "openai" /\ p <> "anthropic" /\
   e = Review.mkHTTPException 400 ("Unsupported provider: " +:+ p)) \/
  (p = "openai" /\ Review.OPENAI_API_KEY float settings = "" /\
   e = Review.mkHTTPException 500 "OpenAI API key not configured") \/
  (p = "anthropic" /\ Review.ANTHROPIC_API_KEY float settings = "" /\
   e = Review.mkHTTPException 500 "Anthropic API key not configured").
Proof.
  intros H p. subst p. unfold Review.get_llm_client in H.
  destruct (String.eqb_spec (Review.resolve_provider float settings provider) "openai")
    as [Hp|Hp].
  - destruct (String.eqb_spec (Review.OPENAI_API_KEY float settings) "") as [Hk|Hk]; [|done].
    injection H as <-. right. left. done.
  - destruct (String.eqb_spec (Review.resolve_provider float settings provider) "anthropic")
      as [Hp'|Hp'].
    + destruct (String.eqb_spec (Review.ANTHROPIC_API_KEY float settings) "") as [Hk|Hk]; [|done].
      injection H as <-. right. right. done.
    + injection H as <-. left. done.
Qed.

Lemma get_llm_client_error_witness :
  let settings := Review.mkSettings unit "openai" "sk" "gpt-4" "" "claude-3-opus-20240229" 4096 tt in
  let e := Review.mkHTTPException 400 "Unsupported provider: gemini" in
  Review.get_llm_client unit settings (Some "gemini") = inl e /\
  (("gemini" <> "openai" /\ "gemini" <> "anthropic" /\
    e = Review.mkHTTPException 400 ("Unsupported provider: " +:+ "gemini")) \/
   ("gemini" = "openai" /\ Review.OPENAI_API_KEY unit settings = "" /\
    e = Review.mkHTTPException 500 "OpenAI API key not configured") \/
   ("gemini" = "anthropic" /\ Review.ANTHROPIC_API_KEY unit settings = "" /\
    e = Review.mkHTTPException 500 "Anthropic API key not configured")).
Proof.
  intros settings e. split; [reflexivity|].
  apply (get_llm_client_error unit settings (Some "gemini") e). reflexivity.
Defined.


(** ** When a file is added to the result *)

Section Appends.

Implicit Types (st : Parser.state) (l : string) (ls seg : list string).

Lemma old_line_not_new l : old_line l = true -> new_line l = false.
Proof.
  unfold old_line, new_line. destruct (Parser.new_file_match l) as [q|] eqn:Hn; [|done].
  destruct (new_match_not_header_old l) as [_ ->]; [by eauto|done].
Qed.

(** What one line does to [files], the pending old path and the current
    file. *)
Lemma step_kind st l :
  if Parser.file_header_match l then
    Parser.files (Parser.step st l) = Parser.flush (Parser.files st) (Parser.current_file st) /\
    pending (Parser.step st l) = false /\ has_current (Parser.step st l) = false
  else
    Parser.files (Parser.step st l) = Parser.files st /\
    pending (Parser.step st l) = old_line l || pending st /\
    has_current (Parser.step st l) = has_current st || (new_line l && pending st).
Proof.
  pose proof (old_line_not_new l) as Hon.
  unfold pending, has_current, old_line, new_line in *. unfold Parser.step.
  destruct (Parser.file_header_match l); [done|].
  destruct (Parser.old_file_match l) as [p|].
  { simpl. rewrite Hon by done. simpl. by rewrite orb_false_r. }
  destruct (Parser.new_file_match l) as [q|].
  { destruct (Parser.old_path st) as [p|]; simpl; [by rewrite orb_true_r|].
    by rewrite orb_false_r. }
  simpl.
  assert (forall st',
    Parser.files st' = Parser.files st ->
    Parser.current_file st' = Parser.current_file st ->
    Parser.old_path st' = Parser.old_path st ->
    Parser.files st' = Parser.files st /\
    match Parser.old_path st' with Some _ => true | None => false end
    = match Parser.old_path st with Some _ => true | None => false end /\
    match Parser.current_file st' with Some _ => true | None => false end
    = match Parser.current_file st with Some _ => true | None => false end || false)
    as Hframe.
  { intros st' -> -> ->. by rewrite orb_false_r. }
  destruct (content_step_frame st l) as (Hf & Hc & Hop & _).
  destruct (Parser.hunk_header_match l) as [[[[g1 g2] g3] g4]|]; [|by apply Hframe].
  destruct (Parser.current_file st) as [fr|] eqn:Hcf; [|by apply Hframe].
  by apply Hframe.
Qed.

(** The files returned after more lines, from any state of the loop. *)
Lemma run_returned ls : forall st,
  length (Parser.result_refs (Parser.run st ls))
  = (length (Parser.files st)
     + (if has_current st || path_pair (cut_at_git_headers ls).1
           || (pending st && existsb new_line (cut_at_git_headers ls).1)
        then 1 else 0)
     + length (filter (fun seg => path_pair seg = true) (cut_at_git_headers ls).2))%nat.
Proof.
  induction ls as [|l ls IH]; intros st.
  - simpl. unfold Parser.result_refs, Parser.flush, has_current.
    destruct (Parser.current_file st); simpl;
      rewrite ?length_app, ?andb_false_r; simpl; lia.
  - rewrite run_cons, IH. clear IH. simpl.
    pose proof (step_kind st l) as Hk.
    pose proof (old_line_not_new l) as Hon.
    destruct (cut_at_git_headers ls) as [seg segs]. simpl.
    destruct (Parser.file_header_match l).
    + destruct Hk as (-> & -> & ->). simpl. rewrite filter_cons.
      unfold Parser.flush, has_current.
      destruct (Parser.current_file st); destruct (path_pair seg);
        simpl; rewrite ?length_app, ?andb_false_r; simpl; lia.
    + destruct Hk as (-> & -> & ->). simpl.
      destruct (old_line l); [rewrite Hon by done|];
        destruct (new_line l), (has_current st), (pending st), (path_pair seg),
          (existsb new_line seg); simpl; lia.
Qed.

Lemma cut_length ls : length (cut_at_git_headers ls).2 = git_headers ls.
Proof.
  unfold git_headers. induction ls as [|l ls IH]; [done|]. simpl.
  rewrite filter_cons. destruct (cut_at_git_headers ls) as [seg segs].
  destruct (Parser.file_header_match l); simpl in *.
  - destruct (decide (true = true)); [|done]. simpl. lia.
  - destruct (decide (false = true)); done.
Qed.

Lemma segments_with_pair_bound ls : (segments_with_pair ls <= git_headers ls + 1)%nat.
Proof.
  unfold segments_with_pair, segments. rewrite <- cut_length.
  destruct (cut_at_git_headers ls) as [seg segs]. simpl.
  etrans; [apply length_filter|]. simpl. lia.
Qed.

Lemma parse_length diff_text :
  length (parse_unified_diff diff_text) = segments_with_pair (PyStr.splitlines diff_text).
Proof.
  rewrite parse_unified_diff_run. unfold Parser.result. rewrite deref_length.
  2: { intros r Hr. eapply result_refs_valid; [|done].
       apply run_ok; [apply splitlines_no_linebreak|apply init_ok]. }
  rewrite run_returned. unfold segments_with_pair, segments.
  destruct (cut_at_git_headers (PyStr.splitlines diff_text)) as [seg segs]. simpl.
  rewrite filter_cons. destruct (path_pair seg); simpl; lia.
Qed.

(** A pair of path lines makes a new file with the two paths and no hunks,
    and makes it current; [files] stays as it is. *)
Lemma step_path_pair st l1 l2 p q :
  Parser.old_file_match l1 = Some p ->
  Parser.new_file_match l2 = Some q ->
  Parser.step (Parser.step st l1) l2
  = Parser.mkState (Parser.heap st ++ [mkDiffFile p q []]) (Parser.files st)
      (Some (length (Parser.heap st))) (Parser.current_hunk st) (Some p) (Some q)
      (Parser.old_line_num st) (Parser.new_line_num st).
Proof.
  intros Ho Hn.
  pose proof (old_match_not_header l1 ltac:(by eauto)) as Hh1.
  destruct (new_match_not_header_old l2 ltac:(by eauto)) as [Hh2 Ho2].
  unfold Parser.step at 2. rewrite Hh1, Ho.
  unfold Parser.step. by rewrite Hh2, Ho2, Hn.
Qed.

Lemma step_heap_length st l :
  (length (Parser.heap st) <= length (Parser.heap (Parser.step st l)))%nat.
Proof.
  unfold Parser.step. destruct (Parser.file_header_match l); [done|].
  destruct (Parser.old_file_match l); [done|].
  destruct (Parser.new_file_match l).
  { destruct (Parser.old_path st); simpl; rewrite ?length_app; simpl; lia. }
  destruct (content_step_frame st l) as (_ & _ & _ & Hl).
  destruct (Parser.hunk_header_match l) as [[[[g1 g2] g3] g4]|]; [|by rewrite Hl].
  destruct (Parser.current_file st); [|by rewrite Hl].
  simpl. by rewrite length_alter.
Qed.

Lemma run_heap_length ls : forall st,
  (length (Parser.heap st) <= length (Parser.heap (Parser.run st ls)))%nat.
Proof.
  induction ls as [|l ls IH]; intros st; [done|].
  rewrite run_cons. etrans; [apply step_heap_length|apply IH].
Qed.

Lemma run_files_frame ls : forall st,
  Forall (fun l => Parser.file_header_match l = false) ls ->
  Parser.files (Parser.run st ls) = Parser.files st.
Proof.
  induction ls as [|l ls IH]; intros st Hls; [done|].
  apply Forall_cons in Hls as [Hl Hls].
  by rewrite run_cons, IH, step_files, Hl.
Qed.

End Appends.

(** C10.  The loop adds to [files] at a [diff --git] line and nowhere
    else, and what it adds there is the file that is current, if there is
    one; the result is [files] with the file current at the end of the text.
    So a parse returns one file for every run of lines between [diff --git]
    lines (or the ends of the text) that holds a pair of path lines, which is
    at most one file more than the text has [diff --git] lines.  When a pair
    of path lines is followed by a second pair with no [diff --git] line
    between the two, the first pair makes a new file with its two paths
    current, the second pair makes another new file with its own paths
    current with nothing added to [files] in between, and the file of the
    first pair is not among the files returned. *)
Theorem parse_appends_on_git_header_or_end :
  (forall st line,
     Parser.files (Parser.step st line)
     = if Parser.file_header_match line
       then Parser.flush (Parser.files st) (Parser.current_file st)
       else Parser.files st) /\
  (forall diff_text,
     length (parse_unified_diff diff_text)
     = segments_with_pair (PyStr.splitlines diff_text) /\
     (length (parse_unified_diff diff_text)
      <= git_headers (PyStr.splitlines diff_text) + 1)%nat) /\
  (forall diff_text pre old1 new1 mid old2 new2 rest p1 q1 p2 q2,
     PyStr.splitlines diff_text = pre ++ [old1; new1] ++ mid ++ [old2; new2] ++ rest ->
     Parser.old_file_match old1 = Some p1 ->
     Parser.new_file_match new1 = Some q1 ->
     Forall (fun l => Parser.file_header_match l = false) mid ->
     Parser.old_file_match old2 = Some p2 ->
     Parser.new_file_match new2 = Some q2 ->
     let st1 := Parser.run Parser.init (pre ++ [old1; new1]) in
     let st2 := Parser.run Parser.init (pre ++ [old1; new1] ++ mid ++ [old2; new2]) in
     exists r1 r2,
       Parser.current_file st1 = Some r1 /\
       Parser.heap st1 !! r1 = Some (mkDiffFile p1 q1 []) /\
       Parser.current_file st2 = Some r2 /\
       Parser.heap st2 !! r2 = Some (mkDiffFile p2 q2 []) /\
       r2 <> r1 /\
       Parser.files st2 = Parser.files st1 /\
       r1 ∉ Parser.result_refs (Parser.run Parser.init (PyStr.splitlines diff_text))).
Proof.
  split; [apply step_files|]. split.
  { intros diff_text. rewrite parse_length. split; [done|apply segments_with_pair_bound]. }
  intros diff_text pre old1 new1 mid old2 new2 rest p1 q1 p2 q2
    Hsplit Ho1 Hn1 Hmid Ho2 Hn2 st1 st2.
  set (st0 := Parser.run Parser.init pre).
  assert (st1 = Parser.step (Parser.step st0 old1) new1) as Hst1
    by (unfold st1; by rewrite run_app).
  rewrite (step_path_pair _ _ _ _ _ Ho1 Hn1) in Hst1.
  set (stm := Parser.run st1 mid).
  assert (st2 = Parser.step (Parser.step stm old2) new2) as Hst2.
  { change (Parser.step (Parser.step stm old2) new2) with (Parser.run stm [old2; new2]).
    unfold st2, stm, st1. by rewrite <- !run_app, <- !app_assoc. }
  rewrite (step_path_pair _ _ _ _ _ Ho2 Hn2) in Hst2.
  assert (length (Parser.heap st1) <= length (Parser.heap stm))%nat as Hgrow
    by apply run_heap_length.
  assert (Parser.files stm = Parser.files st1) as Hfiles by (by apply run_files_frame).
  assert (state_ok st0) as Hok0.
  { apply run_ok; [|apply init_ok].
    pose proof (splitlines_no_linebreak diff_text) as Hnl. rewrite Hsplit in Hnl.
    by apply Forall_app in Hnl as [Hpre _]. }
  destruct Hok0 as (_ & _ & Hrefs & _).
  exists (length (Parser.heap st0)), (length (Parser.heap stm)).
  rewrite Hst1 in Hgrow, Hfiles |- *. rewrite Hst2. cbn [Parser.current_file Parser.heap Parser.files] in *.
  rewrite length_app in Hgrow. simpl in Hgrow.
  split; [done|]. split; [by rewrite lookup_app_r, Nat.sub_diag by lia|].
  split; [done|]. split; [by rewrite lookup_app_r, Nat.sub_diag by lia|].
  split; [lia|]. split; [done|].
  rewrite Hsplit.
  replace (pre ++ [old1; new1] ++ mid ++ [old2; new2] ++ rest)
    with ((pre ++ [old1; new1] ++ mid ++ [old2; new2]) ++ rest)
    by (by rewrite <- !app_assoc).
  rewrite run_app. fold st2. apply dropped_not_returned, dropped_run.
  rewrite Hst2. unfold dropped. cbn [Parser.current_file Parser.heap Parser.files].
  rewrite length_app. simpl. split; [lia|]. split.
  - rewrite Hfiles. intros Hin. apply Hrefs in Hin. lia.
  - intros [= Heq]. lia.
Qed.

Lemma parse_appends_on_git_header_or_end_witness :
  PyStr.splitlines two_pair_diff
  = [] ++ ["--- a/x.py"; "+++ b/x.py"] ++ ["@@ -1,1 +1,1 @@"; "-a"; "+b"]
       ++ ["--- a/y.py"; "+++ b/y.py"] ++ [] /\
  parse_unified_diff two_pair_diff = [mkDiffFile "y.py" "y.py" []] /\
  exists r1 r2,
    Parser.current_file (Parser.run Parser.init ([] ++ ["--- a/x.py"; "+++ b/x.py"])) = Some r1 /\
    Parser.heap (Parser.run Parser.init ([] ++ ["--- a/x.py"; "+++ b/x.py"])) !! r1
    = Some (mkDiffFile "x.py" "x.py" []) /\
    Parser.current_file
      (Parser.run Parser.init
         ([] ++ ["--- a/x.py"; "+++ b/x.py"] ++ ["@@ -1,1 +1,1 @@"; "-a"; "+b"]
             ++ ["--- a/y.py"; "+++ b/y.py"])) = Some r2 /\
    Parser.heap
      (Parser.run Parser.init
         ([] ++ ["--- a/x.py"; "+++ b/x.py"] ++ ["@@ -1,1 +1,1 @@"; "-a"; "+b"]
             ++ ["--- a/y.py"; "+++ b/y.py"])) !! r2
    = Some (mkDiffFile "y.py" "y.py" []) /\
    r2 <> r1 /\
    Parser.files
      (Parser.run Parser.init
         ([] ++ ["--- a/x.py"; "+++ b/x.py"] ++ ["@@ -1,1 +1,1 @@"; "-a"; "+b"]
             ++ ["--- a/y.py"; "+++ b/y.py"]))
    = Parser.files (Parser.run Parser.init ([] ++ ["--- a/x.py"; "+++ b/x.py"])) /\
    r1 ∉ Parser.result_refs (Parser.run Parser.init (PyStr.splitlines two_pair_diff)).
Proof.
  split; [reflexivity|]. split; [reflexivity|].
  apply (proj2 (proj2 parse_appends_on_git_header_or_end) two_pair_diff
           [] "--- a/x.py" "+++ b/x.py" ["@@ -1,1 +1,1 @@"; "-a"; "+b"]
           "--- a/y.py" "+++ b/y.py" [] "x.py" "x.py" "y.py" "y.py");
    try reflexivity.
  by repeat constructor.
Defined.
